(** * Toolbox: batch image converter and watermarker

    A shallow embedding of [services/imageProcessor.ts] (the compositor, the
    archive reader and the archive writer) and of the queue handling of
    [App.tsx] (intake and the batch run), with the properties the
    specification states about them.

    Conventions of the model.
    - A JavaScript [number] holding a pixel count is an integer ([Z]).  A
      coordinate or a size handed to the canvas by the base draw and by the
      modes that are not tiled is the exact rational ([Q]) the code writes
      down; the machine's value differs from it by the rounding of the last
      binary place.
    - Where the code takes a decision from a computed number (the tests of
      the two loops of the tiled mode and the [Math.floor] of their row
      offset, the [Math.round] of the progress), the computation is carried
      out as the machine does it, in IEEE 754 binary64: every operation gives
      the exact result rounded to the nearest number of 53 significant bits,
      ties to even, with gradual underflow ([fl]).  A binary64 number is
      carried as the rational it is, so that the centres of the tiled mode
      are the numbers of the machine.  Overflow to an infinity is not
      modelled.
    - Where the code divides, the theorems assume the divisor is not zero
      (JavaScript would produce an infinity or a NaN there, [Q] produces
      zero).
    - The browser (image decoding, the 2D context, the encoder, the archive
      library, randomness and the clock) is a record of oracles, [World].
    - Drawing is a writer computation: it lists the calls made on the 2D
      context, in order, and ends by returning, throwing or not ending. *)

From Stdlib Require Import ZArith QArith Qround Qabs Qminmax Qpower.
From Stdlib Require Import String Ascii List Bool Lia Lqa Morphisms.
From Stdlib Require Import DecimalString SpecFloat.
Import ListNotations.

Local Open Scope Q_scope.
Local Coercion inject_Z : Z >-> Q.

(** ** Numbers *)

(** The strict comparison [x < y] of two numbers, as a boolean. *)
Definition Qltb (x y : Q) : bool := negb (Qle_bool y x).

(** *** Binary64 *)

(** For [0 < q], the exponent [k] with [2 ^ k <= q < 2 ^ (k + 1)]. *)
Definition ilog2 (q : Q) : Z :=
  let k := (Z.log2 (Qnum q) - Z.log2 (Zpos (Qden q)))%Z in
  if Qle_bool (2 ^ k) q then k else (k - 1)%Z.

(** The nearest integer, the even one of the two when they are as near. *)
Definition roundEven (q : Q) : Z :=
  let f := Qfloor q in
  match Qcompare (q - inject_Z f) (1 # 2) with
  | Lt => f
  | Gt => (f + 1)%Z
  | Eq => if Z.even f then f else (f + 1)%Z
  end.

(** The exponent of the last place of the binary64 numbers around [q]: 53
    significant bits, and no exponent below that of the subnormal numbers. *)
Definition expOf (q : Q) : Z := Z.max (ilog2 q - 52) (-1074).

(** The binary64 number nearest to [q], for [0 <= q]. *)
Definition nearest (q : Q) : Q :=
  inject_Z (roundEven (q / 2 ^ expOf q)) * 2 ^ expOf q.

(** The binary64 number nearest to [q]: what an operation of the machine
    gives when its exact result is [q]. *)
Definition fl (q : Q) : Q :=
  Qred (if Qle_bool 0 q then nearest q else - nearest (- q)).

(** The operations of IEEE 754 binary64 as the Standard Library defines them
    ([SpecFloat]), to compare [fl] with. *)
Module IEEE.
Definition ofZ (z : Z) : spec_float := binary_normalize 53 1024 z 0 false.
Definition add : spec_float -> spec_float -> spec_float := SFadd 53 1024.
Definition mul : spec_float -> spec_float -> spec_float := SFmul 53 1024.
Definition div : spec_float -> spec_float -> spec_float := SFdiv 53 1024.

(** The rational a finite number is. *)
Definition value (x : spec_float) : option Q :=
  match x with
  | S754_zero _ => Some 0
  | S754_finite s m e =>
      Some ((if s then -1 else 1) * inject_Z (Zpos m) * 2 ^ e)
  | _ => None
  end.

Definition agree (x : spec_float) (q : Q) : bool :=
  match value x with
  | Some v => Qeq_bool v q
  | None => false
  end.

Fixpoint agreeAll (xs : list spec_float) (qs : list Q) : bool :=
  match xs, qs with
  | [], [] => true
  | x :: xs', q :: qs' => agree x q && agreeAll xs' qs'
  | _, _ => false
  end.

(** The steps of the tiled mode and the counter of a loop, in [SpecFloat]. *)
Definition stepX (cw scale : Z) : spec_float :=
  mul (mul (ofZ cw) (div (ofZ scale) (ofZ 100))) (div (ofZ 3) (ofZ 2)).
Definition stepY (cw scale iw ih : Z) : spec_float :=
  mul (div (mul (ofZ cw) (div (ofZ scale) (ofZ 100)))
           (div (ofZ iw) (ofZ ih)))
      (div (ofZ 3) (ofZ 2)).
Fixpoint counter (n : nat) (v step : spec_float) : list spec_float :=
  match n with
  | O => []
  | S n' => v :: counter n' (add v step) step
  end.

(** The pairs [(k, n)] with [1 <= k <= n <= top]. *)
Definition shares (top : nat) : list (Z * Z) :=
  flat_map (fun n =>
    map (fun k => (Z.of_nat (S k), Z.of_nat (S n))) (seq 0 (S n)))
    (seq 0 top).
End IEEE.

(** ** types.ts *)

Inductive ImageFormat := JPG | PNG | WEBP.

(** The string value of each member of the enum. *)
Definition formatValue (f : ImageFormat) : string :=
  match f with
  | JPG => "image/jpeg"
  | PNG => "image/png"
  | WEBP => "image/webp"
  end.

Inductive WatermarkPosition :=
  Center | TopLeft | TopRight | BottomLeft | BottomRight | Custom.
Inductive WatermarkMode := Single | Dual | Triple | Tiled.
Inductive WatermarkColorMode := Original | Grayscale.

Record ProcessingConfig := {
  keepOriginalSize : bool;
  aspectRatio : string;
  width : Z;
  height : Z;
  format : ImageFormat;
  quality : Q;
  fillBackground : bool;
  watermarkEnabled : bool;
  watermarkImageUrl : option string;
  watermarkOpacity : Q;
  watermarkScale : Q;
  watermarkRotation : Q;
  watermarkPosition : WatermarkPosition;
  watermarkMode : WatermarkMode;
  watermarkColorMode : WatermarkColorMode;
  customX : Q;
  customY : Q
}.

(** A [Blob]: its bytes and its MIME type.  A [File] is a blob with a name. *)
Record Blob := { blobBytes : string; blobType : string }.
Record File := { fileBlob : Blob; fileName : string }.
Definition fileType (f : File) : string := blobType (fileBlob f).

(** The [status] of a queued item. *)
Module Status.
Inductive t := pending | processing | success | error.
End Status.

Record UploadedFile := {
  id : string;
  file : File;
  previewUrl : string;
  originalName : string;
  status : Status.t;
  errorMessage : option string;
  processedBlob : option Blob
}.

Record ProcessSummary := {
  total : Z;
  success : Z;
  failed : Z;
  outputZipName : string
}.

(** ** The drawing surface *)

(** A decoded image, with its intrinsic size. *)
Record Image := { imgWidth : Z; imgHeight : Z }.

(** The calls the compositor makes on the canvas and its 2D context. *)
Inductive CanvasOp :=
| SetCanvasSize (w h : Q)
| SetImageSmoothing (quality : string)
| SetFillStyle (style : string)
| FillRect (x y w h : Q)
| DrawImage (img : Image) (x y : Q)
| DrawImageScaled (img : Image) (x y w h : Q)
| Save
| Restore
| SetFilter (f : string)
| SetGlobalAlpha (a : Q)
| Translate (x y : Q)
| Rotate (degrees : Q).   (* [rotate(degrees * Math.PI / 180)] *)

(** How a computation ends: with a value, with an exception, or not at all
    (the loop counter of the model ran out). *)
Inductive Outcome (A : Type) :=
| Returned (a : A)
| Thrown
| Diverged.
Arguments Returned {A} a.
Arguments Thrown {A}.
Arguments Diverged {A}.

(** A drawing computation: the calls made, then how it ended. *)
Definition Canvas (A : Type) : Type := (list CanvasOp * Outcome A)%type.

Definition ret {A} (a : A) : Canvas A := ([], Returned a).
Definition throw {A} : Canvas A := ([], Thrown).
Definition diverge {A} : Canvas A := ([], Diverged).
Definition call (op : CanvasOp) : Canvas unit := ([op], Returned tt).

Definition bind {A B} (m : Canvas A) (k : A -> Canvas B) : Canvas B :=
  match m with
  | (t, Returned a) => let (t', o) := k a in (t ++ t', o)
  | (t, Thrown) => (t, Thrown)
  | (t, Diverged) => (t, Diverged)
  end.

Notation "m ;; k" := (bind m (fun _ => k))
  (at level 61, right associativity).
Notation "x <- m ;;; k" := (bind m (fun x => k))
  (at level 61, m at next level, right associativity).

(** [try { m } catch (e) { console.warn(...) }]: an exception of [m] ends the
    block normally; what [m] drew before it stays drawn. *)
Definition tryCatch (m : Canvas unit) : Canvas unit :=
  match m with
  | (t, Thrown) => (t, Returned tt)
  | other => other
  end.

Definition when (b : bool) (m : Canvas unit) : Canvas unit :=
  if b then m else ret tt.

(** [for (let v = start; v < limit; v += step) body(v)], the counter being
    a binary64 number. *)
Fixpoint forLoop (fuel : nat) (v limit step : Q) (body : Q -> Canvas unit)
  : Canvas unit :=
  match fuel with
  | O => diverge
  | S fuel' =>
      if Qltb v limit
      then body v ;; forLoop fuel' (fl (v + step)) limit step body
      else ret tt
  end.

(** [positions.forEach(pos => body(pos.x, pos.y))]. *)
Fixpoint forEach (ps : list (Q * Q)) (body : Q -> Q -> Canvas unit)
  : Canvas unit :=
  match ps with
  | [] => ret tt
  | (x, y) :: rest => body x y ;; forEach rest body
  end.

(** ** Strings *)

Local Open Scope string_scope.

(** [s.lastIndexOf(c)], -1 when [c] does not occur. *)
Fixpoint lastIndexFrom (c : ascii) (s : string) (i found : Z) : Z :=
  match s with
  | EmptyString => found
  | String a s' =>
      lastIndexFrom c s' (i + 1)%Z (if Ascii.eqb a c then i else found)
  end.
Definition lastIndexOf (c : ascii) (s : string) : Z :=
  lastIndexFrom c s 0%Z (-1)%Z.

(** [s.substring(a, b)]: both bounds are clamped to the string, and swapped
    when they come in the wrong order. *)
Definition jsSubstring (a b : Z) (s : string) : string :=
  let len := Z.of_nat (String.length s) in
  let a' := Z.min (Z.max a 0) len in
  let b' := Z.min (Z.max b 0) len in
  let lo := Z.min a' b' in
  let hi := Z.max a' b' in
  substring (Z.to_nat lo) (Z.to_nat (hi - lo)) s.

(** [s || alt] on strings: the empty string is falsy. *)
Definition orElse (s alt : string) : string :=
  match s with
  | EmptyString => alt
  | _ => s
  end.

(** [s.split(sep)] for a separator of one character. *)
Fixpoint split (sep : ascii) (s : string) : list string :=
  match s with
  | EmptyString => [EmptyString]
  | String a s' =>
      if Ascii.eqb a sep then EmptyString :: split sep s'
      else match split sep s' with
           | h :: t => String a h :: t
           | [] => [String a EmptyString]
           end
  end.

(** [s.endsWith(suffix)]. *)
Definition endsWith (suffix s : string) : bool :=
  let n := String.length s in
  let k := String.length suffix in
  (k <=? n)%nat && String.eqb (substring (n - k) k s) suffix.

(** [s.startsWith(p)]. *)
Definition startsWith (p s : string) : bool := prefix p s.

(** The case folding of a regular expression with the [i] flag, on the
    letters of ASCII. *)
Definition foldCase (c : ascii) : ascii :=
  let n := nat_of_ascii c in
  if ((65 <=? n) && (n <=? 90))%nat then ascii_of_nat (n + 32) else c.

Fixpoint foldCaseString (s : string) : string :=
  match s with
  | EmptyString => EmptyString
  | String a s' => String (foldCase a) (foldCaseString s')
  end.

(** [/\.(jpg|jpeg|png|webp|gif)$/i.test(filename)]. *)
Definition imagePattern (filename : string) : bool :=
  existsb (fun ext => endsWith ("." ++ ext) (foldCaseString filename))
          ["jpg"; "jpeg"; "png"; "webp"; "gif"].

(** [`${n}`] for an integer. *)
Definition decimal (n : Z) : string := NilZero.string_of_int (Z.to_int n).

(** The name a converted image is given; the same three lines are in
    [startProcessing] and in [packageZip]. *)
Definition convertedName (originalName : string) (config : ProcessingConfig)
  : string :=
  let ext := nth 1 (split "/" (formatValue (format config))) "undefined" in
  let baseName :=
    orElse (jsSubstring 0 (lastIndexOf "." originalName) originalName)
           originalName in
  if keepOriginalSize config
  then baseName ++ "_converted." ++ ext
  else baseName ++ "_" ++ decimal (width config) ++ "x"
         ++ decimal (height config) ++ "_converted." ++ ext.

Local Close Scope string_scope.

(** ** Archives *)

(** An entry of a loaded archive: its key in [loadedZip.files], whether it is
    a directory, and what [async('blob')] resolves to ([None]: it rejects). *)
Record ZipEntry := {
  entryName : string;
  dir : bool;
  entryBlob : option Blob
}.

(** An archive under construction: the folder created in it and the calls
    [folder.file(name, blob)] made on it, in order.  What the archive library
    does with two calls of the same name is not part of this code. *)
Record Archive := {
  folderName : string;
  entries : list (string * Blob)
}.

(** ** The browser *)

Record World := {
  (** the image [loadImage] resolves to, or [None] when [onerror] fires. *)
  loadImage : File -> option Image;
  (** whether [canvas.getContext('2d')] gives a context. *)
  getContext : bool;
  (** the image [loadWatermarkImage] resolves to, or [None] on [onerror]. *)
  loadWatermarkImage : string -> option Image;
  (** whether drawing the watermark centred at the given point throws. *)
  drawFails : Q -> Q -> bool;
  (** what [canvas.toBlob] hands to its callback for the canvas so drawn, a
      format and a quality: the encoded image, or [None] for [null]. *)
  toBlob : list CanvasOp -> ImageFormat -> Q -> option Blob;
  (** [zip.loadAsync]: the entries of the archive in the order of
      [Object.keys], or [None] when the file cannot be read as an archive. *)
  loadAsync : File -> option (list ZipEntry);
  (** [zip.generateAsync]: the serialized archive, or [None] on rejection. *)
  generateAsync : Archive -> option Blob;
  (** [Math.random().toString(36).substr(2, 9)], by the number of the draw. *)
  randomId : nat -> string;
  (** [URL.createObjectURL]. *)
  createObjectURL : File -> string;
  (** [Date.now()]. *)
  now : Z
}.

(** ** imageProcessor.ts: [processImage] *)

(** The rectangle the resized base image is drawn into (the [else] branch of
    [keepOriginalSize], from [srcRatio] to the arguments of [drawImage]). *)
Record DrawRect := {
  offsetX : Q;
  offsetY : Q;
  drawWidth : Q;
  drawHeight : Q
}.

Definition baseRect (img : Image) (config : ProcessingConfig) : DrawRect :=
  let srcRatio := imgWidth img / imgHeight img in
  let dstRatio := width config / height config in
  if Qltb dstRatio srcRatio then
    let drawWidth := inject_Z (width config) in
    let drawHeight := imgHeight img * (width config / imgWidth img) in
    {| offsetX := 0;
       offsetY := (height config - drawHeight) / 2;
       drawWidth := drawWidth;
       drawHeight := drawHeight |}
  else
    let drawHeight := inject_Z (height config) in
    let drawWidth := imgWidth img * (height config / imgHeight img) in
    {| offsetX := (width config - drawWidth) / 2;
       offsetY := 0;
       drawWidth := drawWidth;
       drawHeight := drawHeight |}.

Definition shouldFillBackground (config : ProcessingConfig) : bool :=
  match format config with JPG => true | _ => false end
  || fillBackground config.

(** The size the canvas is given. *)
Definition canvasWidth (img : Image) (config : ProcessingConfig) : Q :=
  if keepOriginalSize config then imgWidth img else width config.
Definition canvasHeight (img : Image) (config : ProcessingConfig) : Q :=
  if keepOriginalSize config then imgHeight img else height config.

(** Sizing the canvas, the optional white fill and the draw of the base
    image. *)
Definition drawBase (img : Image) (config : ProcessingConfig) : Canvas unit :=
  if keepOriginalSize config then
    call (SetCanvasSize (imgWidth img) (imgHeight img)) ;;
    when (shouldFillBackground config)
      (call (SetFillStyle "#FFFFFF") ;;
       call (FillRect 0 0 (imgWidth img) (imgHeight img))) ;;
    call (DrawImage img 0 0)
  else
    call (SetCanvasSize (width config) (height config)) ;;
    call (SetImageSmoothing "high") ;;
    when (shouldFillBackground config)
      (call (SetFillStyle "#FFFFFF") ;;
       call (FillRect 0 0 (width config) (height config))) ;;
    let r := baseRect img config in
    call (DrawImageScaled img (offsetX r) (offsetY r) (drawWidth r) (drawHeight r)).

(** The size the watermark is drawn at. *)
Definition targetWmWidth (cw : Q) (config : ProcessingConfig) : Q :=
  cw * (watermarkScale config / 100).
Definition targetWmHeight (cw : Q) (config : ProcessingConfig) (wmImg : Image)
  : Q :=
  let wmAspectRatio := imgWidth wmImg / imgHeight wmImg in
  targetWmWidth cw config / wmAspectRatio.
Definition padding (cw ch : Q) : Q := Qmax cw ch * (3 # 100).

(** [drawWM(cx, cy)]. *)
Definition drawWM (w : World) (config : ProcessingConfig) (wmImg : Image)
  (tw th : Q) (cx cy : Q) : Canvas unit :=
  call Save ;;
  call (Translate cx cy) ;;
  call (Rotate (watermarkRotation config)) ;;
  (if drawFails w cx cy then throw
   else call (DrawImageScaled wmImg (- (tw / 2)) (- (th / 2)) tw th)) ;;
  call Restore.

(** [stepX] and [stepY] of the tiled mode, [targetWmWidth * 1.5] and
    [targetWmHeight * 1.5], as the machine has them: every operation from
    [wmAspectRatio] on is rounded. *)
Definition stepX (cw : Q) (config : ProcessingConfig) : Q :=
  let targetWmWidth := fl (cw * fl (watermarkScale config / 100)) in
  fl (targetWmWidth * (3 # 2)).
Definition stepY (cw : Q) (config : ProcessingConfig) (wmImg : Image) : Q :=
  let wmAspectRatio := fl (imgWidth wmImg / imgHeight wmImg) in
  let targetWmWidth := fl (cw * fl (watermarkScale config / 100)) in
  let targetWmHeight := fl (targetWmWidth / wmAspectRatio) in
  fl (targetWmHeight * (3 # 2)).

(** [Math.floor((y + stepY) / stepY) % 2 === 0 ? stepX / 2 : 0]. *)
Definition rowOffset (stepX stepY y : Q) : Q :=
  if (Z.rem (Qfloor (fl (fl (y + stepY) / stepY))) 2 =? 0)%Z
  then fl (stepX / 2) else 0.

(** The two nested loops of the [tiled] mode. *)
Definition drawTiled (fuel : nat) (cw ch stepX stepY : Q)
  (body : Q -> Q -> Canvas unit) : Canvas unit :=
  forLoop fuel (- stepX) (fl (cw + stepX)) stepX (fun x =>
    forLoop fuel (- stepY) (fl (ch + stepY)) stepY (fun y =>
      body (fl (x + rowOffset stepX stepY y)) y)).

(** The [positions] array of the modes that are not tiled. *)
Definition positions (config : ProcessingConfig) (cw ch tw th : Q)
  : list (Q * Q) :=
  let padding := padding cw ch in
  let halfW := tw / 2 in
  let halfH := th / 2 in
  match watermarkMode config with
  | Single =>
      [ match watermarkPosition config with
        | Custom => ((customX config / 100) * cw, (customY config / 100) * ch)
        | Center => (cw / 2, ch / 2)
        | TopLeft => (padding + halfW, padding + halfH)
        | TopRight => (cw - padding - halfW, padding + halfH)
        | BottomLeft => (padding + halfW, ch - padding - halfH)
        | BottomRight => (cw - padding - halfW, ch - padding - halfH)
        end ]
  | Dual =>
      [ (padding + halfW, padding + halfH);
        (cw - padding - halfW, ch - padding - halfH) ]
  | Triple =>
      [ (padding + halfW, padding + halfH);
        (cw / 2, ch / 2);
        (cw - padding - halfW, ch - padding - halfH) ]
  | Tiled => []
  end.

(** The body of the [try] block. *)
Definition drawWatermark (fuel : nat) (w : World) (config : ProcessingConfig)
  (cw ch : Q) (url : string) : Canvas unit :=
  match loadWatermarkImage w url with
  | None => throw
  | Some wmImg =>
      call Save ;;
      when (match watermarkColorMode config with
            | Grayscale => true | Original => false end)
        (call (SetFilter "grayscale(100%)")) ;;
      call (SetGlobalAlpha (watermarkOpacity config)) ;;
      let tw := targetWmWidth cw config in
      let th := targetWmHeight cw config wmImg in
      (match watermarkMode config with
       | Tiled =>
           drawTiled fuel cw ch (stepX cw config) (stepY cw config wmImg)
             (drawWM w config wmImg tw th)
       | _ => forEach (positions config cw ch tw th) (drawWM w config wmImg tw th)
       end) ;;
      call Restore
  end.

(** [config.watermarkEnabled && config.watermarkImageUrl]: the address the
    watermark is loaded from, when there is one to load. *)
Definition watermarkSource (config : ProcessingConfig) : option string :=
  if watermarkEnabled config then
    match watermarkImageUrl config with
    | Some EmptyString => None
    | other => other
    end
  else None.

(** The [if] on the watermark, with its [try] and [catch]. *)
Definition overlay (fuel : nat) (w : World) (img : Image)
  (config : ProcessingConfig) : Canvas unit :=
  match watermarkSource config with
  | Some url =>
      tryCatch (drawWatermark fuel w config
                  (canvasWidth img config) (canvasHeight img config) url)
  | None => ret tt
  end.

(** Everything [processImage] draws once it holds the image and a context. *)
Definition compose (fuel : nat) (w : World) (img : Image)
  (config : ProcessingConfig) : Canvas unit :=
  drawBase img config ;; overlay fuel w img config.

(** The calls of the white fill, when there is one. *)
Definition whiteFill (config : ProcessingConfig) (cw ch : Q) : list CanvasOp :=
  if shouldFillBackground config
  then [SetFillStyle "#FFFFFF"; FillRect 0 0 cw ch]
  else [].

Definition processImage (fuel : nat) (w : World) (f : UploadedFile)
  (config : ProcessingConfig) : Canvas Blob :=
  match loadImage w (file f) with
  | None => throw
  | Some img =>
      if negb (getContext w) then throw
      else
        match compose fuel w img config with
        | (t, Returned _) =>
            match toBlob w t (format config) (quality config) with
            | Some blob => (t, Returned blob)
            | None => (t, Thrown)
            end
        | (t, Thrown) => (t, Thrown)
        | (t, Diverged) => (t, Diverged)
        end
  end.

(** ** imageProcessor.ts: [extractImagesFromZip] and [packageZip] *)

Local Open Scope string_scope.

(** The filter on the keys of [loadedZip.files]. *)
Definition isImageEntry (e : ZipEntry) : bool :=
  negb (dir e) && imagePattern (entryName e).

(** [filename.split('/').pop() || filename]. *)
Definition cleanName (filename : string) : string :=
  orElse (last (split "/" filename) "") filename.

(** The loop over the kept entries; a read that rejects ends it. *)
Fixpoint readEntries (es : list ZipEntry) : option (list File) :=
  match es with
  | [] => Some []
  | e :: rest =>
      match entryBlob e with
      | None => None
      | Some fileData =>
          match readEntries rest with
          | None => None
          | Some imageFiles =>
              Some ({| fileBlob := fileData;
                       fileName := cleanName (entryName e) |} :: imageFiles)
          end
      end
  end.

(** [None] stands for a rejected promise. *)
Definition extractImagesFromZip (w : World) (zipFile : File)
  : option (list File) :=
  match loadAsync w zipFile with
  | None => None
  | Some files => readEntries (filter isImageEntry files)
  end.

(** The entries [packageZip] adds to the folder. *)
Definition isPackaged (f : UploadedFile) : bool :=
  match status f, processedBlob f with
  | Status.success, Some _ => true
  | _, _ => false
  end.

Fixpoint packagedEntries (processedFiles : list UploadedFile)
  (config : ProcessingConfig) : list (string * Blob) :=
  match processedFiles with
  | [] => []
  | f :: rest =>
      match status f, processedBlob f with
      | Status.success, Some blob =>
          (convertedName (originalName f) config, blob)
            :: packagedEntries rest config
      | _, _ => packagedEntries rest config
      end
  end.

Definition packageArchive (processedFiles : list UploadedFile)
  (config : ProcessingConfig) : Archive :=
  {| folderName :=
       if keepOriginalSize config then "converted_original_size"
       else "converted_" ++ decimal (width config) ++ "x"
              ++ decimal (height config);
     entries := packagedEntries processedFiles config |}.

Definition packageZip (w : World) (processedFiles : list UploadedFile)
  (config : ProcessingConfig) : option Blob :=
  generateAsync w (packageArchive processedFiles config).

(** ** App.tsx: the queue *)

Record AppState := {
  files : list UploadedFile;
  isProcessing : bool;
  progress : Z;
  summary : option ProcessSummary
}.

(** What a handler does to the state of the component and to the page. *)
Inductive Effect :=
| SetIsProcessing (b : bool)
| SetProgress (p : Z)
| SetSummary (s : option ProcessSummary)
| SetFiles (fs : list UploadedFile)
| AppendFiles (fs : list UploadedFile)
| SaveAs (b : Blob) (name : string)
| Alert (msg : string)
| ConsoleError.

Definition applyEffect (st : AppState) (e : Effect) : AppState :=
  match e with
  | SetIsProcessing b =>
      {| files := files st; isProcessing := b;
         progress := progress st; summary := summary st |}
  | SetProgress p =>
      {| files := files st; isProcessing := isProcessing st;
         progress := p; summary := summary st |}
  | SetSummary s =>
      {| files := files st; isProcessing := isProcessing st;
         progress := progress st; summary := s |}
  | SetFiles fs =>
      {| files := fs; isProcessing := isProcessing st;
         progress := progress st; summary := summary st |}
  | AppendFiles fs =>
      {| files := files st ++ fs; isProcessing := isProcessing st;
         progress := progress st; summary := summary st |}
  | SaveAs _ _ | Alert _ | ConsoleError => st
  end.

Definition applyEffects (st : AppState) (es : list Effect) : AppState :=
  fold_left applyEffect es st.

(** *** [processFiles] *)

Definition isZip (f : File) : bool :=
  String.eqb (fileType f) "application/zip"
  || String.eqb (fileType f) "application/x-zip-compressed"
  || endsWith ".zip" (fileName f).

Definition newItem (w : World) (n : nat) (img : File) : UploadedFile :=
  {| id := randomId w n;
     file := img;
     previewUrl := createObjectURL w img;
     originalName := fileName img;
     status := Status.pending;
     errorMessage := None;
     processedBlob := None |}.

(** [extracted.forEach(img => newFiles.push(...))]. *)
Fixpoint pushAll (w : World) (newFiles : list UploadedFile)
  (extracted : list File) : list UploadedFile :=
  match extracted with
  | [] => newFiles
  | img :: rest =>
      pushAll w (newFiles ++ [newItem w (List.length newFiles) img]) rest
  end.

(** The loop over [fileList]: the items collected and the alerts raised. *)
Fixpoint intake (w : World) (fileList : list File)
  (newFiles : list UploadedFile) : list UploadedFile * list Effect :=
  match fileList with
  | [] => (newFiles, [])
  | f :: rest =>
      if isZip f then
        match extractImagesFromZip w f with
        | Some extracted => intake w rest (pushAll w newFiles extracted)
        | None =>
            let (out, alerts) := intake w rest newFiles in
            (out, Alert ("Failed to parse ZIP: " ++ fileName f) :: alerts)
        end
      else if startsWith "image/" (fileType f) then
        intake w rest (newFiles ++ [newItem w (List.length newFiles) f])
      else intake w rest newFiles
  end.

Definition processFiles (w : World) (fileList : list File) : list Effect :=
  let (newFiles, alerts) := intake w fileList [] in
  alerts ++ [AppendFiles newFiles; SetSummary None].

(** *** [startProcessing] *)

(** [updatedFiles[i] = g(updatedFiles[i])]. *)
Fixpoint updateAt (i : nat) (g : UploadedFile -> UploadedFile)
  (l : list UploadedFile) : list UploadedFile :=
  match l, i with
  | [], _ => []
  | x :: rest, O => g x :: rest
  | x :: rest, S i' => x :: updateAt i' g rest
  end.

Definition withStatus (st : Status.t) (f : UploadedFile) : UploadedFile :=
  {| id := id f; file := file f; previewUrl := previewUrl f;
     originalName := originalName f; status := st;
     errorMessage := errorMessage f; processedBlob := processedBlob f |}.

Definition withSuccess (blob : Blob) (f : UploadedFile) : UploadedFile :=
  {| id := id f; file := file f; previewUrl := previewUrl f;
     originalName := originalName f; status := Status.success;
     errorMessage := errorMessage f; processedBlob := Some blob |}.

Definition withError (msg : string) (f : UploadedFile) : UploadedFile :=
  {| id := id f; file := file f; previewUrl := previewUrl f;
     originalName := originalName f; status := Status.error;
     errorMessage := Some msg; processedBlob := processedBlob f |}.

(** [Math.round(x)]. *)
Definition jsRound (x : Q) : Z := Qfloor (x + (1 # 2)).

(** The state of the loop of [startProcessing] after some iterations. *)
Record LoopState := {
  updatedFiles : list UploadedFile;
  successCount : Z;
  failCount : Z
}.

(** The iterations [i], [i+1], ... of the loop, [n] of them.  The second
    component is [None] when a call of [processImage] does not end. *)
Fixpoint processLoop (fuel : nat) (w : World) (config : ProcessingConfig)
  (n i : nat) (s : LoopState) : list Effect * option LoopState :=
  match n with
  | O => ([], Some s)
  | S n' =>
      let started := updateAt i (withStatus Status.processing) (updatedFiles s) in
      match nth_error started i with
      | None => ([SetFiles started], Some s)
      | Some current =>
          let step (s' : LoopState) :=
            let (es, r) := processLoop fuel w config n' (S i) s' in
            (SetFiles started
               :: SetProgress
                    (jsRound (fl (fl (inject_Z (Z.of_nat i + 1)
                                      / inject_Z (Z.of_nat (List.length started)))
                                  * 100)))
               :: SetFiles (updatedFiles s') :: es, r) in
          match snd (processImage fuel w current config) with
          | Returned blob =>
              step {| updatedFiles := updateAt i (withSuccess blob) started;
                      successCount := (successCount s + 1)%Z;
                      failCount := failCount s |}
          | Thrown =>
              step {| updatedFiles :=
                        updateAt i (withError "Conversion failed") started;
                      successCount := successCount s;
                      failCount := (failCount s + 1)%Z |}
          | Diverged => ([SetFiles started], None)
          end
      end
  end.

(** What follows the loop. *)
Definition finish (w : World) (config : ProcessingConfig) (s : LoopState)
  : list Effect :=
  let total := Z.of_nat (List.length (updatedFiles s)) in
  (if (0 <? successCount s)%Z then
     let successfulFiles := filter isPackaged (updatedFiles s) in
     match successfulFiles with
     | [f] =>
         let fileName := convertedName (originalName f) config in
         match processedBlob f with
         | Some blob => [SaveAs blob fileName]
         | None => []
         end
         ++ [SetSummary (Some {| total := total;
                                 success := successCount s;
                                 failed := failCount s;
                                 outputZipName := fileName |})]
     | _ =>
         match packageZip w (updatedFiles s) config with
         | Some zipBlob =>
             let zipName := "converted_images_" ++ decimal (now w) ++ ".zip" in
             [SaveAs zipBlob zipName;
              SetSummary (Some {| total := total;
                                  success := successCount s;
                                  failed := failCount s;
                                  outputZipName := zipName |})]
         | None => [ConsoleError]
         end
     end
   else
     [SetSummary (Some {| total := total;
                          success := 0;
                          failed := failCount s;
                          outputZipName := "" |})])
  ++ [SetIsProcessing false].

(** The effects of the handler, and whether it ran to its end. *)
Definition startProcessing (fuel : nat) (w : World)
  (config : ProcessingConfig) (st : AppState) : list Effect * bool :=
  match files st with
  | [] => ([], true)
  | _ =>
      let '(es, r) :=
        processLoop fuel w config (List.length (files st)) 0
          {| updatedFiles := files st; successCount := 0; failCount := 0 |} in
      match r with
      | Some s =>
          (([SetIsProcessing true; SetProgress 0; SetSummary None]
              ++ es ++ finish w config s)%list, true)
      | None =>
          (([SetIsProcessing true; SetProgress 0; SetSummary None] ++ es)%list,
           false)
      end
  end.

Local Close Scope string_scope.

(** ** App.tsx: the target size *)

Local Open Scope string_scope.

(** The table of aspect ratios: the [value] and the [ratio] of each entry
    (the labels are texts of the translation table). *)
Definition aspectRatios : list (string * Q) :=
  [ ("custom", 0); ("1:1", 1); ("4:3", 4 # 3); ("3:4", 3 # 4);
    ("16:9", 16 # 9); ("9:16", 9 # 16); ("4:5", 4 # 5); ("2:3", 2 # 3);
    ("3:2", 3 # 2) ].

(** [aspectRatios.find(r => r.value === value)]. *)
Definition findRatio (value : string) : option (string * Q) :=
  find (fun r => String.eqb (fst r) value) aspectRatios.

(** [{ ...prev, aspectRatio, width, height }]. *)
Definition withSizing (aspect : string) (w h : Z) (config : ProcessingConfig)
  : ProcessingConfig :=
  {| keepOriginalSize := keepOriginalSize config;
     aspectRatio := aspect;
     width := w;
     height := h;
     format := format config;
     quality := quality config;
     fillBackground := fillBackground config;
     watermarkEnabled := watermarkEnabled config;
     watermarkImageUrl := watermarkImageUrl config;
     watermarkOpacity := watermarkOpacity config;
     watermarkScale := watermarkScale config;
     watermarkRotation := watermarkRotation config;
     watermarkPosition := watermarkPosition config;
     watermarkMode := watermarkMode config;
     watermarkColorMode := watermarkColorMode config;
     customX := customX config;
     customY := customY config |}.

Definition handleRatioChange (config : ProcessingConfig)
  (newRatioValue : string) : ProcessingConfig :=
  match findRatio newRatioValue with
  | Some selectedRatio =>
      if negb (String.eqb (fst selectedRatio) "custom") then
        let newHeight := jsRound (width config / snd selectedRatio) in
        withSizing newRatioValue (width config) newHeight config
      else withSizing "custom" (width config) (height config) config
  | None => withSizing "custom" (width config) (height config) config
  end.

Definition handleWidthChange (config : ProcessingConfig) (val : Z)
  : ProcessingConfig :=
  let safeVal := Z.max 1 val in
  let plain := withSizing (aspectRatio config) safeVal (height config) config in
  if negb (String.eqb (aspectRatio config) "custom") then
    match findRatio (aspectRatio config) with
    | Some selectedRatio =>
        let newHeight := jsRound (safeVal / snd selectedRatio) in
        withSizing (aspectRatio config) safeVal newHeight config
    | None => plain
    end
  else plain.

Definition handleHeightChange (config : ProcessingConfig) (val : Z)
  : ProcessingConfig :=
  let safeVal := Z.max 1 val in
  let plain := withSizing (aspectRatio config) (width config) safeVal config in
  if negb (String.eqb (aspectRatio config) "custom") then
    match findRatio (aspectRatio config) with
    | Some selectedRatio =>
        let newWidth := jsRound (safeVal * snd selectedRatio) in
        withSizing (aspectRatio config) newWidth safeVal config
    | None => plain
    end
  else plain.

(** What the user does to the target size: a choice in the list of ratios, a
    number typed in the width field or in the height field (what
    [parseInt(...) || 0] makes of it). *)
Inductive SizeEvent :=
| RatioChange (value : string)
| WidthChange (val : Z)
| HeightChange (val : Z).

Definition sizeStep (config : ProcessingConfig) (e : SizeEvent)
  : ProcessingConfig :=
  match e with
  | RatioChange value => handleRatioChange config value
  | WidthChange val => handleWidthChange config val
  | HeightChange val => handleHeightChange config val
  end.

(** ** App.tsx: the preview of the watermark *)

(** [for (let v = start; v <= limit; v += step) items.push(...body(v))];
    [None] when the turns of the model run out. *)
Fixpoint forItems {A : Type} (fuel : nat) (v limit step : Q)
  (body : Q -> option (list A)) : option (list A) :=
  match fuel with
  | O => None
  | S fuel' =>
      if Qle_bool v limit then
        match body v with
        | None => None
        | Some here =>
            match forItems fuel' (v + step) limit step body with
            | None => None
            | Some rest => Some (here ++ rest)%list
            end
        end
      else Some []
  end.

(** The places of the preview, in percent of the preview box: the arguments
    [renderPreviewWatermarks] gives to [getWMStyle]. *)
Definition renderPreviewWatermarks (fuel : nat) (config : ProcessingConfig)
  : option (list (Q * Q)) :=
  match watermarkMode config with
  | Tiled =>
      let step := Qmax 5 (watermarkScale config * (3 # 2)) in
      forItems fuel (- step) (100 + step) step (fun x =>
        forItems fuel (- step) (100 + step) step (fun y =>
          Some [(x + rowOffset step step y, y)]))
  | Dual => Some [(15, 15); (85, 85)]
  | Triple => Some [(15, 15); (50, 50); (85, 85)]
  | Single =>
      Some [ match watermarkPosition config with
             | Custom => (customX config, customY config)
             | TopLeft => (15, 15)
             | TopRight => (85, 15)
             | BottomLeft => (15, 85)
             | BottomRight => (85, 85)
             | Center => (50, 50)
             end ]
  end.

(** The pointer events the preview listens to. *)
Inductive PointerKind := MouseDown | MouseMove | TouchMove.

Record PointerEvent := {
  kind : PointerKind;
  clientX : Q;
  clientY : Q
}.

(** [getBoundingClientRect()]. *)
Record DOMRect := {
  rectLeft : Q;
  rectTop : Q;
  rectWidth : Q;
  rectHeight : Q
}.

(** [{ ...prev, customX, customY }]. *)
Definition withCustom (x y : Q) (config : ProcessingConfig)
  : ProcessingConfig :=
  {| keepOriginalSize := keepOriginalSize config;
     aspectRatio := aspectRatio config;
     width := width config;
     height := height config;
     format := format config;
     quality := quality config;
     fillBackground := fillBackground config;
     watermarkEnabled := watermarkEnabled config;
     watermarkImageUrl := watermarkImageUrl config;
     watermarkOpacity := watermarkOpacity config;
     watermarkScale := watermarkScale config;
     watermarkRotation := watermarkRotation config;
     watermarkPosition := watermarkPosition config;
     watermarkMode := watermarkMode config;
     watermarkColorMode := watermarkColorMode config;
     customX := x;
     customY := y |}.

(** The handler, on the configuration and the dragging flag; [rect] is
    [None] when the preview box is not mounted. *)
Definition handlePreviewDrag (config : ProcessingConfig)
  (isPreviewDragging : bool) (e : PointerEvent) (rect : option DOMRect)
  : ProcessingConfig * bool :=
  match watermarkPosition config, watermarkMode config with
  | Custom, Single =>
      let isTouch := match kind e with TouchMove => true | _ => false end in
      if negb isPreviewDragging && negb isTouch
         && match kind e with MouseDown => true | _ => false end
      then (config, true)
      else if isPreviewDragging || isTouch then
        match rect with
        | Some rect =>
            let x := (clientX e - rectLeft rect) / rectWidth rect * 100 in
            let y := (clientY e - rectTop rect) / rectHeight rect * 100 in
            (withCustom (Qmax 0 (Qmin 100 x)) (Qmax 0 (Qmin 100 y)) config,
             isPreviewDragging)
        | None => (config, isPreviewDragging)
        end
      else (config, isPreviewDragging)
  | _, _ => (config, isPreviewDragging)
  end.

Local Close Scope string_scope.

(** ** The inputs of the scenarios *)

Local Open Scope string_scope.

(** The configuration the application starts with. *)
Definition defaultConfig : ProcessingConfig :=
  {| keepOriginalSize := false;
     aspectRatio := "custom";
     width := 800;
     height := 600;
     format := JPG;
     quality := 85 # 100;
     fillBackground := false;
     watermarkEnabled := false;
     watermarkImageUrl := None;
     watermarkOpacity := 8 # 10;
     watermarkScale := 20;
     watermarkRotation := 0;
     watermarkPosition := BottomRight;
     watermarkMode := Single;
     watermarkColorMode := Original;
     customX := 50;
     customY := 50 |}.

Definition withWatermark (mode : WatermarkMode) (config : ProcessingConfig)
  : ProcessingConfig :=
  {| keepOriginalSize := keepOriginalSize config;
     aspectRatio := aspectRatio config;
     width := width config;
     height := height config;
     format := format config;
     quality := quality config;
     fillBackground := fillBackground config;
     watermarkEnabled := true;
     watermarkImageUrl := Some "data:image/png;base64,AAAA";
     watermarkOpacity := watermarkOpacity config;
     watermarkScale := watermarkScale config;
     watermarkRotation := watermarkRotation config;
     watermarkPosition := watermarkPosition config;
     watermarkMode := mode;
     watermarkColorMode := watermarkColorMode config;
     customX := customX config;
     customY := customY config |}.

Definition withTarget (keep : bool) (w h : Z) (fmt : ImageFormat)
  (config : ProcessingConfig) : ProcessingConfig :=
  {| keepOriginalSize := keep;
     aspectRatio := aspectRatio config;
     width := w;
     height := h;
     format := fmt;
     quality := quality config;
     fillBackground := fillBackground config;
     watermarkEnabled := watermarkEnabled config;
     watermarkImageUrl := watermarkImageUrl config;
     watermarkOpacity := watermarkOpacity config;
     watermarkScale := watermarkScale config;
     watermarkRotation := watermarkRotation config;
     watermarkPosition := watermarkPosition config;
     watermarkMode := watermarkMode config;
     watermarkColorMode := watermarkColorMode config;
     customX := customX config;
     customY := customY config |}.

Definition pngBlob (bytes : string) : Blob :=
  {| blobBytes := bytes; blobType := "image/png" |}.

Definition pngFile (name : string) : File :=
  {| fileBlob := pngBlob name; fileName := name |}.

(** A browser in which every file decodes to a 1600 x 900 image, except the
    one named [broken.png]; the watermark is 100 x 50 and no call fails. *)
Definition sampleWorld : World :=
  {| loadImage := fun f =>
       if String.eqb (fileName f) "broken.png" then None
       else Some {| imgWidth := 1600; imgHeight := 900 |};
     getContext := true;
     loadWatermarkImage := fun _ => Some {| imgWidth := 100; imgHeight := 50 |};
     drawFails := fun _ _ => false;
     toBlob := fun _ fmt _ =>
       Some {| blobBytes := "encoded"; blobType := formatValue fmt |};
     loadAsync := fun _ => None;
     generateAsync := fun a =>
       Some {| blobBytes := folderName a; blobType := "application/zip" |};
     randomId := fun n => decimal (Z.of_nat n);
     createObjectURL := fun f => String.append "blob:" (fileName f);
     now := 1700000000000 |}.

Definition queued (name : string) : UploadedFile :=
  newItem sampleWorld 0 (pngFile name).

Local Close Scope string_scope.

(** An archive with two images of the same name in two folders, a text file
    and a folder entry. *)
Definition sampleArchive : list ZipEntry :=
  [ {| entryName := "summer/"; dir := true; entryBlob := Some (pngBlob "") |};
    {| entryName := "summer/photo.PNG"; dir := false;
       entryBlob := Some (pngBlob "first") |};
    {| entryName := "notes.txt"; dir := false;
       entryBlob := Some (pngBlob "text") |};
    {| entryName := "winter/photo.PNG"; dir := false;
       entryBlob := Some (pngBlob "second") |} ].

Definition zipUpload : File :=
  {| fileBlob := {| blobBytes := "PK"; blobType := "application/zip" |};
     fileName := "photos.zip" |}.

(** The browser of [sampleWorld], reading every archive as [sampleArchive]. *)
Definition archiveWorld : World :=
  {| loadImage := loadImage sampleWorld;
     getContext := true;
     loadWatermarkImage := loadWatermarkImage sampleWorld;
     drawFails := fun _ _ => false;
     toBlob := toBlob sampleWorld;
     loadAsync := fun _ => Some sampleArchive;
     generateAsync := generateAsync sampleWorld;
     randomId := randomId sampleWorld;
     createObjectURL := createObjectURL sampleWorld;
     now := now sampleWorld |}.

Definition emptyState : AppState :=
  {| files := []; isProcessing := false; progress := 0; summary := None |}.

(** Scenario C: a queue of three images, the second of which cannot be
    decoded.  Scenario B: a queue of one image. *)
Definition threeImages : AppState :=
  {| files := [queued "first.png"; queued "broken.png"; queued "third.png"];
     isProcessing := false; progress := 0; summary := None |}.

Definition onePhoto : AppState :=
  {| files := [queued "photo.png"];
     isProcessing := false; progress := 0; summary := None |}.

(** The browser of [sampleWorld], with a watermark that does not load. *)
Definition noWatermarkWorld : World :=
  {| loadImage := loadImage sampleWorld;
     getContext := true;
     loadWatermarkImage := fun _ => None;
     drawFails := fun _ _ => false;
     toBlob := toBlob sampleWorld;
     loadAsync := loadAsync sampleWorld;
     generateAsync := generateAsync sampleWorld;
     randomId := randomId sampleWorld;
     createObjectURL := createObjectURL sampleWorld;
     now := now sampleWorld |}.


(** The browser of [sampleWorld], where drawing the watermark throws on the
    right half of the canvas. *)
Definition failingDrawWorld : World :=
  {| loadImage := loadImage sampleWorld;
     getContext := true;
     loadWatermarkImage := loadWatermarkImage sampleWorld;
     drawFails := fun cx _ => Qltb 400 cx;
     toBlob := toBlob sampleWorld;
     loadAsync := loadAsync sampleWorld;
     generateAsync := generateAsync sampleWorld;
     randomId := randomId sampleWorld;
     createObjectURL := createObjectURL sampleWorld;
     now := now sampleWorld |}.

(** ** What the specification asks of a run *)

(** Whether the conversion of an item gives a blob, and whether it throws. *)
Definition converted (fuel : nat) (w : World) (config : ProcessingConfig)
  (f : UploadedFile) : bool :=
  match snd (processImage fuel w f config) with
  | Returned _ => true
  | _ => false
  end.

Definition rejected (fuel : nat) (w : World) (config : ProcessingConfig)
  (f : UploadedFile) : bool :=
  match snd (processImage fuel w f config) with
  | Thrown => true
  | _ => false
  end.

Definition ends (fuel : nat) (w : World) (config : ProcessingConfig)
  (f : UploadedFile) : Prop :=
  snd (processImage fuel w f config) <> Diverged.

(** An item once the run is done with it. *)
Definition settle (fuel : nat) (w : World) (config : ProcessingConfig)
  (f : UploadedFile) : UploadedFile :=
  match snd (processImage fuel w f config) with
  | Returned blob => withSuccess blob (withStatus Status.processing f)
  | Thrown => withError "Conversion failed" (withStatus Status.processing f)
  | Diverged => withStatus Status.processing f
  end.

(** The queue as the run shows it, item after item: the items done so far
    settled, then the next one first in [processing], then settled too. *)
Fixpoint snapshotsFrom (settle : UploadedFile -> UploadedFile)
  (done todo : list UploadedFile) : list (list UploadedFile) :=
  match todo with
  | [] => []
  | f :: rest =>
      (done ++ withStatus Status.processing f :: rest)%list
        :: (done ++ settle f :: rest)%list
        :: snapshotsFrom settle (done ++ [settle f])%list rest
  end.

(** The queues a list of effects shows, and the downloads it offers. *)
Definition snapshots (es : list Effect) : list (list UploadedFile) :=
  flat_map (fun e => match e with SetFiles fs => [fs] | _ => [] end) es.

Definition downloads (es : list Effect) : list (Blob * string) :=
  flat_map (fun e => match e with SaveAs b n => [(b, n)] | _ => [] end) es.

(** ** What the specification asks of names *)

Local Open Scope string_scope.

(** Whether a character occurs in a string. *)
Fixpoint occurs (c : ascii) (s : string) : bool :=
  match s with
  | EmptyString => false
  | String a s' => Ascii.eqb a c || occurs c s'
  end.

(** A name has one of the image extensions, in any letter case. *)
Definition hasImageExtension (name : string) : Prop :=
  exists stem ext,
    name = stem ++ "." ++ ext /\
    In (foldCaseString ext) ["jpg"; "jpeg"; "png"; "webp"; "gif"].

(** An entry of an archive that counts as an image. *)
Definition qualifies (e : ZipEntry) : Prop :=
  dir e = false /\ hasImageExtension (entryName e).

(** [given] is the part of [name] after its last slash: [name] itself when
    it has no slash. *)
Definition keepsLastSegment (name given : string) : Prop :=
  occurs "/" given = false /\
  (occurs "/" name = false -> given = name) /\
  (forall folders base,
     name = folders ++ "/" ++ base -> occurs "/" base = false -> given = base).

(** [stem] is the part of [name] before its last dot. *)
Definition isStem (name stem : string) : Prop :=
  exists ext, name = stem ++ "." ++ ext /\ occurs "." ext = false.

(** [base] is [name] without its extension: the part before the last dot,
    and the whole of [name] when it has no dot or nothing before its one
    dot. *)
Definition isBaseName (name base : string) : Prop :=
  (isStem name base /\ base <> "") \/
  (base = name /\ (occurs "." name = false \/ isStem name "")).

(** The extension that goes with an output format. *)
Definition extensionOf (f : ImageFormat) : string :=
  match f with
  | JPG => "jpeg"
  | PNG => "png"
  | WEBP => "webp"
  end.

Local Close Scope string_scope.

(** ** What the specification asks of the base draw *)

(** The drawn rectangle covers the whole canvas. *)
Definition coversCanvas (r : DrawRect) (cw ch : Q) : Prop :=
  offsetX r <= 0 /\ offsetY r <= 0 /\
  cw <= offsetX r + drawWidth r /\ ch <= offsetY r + drawHeight r.

(** The drawn rectangle lies inside the canvas. *)
Definition insideCanvas (r : DrawRect) (cw ch : Q) : Prop :=
  0 <= offsetX r /\ 0 <= offsetY r /\
  offsetX r + drawWidth r <= cw /\ offsetY r + drawHeight r <= ch.

(** The centres the watermark is drawn at: the arguments of the calls of
    [translate]. *)
Definition centers (t : list CanvasOp) : list (Q * Q) :=
  flat_map (fun op => match op with Translate x y => [(x, y)] | _ => [] end) t.

(** The value of the variable of a [for] loop in its iteration [i]. *)
Definition loopValue (start step : Q) (i : nat) : Q :=
  Nat.iter i (fun v => fl (v + step)) start.


(** The calls that paint the background, and the calls that draw an image. *)
Definition isFill (op : CanvasOp) : bool :=
  match op with
  | SetFillStyle _ | FillRect _ _ _ _ => true
  | _ => false
  end.

Definition isDraw (op : CanvasOp) : bool :=
  match op with
  | DrawImage _ _ _ | DrawImageScaled _ _ _ _ _ => true
  | _ => false
  end.

(** The calls of the watermark block. *)
Definition isOverlayOp (op : CanvasOp) : Prop :=
  match op with
  | Save | Restore | SetFilter _ | SetGlobalAlpha _ | Translate _ _
  | Rotate _ | DrawImageScaled _ _ _ _ _ => True
  | _ => False
  end.

(** ** What the code shows beyond the specification *)

(** How many [save] calls of a list of calls are not matched by a [restore]:
    the depth the state stack of the context is left at. *)
Fixpoint saveDepth (t : list CanvasOp) : Z :=
  match t with
  | [] => 0
  | Save :: rest => saveDepth rest + 1
  | Restore :: rest => saveDepth rest - 1
  | _ :: rest => saveDepth rest
  end.

(** [{ ...config, watermarkPosition }]. *)
Definition withPosition (p : WatermarkPosition) (config : ProcessingConfig)
  : ProcessingConfig :=
  {| keepOriginalSize := keepOriginalSize config;
     aspectRatio := aspectRatio config;
     width := width config;
     height := height config;
     format := format config;
     quality := quality config;
     fillBackground := fillBackground config;
     watermarkEnabled := watermarkEnabled config;
     watermarkImageUrl := watermarkImageUrl config;
     watermarkOpacity := watermarkOpacity config;
     watermarkScale := watermarkScale config;
     watermarkRotation := watermarkRotation config;
     watermarkPosition := p;
     watermarkMode := watermarkMode config;
     watermarkColorMode := watermarkColorMode config;
     customX := customX config;
     customY := customY config |}.

(** Scenario D: a single watermark at the custom place (20, 80), on a canvas
    of 1000 x 500. *)
Definition scenarioD : ProcessingConfig :=
  withCustom 20 80
    (withPosition Custom
       (withTarget false 1000 500 PNG (withWatermark Single defaultConfig))).

(** What the watermark block may call, for a watermark [wmImg] drawn [tw]
    wide and [th] high: the watermark alone, always at that size and centred
    on the origin of the moved context, under the one rotation and the one
    opacity of the configuration. *)
Definition isWatermarkCall (config : ProcessingConfig) (wmImg : Image)
  (tw th : Q) (op : CanvasOp) : Prop :=
  match op with
  | DrawImageScaled i x y w h =>
      i = wmImg /\ x = - (tw / 2) /\ y = - (th / 2) /\ w = tw /\ h = th
  | Rotate d => d = watermarkRotation config
  | SetGlobalAlpha a => a = watermarkOpacity config
  | SetFilter s =>
      watermarkColorMode config = Grayscale /\ s = "grayscale(100%)"%string
  | Save | Restore | Translate _ _ => True
  | _ => False
  end.

(** A block of calls that leaves the state stack as it found it when it
    returns, and one saved state on it when it throws. *)
Definition steady (m : Canvas unit) : Prop :=
  match snd m with
  | Returned _ => saveDepth (fst m) = 0%Z
  | Thrown => saveDepth (fst m) = 1%Z
  | Diverged => True
  end.

(** The calls that open the watermark block, and the calls of one watermark
    drawn at a centre. *)
Definition opening (config : ProcessingConfig) : list CanvasOp :=
  (Save
     :: match watermarkColorMode config with
        | Grayscale => [SetFilter "grayscale(100%)"]
        | Original => []
        end
     ++ [SetGlobalAlpha (watermarkOpacity config)])%list.

Definition stamp (config : ProcessingConfig) (wmImg : Image) (tw th : Q)
  (c : Q * Q) : list CanvasOp :=
  [Save; Translate (fst c) (snd c); Rotate (watermarkRotation config);
   DrawImageScaled wmImg (- (tw / 2)) (- (th / 2)) tw th; Restore].

(** The number of times the test of a loop passes, when the loop ends
    within [fuel] turns. *)
Fixpoint turns (fuel : nat) (v limit step : Q) : option nat :=
  match fuel with
  | O => None
  | S fuel' =>
      if Qltb v limit
      then option_map S (turns fuel' (fl (v + step)) limit step)
      else Some O
  end.

(** A configuration with another scale of the watermark; a watermark of 5
    percent tiled on a canvas of 1024 x 768. *)
Definition withScale (scale : Q) (config : ProcessingConfig)
  : ProcessingConfig :=
  {| keepOriginalSize := keepOriginalSize config;
     aspectRatio := aspectRatio config;
     width := width config;
     height := height config;
     format := format config;
     quality := quality config;
     fillBackground := fillBackground config;
     watermarkEnabled := watermarkEnabled config;
     watermarkImageUrl := watermarkImageUrl config;
     watermarkOpacity := watermarkOpacity config;
     watermarkScale := scale;
     watermarkRotation := watermarkRotation config;
     watermarkPosition := watermarkPosition config;
     watermarkMode := watermarkMode config;
     watermarkColorMode := watermarkColorMode config;
     customX := customX config;
     customY := customY config |}.

Definition scenarioE : ProcessingConfig :=
  withScale 5 (withWatermark Tiled (withTarget false 1024 768 JPG defaultConfig)).

(** The centres of a grid of [nx] columns and [ny] rows, column after
    column, each row shifted by its offset. *)
Definition tiledGrid (stepX stepY : Q) (nx ny : nat) : list (Q * Q) :=
  flat_map (fun i =>
    map (fun j =>
           (fl (loopValue (- stepX) stepX i
                  + rowOffset stepX stepY (loopValue (- stepY) stepY j)),
            loopValue (- stepY) stepY j))
        (seq 0 ny))
    (seq 0 nx).

(** The progress figures a list of effects reports. *)
Definition progressReports (es : list Effect) : list Z :=
  flat_map (fun e => match e with SetProgress p => [p] | _ => [] end) es.

(** The entries of the output archive of a run: for each item whose
    conversion gives a blob, in the order of the queue, the converted name
    and the blob. *)
Definition convertedEntries (fuel : nat) (w : World)
  (config : ProcessingConfig) (fs : list UploadedFile)
  : list (string * Blob) :=
  flat_map (fun f =>
    match snd (processImage fuel w f config) with
    | Returned blob => [(convertedName (originalName f) config, blob)]
    | _ => []
    end) fs.

(** The archive a run writes. *)
Definition outputArchive (fuel : nat) (w : World) (config : ProcessingConfig)
  (fs : list UploadedFile) : Archive :=
  {| folderName :=
       (if keepOriginalSize config then "converted_original_size"
        else "converted_" ++ decimal (width config) ++ "x"
               ++ decimal (height config))%string;
     entries := convertedEntries fuel w config fs |}.

(** A queue of forty images. *)
Definition fortyImages : AppState :=
  {| files := repeat (queued "photo.png") 40;
     isProcessing := false; progress := 0; summary := None |}.

(** A queue of three images, none of which can be decoded. *)
Definition threeBroken : AppState :=
  {| files := [queued "broken.png"; queued "broken.png"; queued "broken.png"];
     isProcessing := false; progress := 0; summary := None |}.

(** The browser of [sampleWorld], in which no archive can be written. *)
Definition noArchiveWorld : World :=
  {| loadImage := loadImage sampleWorld;
     getContext := true;
     loadWatermarkImage := loadWatermarkImage sampleWorld;
     drawFails := fun _ _ => false;
     toBlob := toBlob sampleWorld;
     loadAsync := loadAsync sampleWorld;
     generateAsync := fun _ => None;
     randomId := randomId sampleWorld;
     createObjectURL := createObjectURL sampleWorld;
     now := now sampleWorld |}.

(** The files intake takes from one file of a selection: the images of an
    archive that can be read, the file itself when it is an image, nothing
    otherwise. *)
Definition accepted (w : World) (f : File) : list File :=
  if isZip f then
    match extractImagesFromZip w f with
    | Some images => images
    | None => []
    end
  else if startsWith "image/" (fileType f) then [f]
  else [].

(** The archives of a selection that cannot be read. *)
Definition refused (w : World) (f : File) : bool :=
  isZip f && match extractImagesFromZip w f with
             | Some _ => false
             | None => true
             end.

(** The messages a list of effects shows in alert boxes. *)
Definition alerts (es : list Effect) : list string :=
  flat_map (fun e => match e with Alert msg => [msg] | _ => [] end) es.

(** A drop of four files: a text file, an image, an archive and an archive
    that cannot be read (in [archiveWorld] every archive reads as
    [sampleArchive]; in [sampleWorld] none can be read). *)
Definition textFile : File :=
  {| fileBlob := {| blobBytes := "hello"; blobType := "text/plain" |};
     fileName := "notes.txt" |}.

Definition mixedDrop : list File :=
  [textFile; pngFile "logo.png"; zipUpload].

(** The target size is usable: both sides are at least one pixel, and the
    ratio is one of the list. *)
Definition sizeInvariant (config : ProcessingConfig) : Prop :=
  (1 <= width config)%Z /\ (1 <= height config)%Z /\
  In (aspectRatio config) (map fst aspectRatios).

(** The ratio the size is locked to, if any. *)
Definition lockedRatio (config : ProcessingConfig) : option Q :=
  if String.eqb (aspectRatio config) "custom" then None
  else option_map snd (findRatio (aspectRatio config)).

(** The size agrees with the locked ratio, as far as whole pixels allow: one
    side is the other one scaled by the ratio, to the nearest pixel. *)
Definition ratioKept (config : ProcessingConfig) : Prop :=
  match lockedRatio config with
  | Some r =>
      (width config / r - (1 # 2) < height config /\
       height config <= width config / r + (1 # 2)) \/
      (height config * r - (1 # 2) < width config /\
       width config <= height config * r + (1 # 2))
  | None => True
  end.

(** A session at the size fields. *)
Definition sizeSession : list SizeEvent :=
  [WidthChange 0; RatioChange "16:9"; WidthChange 1920; HeightChange (-5);
   RatioChange "nonsense"; HeightChange 0].

(** What happens over the preview: a pointer event, with the box the
    preview then has, or the release of the mouse button anywhere in the
    window. *)
Inductive PreviewEvent :=
| Pointer (e : PointerEvent) (rect : option DOMRect)
| MouseUp.

Definition previewStep (s : ProcessingConfig * bool) (ev : PreviewEvent)
  : ProcessingConfig * bool :=
  match ev with
  | Pointer e rect => handlePreviewDrag (fst s) (snd s) e rect
  | MouseUp => (fst s, false)
  end.

(** The box of the preview, when there is one, has a size. *)
Definition hasExtent (ev : PreviewEvent) : Prop :=
  match ev with
  | Pointer _ (Some rect) => 0 < rectWidth rect /\ 0 < rectHeight rect
  | _ => True
  end.

(** The custom place is a point of the picture. *)
Definition customInRange (config : ProcessingConfig) : Prop :=
  0 <= customX config /\ customX config <= 100 /\
  0 <= customY config /\ customY config <= 100.

(** A press inside a preview box of 400 x 225 at (10, 20), then a move far
    out of it to the lower right. *)
Definition dragSession : list PreviewEvent :=
  let box := Some {| rectLeft := 10; rectTop := 20;
                     rectWidth := 400; rectHeight := 225 |} in
  [ Pointer {| kind := MouseDown; clientX := 110; clientY := 65 |} box;
    Pointer {| kind := MouseMove; clientX := 210; clientY := 65 |} box;
    Pointer {| kind := MouseMove; clientX := 900; clientY := 700 |} box;
    MouseUp;
    Pointer {| kind := MouseMove; clientX := 0; clientY := 0 |} box ].

(** * Properties *)

(** ** Numbers *)

(** Division by a constant, written as a product, for [lra]. *)
Ltac constants :=
  repeat match goal with
    | |- context [?x / 2] => change (x / 2) with (x * (1 # 2))
    | H : context [?x / 2] |- _ => change (x / 2) with (x * (1 # 2)) in H
    | |- context [?x / 100] => change (x / 100) with (x * (1 # 100))
    | H : context [?x / 100] |- _ => change (x / 100) with (x * (1 # 100)) in H
    end.

Lemma Qltb_true (x y : Q) : Qltb x y = true <-> x < y.
Proof.
  unfold Qltb. rewrite negb_true_iff. split; intro H.
  - apply Qnot_le_lt. intro L. apply Qle_bool_iff in L. congruence.
  - destruct (Qle_bool y x) eqn:E; [|reflexivity].
    apply Qle_bool_iff in E. lra.
Qed.

Lemma Qltb_false (x y : Q) : Qltb x y = false <-> y <= x.
Proof.
  unfold Qltb. rewrite negb_false_iff. apply Qle_bool_iff.
Qed.

(** *** Binary64: rounding is monotone and leaves a binary64 number as it is *)

Ltac compared C :=
  first [apply Qeq_alt in C | apply Qlt_alt in C | apply Qgt_alt in C].

Lemma roundEven_bounds (q : Q) :
  (Qfloor q <= roundEven q <= Qfloor q + 1)%Z.
Proof.
  unfold roundEven.
  destruct (Qcompare (q - inject_Z (Qfloor q)) (1 # 2));
    [destruct (Z.even (Qfloor q))| |]; lia.
Qed.

Lemma roundEven_Z (z : Z) : roundEven (inject_Z z) = z.
Proof.
  unfold roundEven. rewrite Qfloor_Z.
  destruct (Qcompare (inject_Z z - inject_Z z) (1 # 2)) eqn:C;
    [apply Qeq_alt in C | reflexivity | apply Qgt_alt in C]; exfalso; lra.
Qed.

Lemma roundEven_comp (q r : Q) : q == r -> roundEven q = roundEven r.
Proof.
  intro H. unfold roundEven. rewrite (Qfloor_comp _ _ H).
  assert (E : q - inject_Z (Qfloor r) == r - inject_Z (Qfloor r))
    by (rewrite H; reflexivity).
  rewrite (Qcompare_comp _ _ E (1 # 2) (1 # 2) (Qeq_refl _)). reflexivity.
Qed.

Lemma roundEven_le (q r : Q) : q <= r -> (roundEven q <= roundEven r)%Z.
Proof.
  intro H. pose proof (Qfloor_resp_le _ _ H) as F.
  pose proof (roundEven_bounds q) as Bq.
  pose proof (roundEven_bounds r) as Br.
  destruct (Z.eq_dec (Qfloor q) (Qfloor r)) as [E|NE]; [|lia].
  unfold roundEven. rewrite <- E.
  destruct (Qcompare (q - inject_Z (Qfloor q)) (1 # 2)) eqn:Cq;
    destruct (Qcompare (r - inject_Z (Qfloor q)) (1 # 2)) eqn:Cr;
    try (destruct (Z.even (Qfloor q))); try lia;
    compared Cq; compared Cr; exfalso; lra.
Qed.

Lemma two_neq_0 : ~ 2 == 0.
Proof. intro H. discriminate H. Qed.

Lemma pow2_pos (e : Z) : 0 < 2 ^ e.
Proof. apply Qpower_0_lt. reflexivity. Qed.

Lemma pow2_Z (n : Z) : (0 <= n)%Z -> inject_Z (2 ^ n) == 2 ^ n.
Proof. intro H. apply (Zpower_Qpower 2 n H). Qed.

Lemma pow2_succ (e : Z) : 2 ^ (e + 1) == 2 * 2 ^ e.
Proof. rewrite Qpower_plus by exact two_neq_0. simpl (2 ^ 1). ring. Qed.

Lemma pow2_le (a b : Z) : (a <= b)%Z -> 2 ^ a <= 2 ^ b.
Proof. intro H. apply Qpower_le_compat_l; [exact H | discriminate]. Qed.

Lemma pow2_lt_inv (a b : Z) : 2 ^ a < 2 ^ b -> (a < b)%Z.
Proof. intro H. apply (Qpower_lt_compat_l_inv 2); [exact H | reflexivity]. Qed.

Lemma ilog2_spec (q : Q) :
  0 < q -> 2 ^ ilog2 q <= q /\ q < 2 ^ (ilog2 q + 1).
Proof.
  intro Hq. destruct q as [n d].
  assert (Hn : (0 < n)%Z) by (unfold Qlt in Hq; simpl in Hq; lia).
  unfold ilog2. cbn [Qnum Qden].
  set (a := Z.log2 n). set (b := Z.log2 (Zpos d)).
  destruct (Z.log2_spec n Hn) as [A1 A2]. fold a in A1, A2.
  destruct (Z.log2_spec (Zpos d) (Pos2Z.is_pos d)) as [B1 B2]. fold b in B1, B2.
  assert (Ha : (0 <= a)%Z) by apply Z.log2_nonneg.
  assert (Hb : (0 <= b)%Z) by apply Z.log2_nonneg.
  unfold Z.succ in A2, B2.
  assert (QA1 : 2 ^ a <= inject_Z n)
    by (rewrite <- pow2_Z by lia; rewrite <- Zle_Qle; exact A1).
  assert (QA2 : inject_Z n < 2 ^ (a + 1))
    by (rewrite <- pow2_Z by lia; rewrite <- Zlt_Qlt; exact A2).
  assert (QB1 : 2 ^ b <= inject_Z (Zpos d))
    by (rewrite <- pow2_Z by lia; rewrite <- Zle_Qle; exact B1).
  assert (QB2 : inject_Z (Zpos d) < 2 ^ (b + 1))
    by (rewrite <- pow2_Z by lia; rewrite <- Zlt_Qlt; exact B2).
  assert (Dp : 0 < inject_Z (Zpos d)) by reflexivity.
  assert (M : (n # d) * inject_Z (Zpos d) == inject_Z n).
  { rewrite (Qmake_Qdiv n d). field. intro H. rewrite H in Dp. discriminate. }
  pose proof (pow2_pos b) as Pb. pose proof (pow2_pos (b + 1)) as Pb1.
  set (q := n # d) in *. set (D := inject_Z (Zpos d)) in *.
  set (N := inject_Z n) in *.
  assert (Up : q < 2 ^ (a - b + 1)).
  { replace (a - b + 1)%Z with (a + 1 - b)%Z by lia.
    rewrite Qpower_minus by exact two_neq_0.
    apply Qlt_shift_div_l; [exact Pb|].
    apply Qle_lt_trans with (q * D); [|rewrite M; exact QA2].
    apply Qmult_le_l; assumption. }
  assert (Lo : 2 ^ (a - b - 1) <= q).
  { replace (a - b - 1)%Z with (a - (b + 1))%Z by lia.
    rewrite Qpower_minus by exact two_neq_0.
    apply Qle_shift_div_r; [exact Pb1|].
    apply Qle_trans with (q * D); [rewrite M; exact QA1|].
    apply Qmult_le_l; [assumption | apply Qlt_le_weak; exact QB2]. }
  destruct (Qle_bool (2 ^ (a - b)) q) eqn:T.
  - apply Qle_bool_iff in T. split; assumption.
  - split; [exact Lo|].
    replace (a - b - 1 + 1)%Z with (a - b)%Z by lia.
    apply Qnot_le_lt. intro H. apply Qle_bool_iff in H. congruence.
Qed.

Lemma ilog2_le (x y : Q) : 0 < x -> x <= y -> (ilog2 x <= ilog2 y)%Z.
Proof.
  intros Hx H.
  destruct (ilog2_spec x Hx) as [X1 _].
  destruct (ilog2_spec y) as [_ Y2]; [lra|].
  assert (L : 2 ^ ilog2 x < 2 ^ (ilog2 y + 1)) by lra.
  apply pow2_lt_inv in L. lia.
Qed.

Lemma ilog2_lt_pow2 (x : Q) (k : Z) : 0 < x -> x < 2 ^ k -> (ilog2 x < k)%Z.
Proof.
  intros Hx H. destruct (ilog2_spec x Hx) as [X1 _].
  apply pow2_lt_inv. lra.
Qed.

Lemma ilog2_pow2 (k : Z) : ilog2 (2 ^ k) = k.
Proof.
  destruct (ilog2_spec (2 ^ k) (pow2_pos k)) as [A B].
  assert (L1 : (ilog2 (2 ^ k) <= k)%Z).
  { apply (Qpower_le_compat_l_inv 2); [exact A | reflexivity]. }
  apply pow2_lt_inv in B. lia.
Qed.

Lemma ilog2_unique (p : Q) (k : Z) :
  0 < p -> 2 ^ k <= p -> p < 2 ^ (k + 1) -> ilog2 p = k.
Proof.
  intros Hp L U. destruct (ilog2_spec p Hp) as [A B].
  assert (L1 : 2 ^ k < 2 ^ (ilog2 p + 1)) by lra.
  assert (L2 : 2 ^ ilog2 p < 2 ^ (k + 1)) by lra.
  apply pow2_lt_inv in L1, L2. lia.
Qed.

Lemma pow2_neq_0 (e : Z) : ~ 2 ^ e == 0.
Proof. pose proof (pow2_pos e). lra. Qed.

Lemma quot_lt_53 (q : Q) : 0 < q -> q / 2 ^ expOf q < 2 ^ 53.
Proof.
  intro Hq. apply Qlt_shift_div_r; [apply pow2_pos|].
  rewrite <- Qpower_plus by exact two_neq_0.
  destruct (ilog2_spec q Hq) as [_ U].
  apply Qlt_le_trans with (1 := U). apply pow2_le. unfold expOf. lia.
Qed.

Lemma mantissa_le (q : Q) :
  0 < q -> (roundEven (q / 2 ^ expOf q) <= 2 ^ 53)%Z.
Proof.
  intro Hq. rewrite <- (roundEven_Z (2 ^ 53)). apply roundEven_le.
  rewrite pow2_Z by lia. apply Qlt_le_weak, quot_lt_53, Hq.
Qed.

Lemma mantissa_ge (q : Q) :
  0 < q -> expOf q = (ilog2 q - 52)%Z ->
  (2 ^ 52 <= roundEven (q / 2 ^ expOf q))%Z.
Proof.
  intros Hq E. rewrite <- (roundEven_Z (2 ^ 52)) at 1. apply roundEven_le.
  rewrite pow2_Z by lia. apply Qle_shift_div_l; [apply pow2_pos|].
  rewrite <- Qpower_plus by exact two_neq_0. rewrite E.
  replace (52 + (ilog2 q - 52))%Z with (ilog2 q) by lia.
  apply ilog2_spec, Hq.
Qed.

Lemma mantissa_nonneg (q : Q) : 0 <= q -> (0 <= roundEven (q / 2 ^ expOf q))%Z.
Proof.
  intro Hq. rewrite <- (roundEven_Z 0) at 1. apply roundEven_le.
  apply Qle_shift_div_l; [apply pow2_pos|].
  change (inject_Z 0) with 0. rewrite Qmult_0_l. exact Hq.
Qed.

Lemma nearest_nonneg (q : Q) : 0 <= q -> 0 <= nearest q.
Proof.
  intro Hq. unfold nearest. apply Qmult_le_0_compat.
  - change 0 with (inject_Z 0). rewrite <- Zle_Qle. apply mantissa_nonneg, Hq.
  - apply Qlt_le_weak, pow2_pos.
Qed.

Lemma nearest_0 (q : Q) : q == 0 -> nearest q == 0.
Proof.
  intro Hq. unfold nearest.
  assert (E : q / 2 ^ expOf q == inject_Z 0).
  { pose proof (pow2_neq_0 (expOf q)).
    set (P := 2 ^ expOf q) in *. clearbody P. rewrite Hq. field. assumption. }
  rewrite (roundEven_comp _ _ E), roundEven_Z. ring.
Qed.

Lemma nearest_le (x y : Q) : 0 <= x -> x <= y -> nearest x <= nearest y.
Proof.
  intros Hx H.
  destruct (Qeq_dec x 0) as [Z0|NZ].
  { rewrite (nearest_0 x Z0). apply nearest_nonneg. lra. }
  assert (Px : 0 < x) by (apply Qle_lteq in Hx; destruct Hx as [?|E]; [assumption|]; symmetry in E; contradiction).
  assert (Py : 0 < y) by lra.
  pose proof (ilog2_le x y Px H) as Le.
  assert (Ee : (expOf x <= expOf y)%Z) by (unfold expOf; lia).
  unfold nearest.
  pose proof (pow2_pos (expOf x)) as Ppx. pose proof (pow2_pos (expOf y)) as Ppy.
  destruct (Z.eq_dec (expOf x) (expOf y)) as [E|NE].
  - rewrite <- E. apply Qmult_le_r; [exact Ppx|]. rewrite <- Zle_Qle.
    apply roundEven_le. apply Qmult_le_r; [apply Qinv_lt_0_compat; exact Ppx|].
    exact H.
  - assert (Ny : expOf y = (ilog2 y - 52)%Z) by (unfold expOf in *; lia).
    apply Qle_trans with (inject_Z (2 ^ 53) * 2 ^ expOf x).
    { apply Qmult_le_r; [exact Ppx|]. rewrite <- Zle_Qle.
      apply mantissa_le, Px. }
    apply Qle_trans with (inject_Z (2 ^ 52) * 2 ^ expOf y).
    { rewrite !pow2_Z by lia. rewrite <- !Qpower_plus by exact two_neq_0.
      apply pow2_le. lia. }
    apply Qmult_le_r; [exact Ppy|]. rewrite <- Zle_Qle.
    apply mantissa_ge; assumption.
Qed.

Lemma nearest_exact (p : Q) (m e : Z) :
  (0 < m < 2 ^ 53)%Z -> (-1074 <= e)%Z -> p == inject_Z m * 2 ^ e ->
  nearest p == p.
Proof.
  intros Hm He E.
  assert (Hp : 0 < p).
  { rewrite E. apply Qmult_lt_0_compat; [|apply pow2_pos].
    change 0 with (inject_Z 0). rewrite <- Zlt_Qlt. lia. }
  assert (U : p < 2 ^ (53 + e)).
  { rewrite E, Qpower_plus by exact two_neq_0.
    apply Qmult_lt_r; [apply pow2_pos|].
    rewrite <- pow2_Z by lia. rewrite <- Zlt_Qlt. lia. }
  pose proof (ilog2_lt_pow2 p _ Hp U) as L.
  assert (Le : (expOf p <= e)%Z) by (unfold expOf; lia).
  assert (Qt : p / 2 ^ expOf p == inject_Z (m * 2 ^ (e - expOf p))).
  { rewrite inject_Z_mult, pow2_Z by lia.
    rewrite Qpower_minus by exact two_neq_0.
    pose proof (pow2_neq_0 (expOf p)) as NZ. revert NZ E.
    generalize (2 ^ expOf p) (2 ^ e). intros P R NZ E.
    rewrite E. field. assumption. }
  unfold nearest. rewrite (roundEven_comp _ _ Qt), roundEven_Z, <- Qt.
  pose proof (pow2_neq_0 (expOf p)).
  set (P := 2 ^ expOf p) in *. clearbody P. field. assumption.
Qed.

Lemma nearest_fixed (q : Q) : 0 <= q -> nearest (nearest q) == nearest q.
Proof.
  intro Hq.
  pose proof (mantissa_nonneg q Hq) as M0.
  set (m := roundEven (q / 2 ^ expOf q)) in *.
  assert (E : nearest q == inject_Z m * 2 ^ expOf q) by reflexivity.
  destruct (Z.eq_dec m 0) as [Zm|NZ].
  { assert (Z0 : nearest q == 0) by (rewrite E, Zm; ring).
    rewrite (nearest_0 _ Z0). symmetry. exact Z0. }
  assert (Pq : 0 < q).
  { apply Qle_lteq in Hq. destruct Hq as [?|Eq]; [assumption|].
    exfalso. apply NZ. unfold m.
    assert (E0 : q / 2 ^ expOf q == inject_Z 0).
    { pose proof (pow2_neq_0 (expOf q)).
      set (P := 2 ^ expOf q) in *. clearbody P. rewrite <- Eq. field.
      assumption. }
    rewrite (roundEven_comp _ _ E0). apply roundEven_Z. }
  pose proof (mantissa_le q Pq) as M1. fold m in M1.
  assert (He : (-1074 <= expOf q)%Z) by (unfold expOf; lia).
  destruct (Z.eq_dec m (2 ^ 53)) as [Top|NT].
  - apply (nearest_exact _ (2 ^ 52) (expOf q + 1)); [lia | lia |].
    rewrite E, Top, pow2_succ.
    change (inject_Z (2 ^ 53)) with (2 * inject_Z (2 ^ 52)). ring.
  - apply (nearest_exact _ m (expOf q)); [lia | lia | exact E].
Qed.

Lemma expOf_comp (p q : Q) : 0 < p -> p == q -> expOf p = expOf q.
Proof.
  intros Hp E. unfold expOf. f_equal. f_equal.
  destruct (ilog2_spec p Hp) as [A B].
  symmetry. apply ilog2_unique; rewrite <- E; assumption.
Qed.

Lemma nearest_comp (p q : Q) : 0 <= p -> p == q -> nearest p == nearest q.
Proof.
  intros Hp E. destruct (Qeq_dec p 0) as [Z0|NZ].
  - rewrite (nearest_0 p Z0), (nearest_0 q); [reflexivity|].
    rewrite <- E. exact Z0.
  - assert (Pp : 0 < p).
    { apply Qle_lteq in Hp. destruct Hp as [?|Eq]; [assumption|].
      symmetry in Eq. contradiction. }
    unfold nearest. rewrite <- (expOf_comp p q Pp E).
    assert (Qt : p / 2 ^ expOf p == q / 2 ^ expOf p).
    { generalize (2 ^ expOf p). intro P. rewrite E. reflexivity. }
    rewrite (roundEven_comp _ _ Qt). reflexivity.
Qed.

Lemma fl_of_nonneg (x : Q) : 0 <= x -> fl x == nearest x.
Proof.
  intro H. unfold fl. rewrite Qred_correct.
  apply Qle_bool_iff in H. rewrite H. reflexivity.
Qed.

Lemma fl_of_neg (x : Q) : x < 0 -> fl x == - nearest (- x).
Proof.
  intro H. unfold fl. rewrite Qred_correct.
  destruct (Qle_bool 0 x) eqn:T; [|reflexivity].
  apply Qle_bool_iff in T. lra.
Qed.

Lemma fl_comp (x y : Q) : x == y -> fl x = fl y.
Proof.
  intro E. unfold fl. apply Qred_complete.
  destruct (Qlt_le_dec x 0) as [N|P].
  - assert (Ny : y < 0) by (rewrite <- E; exact N).
    destruct (Qle_bool 0 x) eqn:Tx; [apply Qle_bool_iff in Tx; lra|].
    destruct (Qle_bool 0 y) eqn:Ty; [apply Qle_bool_iff in Ty; lra|].
    apply Qopp_comp. apply nearest_comp; [lra|]. rewrite E. reflexivity.
  - assert (Py : 0 <= y) by (rewrite <- E; exact P).
    apply Qle_bool_iff in P, Py. rewrite P, Py.
    apply Qle_bool_iff in P. apply nearest_comp; assumption.
Qed.

#[local] Instance fl_Proper : Proper (Qeq ==> Qeq) fl.
Proof. intros x y E. rewrite (fl_comp x y E). reflexivity. Qed.

Lemma fl_nonneg (x : Q) : 0 <= x -> 0 <= fl x.
Proof. intro H. rewrite (fl_of_nonneg x H). apply nearest_nonneg, H. Qed.

Lemma fl_opp (x : Q) : fl (- x) == - fl x.
Proof.
  destruct (Qlt_le_dec x 0) as [N|P].
  - rewrite (fl_of_neg x N), (fl_of_nonneg (- x)) by lra. ring.
  - destruct (Qeq_dec x 0) as [Z0|NZ].
    + rewrite (fl_comp (- x) x) by lra.
      rewrite (fl_of_nonneg x P), (nearest_0 x Z0). reflexivity.
    + rewrite (fl_of_nonneg x P), (fl_of_neg (- x)) by lra.
      apply Qopp_comp. apply nearest_comp; lra.
Qed.

Lemma fl_le (x y : Q) : x <= y -> fl x <= fl y.
Proof.
  intro H. destruct (Qlt_le_dec x 0) as [Nx|Px].
  - destruct (Qlt_le_dec y 0) as [Ny|Py].
    + rewrite (fl_of_neg x Nx), (fl_of_neg y Ny).
      apply Qopp_le_compat. apply nearest_le; lra.
    + rewrite (fl_of_neg x Nx).
      pose proof (fl_nonneg y Py). pose proof (nearest_nonneg (- x)).
      lra.
  - rewrite (fl_of_nonneg x Px), (fl_of_nonneg y) by lra.
    apply nearest_le; assumption.
Qed.

Lemma fl_eq (x y : Q) : fl x == fl y -> fl x = fl y.
Proof.
  unfold fl. intro H. apply Qred_complete.
  rewrite !Qred_correct in H. exact H.
Qed.

Lemma fl_idem (x : Q) : fl (fl x) = fl x.
Proof.
  assert (Pos : forall q, 0 <= q -> fl (fl q) == fl q).
  { intros q Hq. pose proof (fl_nonneg q Hq) as H.
    rewrite (fl_of_nonneg (fl q) H).
    rewrite (nearest_comp (fl q) (nearest q) H (fl_of_nonneg q Hq)).
    rewrite (fl_of_nonneg q Hq). apply nearest_fixed, Hq. }
  assert (E : fl (fl x) == fl x).
  { destruct (Qlt_le_dec x 0) as [N|P]; [|apply Pos, P].
    assert (Ex : x == - - x) by ring.
    rewrite Ex, (fl_opp (- x)), (fl_opp (fl (- x))).
    apply Qopp_comp. apply Pos. lra. }
  apply fl_eq. exact E.
Qed.

Lemma fl_Z (z : Z) : (Z.abs z <= 2 ^ 53)%Z -> fl (inject_Z z) = Qred (inject_Z z).
Proof.
  intro H.
  assert (Pos : forall m, (0 < m <= 2 ^ 53)%Z -> fl (inject_Z m) == inject_Z m).
  { intros m Hm. rewrite fl_of_nonneg
      by (change 0 with (inject_Z 0); rewrite <- Zle_Qle; lia).
    destruct (Z.eq_dec m (2 ^ 53)) as [->|NT].
    - apply (nearest_exact _ (2 ^ 52) 1); [lia | lia | reflexivity].
    - apply (nearest_exact _ m 0); [lia | lia |]. simpl (2 ^ 0). ring. }
  assert (E : fl (inject_Z z) == inject_Z z).
  { destruct (Z.lt_trichotomy z 0) as [N|[->|P]].
    - assert (Ez : inject_Z z == - inject_Z (- z))
        by (rewrite inject_Z_opp; ring).
      rewrite (fl_comp _ _ Ez), fl_opp, Pos by lia.
      symmetry. exact Ez.
    - reflexivity.
    - apply Pos. lia. }
  rewrite <- (Qred_complete _ _ E). unfold fl. symmetry.
  apply Qred_complete, Qred_correct.
Qed.

(** *** Binary64: [fl] and the arithmetic of the Standard Library *)

(** On the computations of the two places where the model rounds, [fl]
    gives the numbers of the IEEE 754 operations of [SpecFloat]: the
    quotients [k / n] and the products by 100 of the progress, for every
    queue of up to 40 items; and the steps, the counters of the rows and of
    the columns and the quotients under [Math.floor] of the tiled mode, for a
    watermark of 5 percent and 100 x 50 on a canvas of 1024 x 768, and for
    one of 20 percent and 7 x 3 on a canvas of 800 x 600. *)
Example fl_as_SpecFloat :
  forallb (fun p =>
    IEEE.agree (IEEE.div (IEEE.ofZ (fst p)) (IEEE.ofZ (snd p)))
      (fl (inject_Z (fst p) / inject_Z (snd p)))
    && IEEE.agree
         (IEEE.mul (IEEE.div (IEEE.ofZ (fst p)) (IEEE.ofZ (snd p)))
            (IEEE.ofZ 100))
         (fl (fl (inject_Z (fst p) / inject_Z (snd p)) * 100)))
    (IEEE.shares 40) = true /\
  forallb (fun p =>
    let '(cw, scale, iw, ih) := p in
    let config := withScale (inject_Z scale) defaultConfig in
    let wmImg := {| imgWidth := iw; imgHeight := ih |} in
    let sx := IEEE.stepX cw scale in
    let sy := IEEE.stepY cw scale iw ih in
    IEEE.agree sx (stepX (inject_Z cw) config)
    && IEEE.agree sy (stepY (inject_Z cw) config wmImg)
    && IEEE.agreeAll (IEEE.counter 30 (SFopp sx) sx)
         (map (loopValue (- stepX (inject_Z cw) config)
                 (stepX (inject_Z cw) config)) (seq 0 30))
    && IEEE.agreeAll (IEEE.counter 30 (SFopp sy) sy)
         (map (loopValue (- stepY (inject_Z cw) config wmImg)
                 (stepY (inject_Z cw) config wmImg)) (seq 0 30))
    && IEEE.agreeAll
         (map (fun y => IEEE.div (IEEE.add y sy) sy)
            (IEEE.counter 30 (SFopp sy) sy))
         (map (fun j =>
                 let y := loopValue (- stepY (inject_Z cw) config wmImg)
                            (stepY (inject_Z cw) config wmImg) j in
                 fl (fl (y + stepY (inject_Z cw) config wmImg)
                     / stepY (inject_Z cw) config wmImg))
            (seq 0 30)))
    [(1024, 5, 100, 50); (800, 20, 7, 3); (800, 20, 100, 50)]%Z = true.
Proof. split; vm_compute; reflexivity. Qed.

(** *** Binary64: the error of a rounding *)

Lemma roundEven_near (t : Q) : t - (1 # 2) <= inject_Z (roundEven t).
Proof.
  unfold roundEven.
  pose proof (Qlt_floor t) as U. rewrite inject_Z_plus in U.
  change (inject_Z 1) with 1 in U.
  pose proof (Qfloor_le t) as L.
  destruct (Qcompare (t - inject_Z (Qfloor t)) (1 # 2)) eqn:C;
    [destruct (Z.even (Qfloor t))| |]; compared C;
    rewrite ?inject_Z_plus; change (inject_Z 1) with 1; lra.
Qed.

Lemma nearest_below (x : Q) : x - 2 ^ expOf x * (1 # 2) <= nearest x.
Proof.
  unfold nearest. pose proof (pow2_pos (expOf x)) as P.
  pose proof (roundEven_near (x / 2 ^ expOf x)) as N.
  set (m := inject_Z (roundEven (x / 2 ^ expOf x))) in *.
  assert (E : x == x / 2 ^ expOf x * 2 ^ expOf x).
  { revert P. generalize (2 ^ expOf x). intros p P. field. lra. }
  set (t := x / 2 ^ expOf x) in *. set (p := 2 ^ expOf x) in *.
  clearbody m t p. rewrite E.
  assert (M : (t - (1 # 2)) * p <= m * p) by (apply Qmult_le_r; assumption).
  lra.
Qed.

(** A positive binary64 number is not below the smallest of them. *)
Lemma binary64_pos_ge (s : Q) : 0 < s -> fl s == s -> 2 ^ (-1074) <= s.
Proof.
  intros Hs F. rewrite fl_of_nonneg in F by lra.
  unfold nearest in F.
  pose proof (mantissa_nonneg s (Qlt_le_weak _ _ Hs)) as M.
  set (m := roundEven (s / 2 ^ expOf s)) in *.
  assert (M1 : (1 <= m)%Z).
  { destruct (Z.eq_dec m 0) as [Z0|]; [|lia].
    rewrite Z0 in F. exfalso. rewrite <- F in Hs.
    change (inject_Z 0) with 0 in Hs. rewrite Qmult_0_l in Hs.
    apply (Qlt_irrefl 0 Hs). }
  rewrite <- F.
  apply Qle_trans with (1 * 2 ^ expOf s).
  - rewrite Qmult_1_l. apply pow2_le. unfold expOf. lia.
  - apply Qmult_le_r; [apply pow2_pos|].
    change 1 with (inject_Z 1). rewrite <- Zle_Qle. exact M1.
Qed.

(** Adding a binary64 step to a number that is not too many steps away from
    zero moves it up by half the step at least. *)
Lemma fl_add_grows (v s : Q) :
  0 < s -> fl s == s -> 0 <= v -> v + s <= 2 ^ 52 * s ->
  v + s * (1 # 2) <= fl (v + s).
Proof.
  intros Hs F Hv B.
  assert (Px : 0 < v + s) by lra.
  rewrite (fl_of_nonneg (v + s)) by lra.
  pose proof (nearest_below (v + s)) as N.
  assert (E : 2 ^ expOf (v + s) <= s).
  { unfold expOf.
    destruct (Z.max_spec (ilog2 (v + s) - 52) (-1074)) as [[_ ->]|[_ ->]].
    - apply binary64_pos_ge; assumption.
    - rewrite Qpower_minus by exact two_neq_0.
      apply Qle_shift_div_r; [apply pow2_pos|].
      destruct (ilog2_spec (v + s) Px) as [L _].
      rewrite Qmult_comm. lra. }
  lra.
Qed.

(** ** Drawing computations *)

Lemma bind_trace {A B} (m : Canvas A) (k : A -> Canvas B) (a : A) :
  snd m = Returned a -> fst (bind m k) = (fst m ++ fst (k a))%list.
Proof.
  destruct m as [t o]; simpl; intros ->. destruct (k a); reflexivity.
Qed.

Lemma bind_outcome {A B} (m : Canvas A) (k : A -> Canvas B) (a : A) :
  snd m = Returned a -> snd (bind m k) = snd (k a).
Proof.
  destruct m as [t o]; simpl; intros ->. destruct (k a); reflexivity.
Qed.

Lemma bind_Forall {A B} (P : CanvasOp -> Prop) (m : Canvas A)
  (k : A -> Canvas B) :
  Forall P (fst m) -> (forall a, Forall P (fst (k a))) ->
  Forall P (fst (bind m k)).
Proof.
  destruct m as [t [a| |]]; simpl; intros Hm Hk; auto.
  specialize (Hk a). destruct (k a); simpl in *.
  apply Forall_app; split; assumption.
Qed.

Lemma call_Forall (P : CanvasOp -> Prop) (op : CanvasOp) :
  P op -> Forall P (fst (call op)).
Proof. intro H; simpl; constructor; [assumption | constructor]. Qed.

Lemma when_Forall (P : CanvasOp -> Prop) (b : bool) (m : Canvas unit) :
  Forall P (fst m) -> Forall P (fst (when b m)).
Proof. destruct b; simpl; auto. Qed.

Lemma tryCatch_trace (m : Canvas unit) : fst (tryCatch m) = fst m.
Proof. destruct m as [t [a| |]]; reflexivity. Qed.

Lemma tryCatch_not_thrown (m : Canvas unit) : snd (tryCatch m) <> Thrown.
Proof. destruct m as [t [a| |]]; simpl; discriminate. Qed.

Lemma tryCatch_thrown (m : Canvas unit) :
  snd m = Thrown -> snd (tryCatch m) = Returned tt.
Proof. destruct m as [t [a| |]]; simpl; congruence. Qed.

Lemma forLoop_Forall (P : CanvasOp -> Prop) (I : Q -> Prop)
  (limit step : Q) (body : Q -> Canvas unit) :
  (forall x, I x -> I (fl (x + step))) ->
  (forall x, I x -> x < limit -> Forall P (fst (body x))) ->
  forall fuel v, I v -> Forall P (fst (forLoop fuel v limit step body)).
Proof.
  intros Hstep Hbody. induction fuel as [|fuel IH]; intros v Hv; simpl.
  - constructor.
  - destruct (Qltb v limit) eqn:E; [|constructor].
    apply Qltb_true in E. apply bind_Forall; auto.
Qed.

Lemma forEach_Forall (P : CanvasOp -> Prop) (body : Q -> Q -> Canvas unit)
  (ps : list (Q * Q)) :
  (forall x y, In (x, y) ps -> Forall P (fst (body x y))) ->
  Forall P (fst (forEach ps body)).
Proof.
  induction ps as [|[x y] ps IH]; intros H; simpl.
  - constructor.
  - apply bind_Forall.
    + apply H. left; reflexivity.
    + intros _. apply IH. intros x' y' Hin. apply H. right; assumption.
Qed.

(** ** The compositor, step by step *)

Lemma drawBase_returns (img : Image) (config : ProcessingConfig) :
  snd (drawBase img config) = Returned tt.
Proof.
  unfold drawBase.
  destruct (keepOriginalSize config), (shouldFillBackground config);
    reflexivity.
Qed.

Lemma drawBase_resized (img : Image) (config : ProcessingConfig) :
  keepOriginalSize config = false ->
  fst (drawBase img config) =
    ([SetCanvasSize (width config) (height config); SetImageSmoothing "high"]
     ++ whiteFill config (width config) (height config)
     ++ [DrawImageScaled img (offsetX (baseRect img config))
           (offsetY (baseRect img config)) (drawWidth (baseRect img config))
           (drawHeight (baseRect img config))])%list.
Proof.
  intros K. unfold drawBase, whiteFill. rewrite K.
  destruct (shouldFillBackground config); reflexivity.
Qed.

Lemma drawBase_original (img : Image) (config : ProcessingConfig) :
  keepOriginalSize config = true ->
  fst (drawBase img config) =
    ([SetCanvasSize (imgWidth img) (imgHeight img)]
     ++ whiteFill config (imgWidth img) (imgHeight img)
     ++ [DrawImage img 0 0])%list.
Proof.
  intros K. unfold drawBase, whiteFill. rewrite K.
  destruct (shouldFillBackground config); reflexivity.
Qed.

Lemma compose_trace (fuel : nat) (w : World) (img : Image)
  (config : ProcessingConfig) :
  fst (compose fuel w img config) =
    (fst (drawBase img config) ++ fst (overlay fuel w img config))%list.
Proof.
  unfold compose. rewrite (bind_trace _ _ tt); [reflexivity|].
  apply drawBase_returns.
Qed.

Lemma compose_outcome (fuel : nat) (w : World) (img : Image)
  (config : ProcessingConfig) :
  snd (compose fuel w img config) = snd (overlay fuel w img config).
Proof.
  unfold compose. rewrite (bind_outcome _ _ tt); [reflexivity|].
  apply drawBase_returns.
Qed.

Lemma processImage_trace (fuel : nat) (w : World) (f : UploadedFile)
  (config : ProcessingConfig) (img : Image) :
  loadImage w (file f) = Some img -> getContext w = true ->
  fst (processImage fuel w f config) = fst (compose fuel w img config).
Proof.
  intros D C. unfold processImage. rewrite D, C. simpl.
  destruct (compose fuel w img config) as [t [[]| |]]; simpl; auto.
  destruct (toBlob w t (format config) (quality config)); reflexivity.
Qed.

Lemma processImage_outcome (fuel : nat) (w : World) (f : UploadedFile)
  (config : ProcessingConfig) (img : Image) :
  loadImage w (file f) = Some img -> getContext w = true ->
  snd (processImage fuel w f config) =
    match snd (compose fuel w img config) with
    | Returned _ =>
        match toBlob w (fst (compose fuel w img config))
                (format config) (quality config) with
        | Some blob => Returned blob
        | None => Thrown
        end
    | Thrown => Thrown
    | Diverged => Diverged
    end.
Proof.
  intros D C. unfold processImage. rewrite D, C. simpl.
  destruct (compose fuel w img config) as [t [[]| |]]; simpl; auto.
  destruct (toBlob w t (format config) (quality config)); reflexivity.
Qed.

(** ** The base draw *)

Lemma inject_Z_pos (z : Z) : (0 < z)%Z -> 0 < inject_Z z.
Proof. intro H. change 0 with (inject_Z 0). rewrite <- Zlt_Qlt. exact H. Qed.

Section BaseRect.
Variables (img : Image) (config : ProcessingConfig).
Hypothesis iw_pos : (0 < imgWidth img)%Z.
Hypothesis ih_pos : (0 < imgHeight img)%Z.
Hypothesis cw_pos : (0 < width config)%Z.
Hypothesis ch_pos : (0 < height config)%Z.

Let iw : Q := imgWidth img.
Let ih : Q := imgHeight img.
Let cw : Q := width config.
Let ch : Q := height config.

Local Lemma dims_pos : 0 < iw /\ 0 < ih /\ 0 < cw /\ 0 < ch.
Proof. unfold iw, ih, cw, ch. auto using inject_Z_pos. Qed.

(** Comparing the two ratios is comparing the cross products. *)
Lemma ratio_lt_cross : cw / ch < iw / ih <-> cw * ih < iw * ch.
Proof.
  destruct dims_pos as (Hiw & Hih & Hcw & Hch).
  split; intro H.
  - apply (Qmult_lt_r _ _ (ch * ih)) in H; [|nra].
    assert (E1 : cw / ch * (ch * ih) == cw * ih) by (field; lra).
    assert (E2 : iw / ih * (ch * ih) == iw * ch) by (field; lra).
    lra.
  - apply (Qmult_lt_r _ _ (ch * ih)); [nra|].
    assert (E1 : cw / ch * (ch * ih) == cw * ih) by (field; lra).
    assert (E2 : iw / ih * (ch * ih) == iw * ch) by (field; lra).
    lra.
Qed.

(** The wide case: the width is fitted, the height is what the ratio
    leaves. *)
Lemma baseRect_wide :
  cw / ch < iw / ih ->
  drawWidth (baseRect img config) == cw /\
  drawHeight (baseRect img config) == ih * cw / iw /\
  offsetX (baseRect img config) == 0 /\
  offsetY (baseRect img config) == (ch - ih * cw / iw) / 2.
Proof.
  intro H. apply Qltb_true in H. unfold baseRect. fold iw ih cw ch.
  rewrite H. simpl. destruct dims_pos as (Hiw & Hih & Hcw & Hch).
  repeat split; try reflexivity; field; lra.
Qed.

(** The other case: the height is fitted. *)
Lemma baseRect_tall :
  iw / ih <= cw / ch ->
  drawHeight (baseRect img config) == ch /\
  drawWidth (baseRect img config) == iw * ch / ih /\
  offsetY (baseRect img config) == 0 /\
  offsetX (baseRect img config) == (cw - iw * ch / ih) / 2.
Proof.
  intro H. apply Qltb_false in H. unfold baseRect. fold iw ih cw ch.
  rewrite H. simpl. destruct dims_pos as (Hiw & Hih & Hcw & Hch).
  repeat split; try reflexivity; field; lra.
Qed.

Lemma baseRect_fits :
  drawWidth (baseRect img config) * ih
    == drawHeight (baseRect img config) * iw /\
  insideCanvas (baseRect img config) cw ch /\
  offsetX (baseRect img config) == (cw - drawWidth (baseRect img config)) / 2 /\
  offsetY (baseRect img config) == (ch - drawHeight (baseRect img config)) / 2 /\
  (cw / ch < iw / ih ->
   drawWidth (baseRect img config) == cw /\
   offsetX (baseRect img config) == 0) /\
  (iw / ih <= cw / ch ->
   drawHeight (baseRect img config) == ch /\
   offsetY (baseRect img config) == 0).
Proof.
  destruct dims_pos as (Hiw & Hih & Hcw & Hch).
  unfold insideCanvas.
  destruct (Qlt_le_dec (cw / ch) (iw / ih)) as [W|T].
  - pose proof (baseRect_wide W) as (Ew & Eh & Ex & Ey).
    pose proof W as W'. apply ratio_lt_cross in W'.
    assert (Hd : ih * cw / iw * iw == ih * cw) by (field; lra).
    assert (Hle : ih * cw / iw <= ch).
    { apply (Qmult_le_r _ _ iw); [lra|]. rewrite Hd. lra. }
    rewrite Ew, Eh, Ex, Ey.
    set (X := ih * cw / iw) in *. clearbody X. constants.
    split; [rewrite Hd; ring|]. clear Hd W'.
    assert (N : ~ iw / ih <= cw / ch).
    { intro C. apply Qle_not_lt in C. apply C. exact W. }
    clear W.
    split; [split; [|split; [|split]]; lra|].
    split; [lra|]. split; [lra|]. split.
    + intros _. split; reflexivity.
    + intro C. contradiction.
  - pose proof (baseRect_tall T) as (Eh & Ew & Ey & Ex).
    assert (T' : iw * ch <= cw * ih).
    { apply Qnot_lt_le. intro C. apply ratio_lt_cross in C.
      apply Qle_not_lt in T. apply T. exact C. }
    assert (Hd : iw * ch / ih * ih == iw * ch) by (field; lra).
    assert (Hle : iw * ch / ih <= cw).
    { apply (Qmult_le_r _ _ ih); [lra|]. rewrite Hd. lra. }
    rewrite Ew, Eh, Ex, Ey.
    set (X := iw * ch / ih) in *. clearbody X. constants.
    split; [rewrite Hd; ring|]. clear Hd T'.
    assert (N : ~ cw / ch < iw / ih).
    { intro C. apply Qle_not_lt in T. apply T. exact C. }
    clear T.
    split; [split; [|split; [|split]]; lra|].
    split; [lra|]. split; [lra|]. split.
    + intro C. contradiction.
    + intros _. split; reflexivity.
Qed.
End BaseRect.

(** ** The watermark block draws nothing but the watermark *)

Lemma drawWM_Forall (P : CanvasOp -> Prop) (w : World)
  (config : ProcessingConfig) (wmImg : Image) (tw th cx cy : Q) :
  P Save -> P Restore -> P (Translate cx cy) ->
  P (Rotate (watermarkRotation config)) ->
  P (DrawImageScaled wmImg (- (tw / 2)) (- (th / 2)) tw th) ->
  Forall P (fst (drawWM w config wmImg tw th cx cy)).
Proof.
  intros HS HR HT HRo HD. unfold drawWM.
  destruct (drawFails w cx cy); simpl; repeat constructor; assumption.
Qed.

Lemma drawWM_overlay (w : World) (config : ProcessingConfig) (wmImg : Image)
  (tw th cx cy : Q) :
  Forall isOverlayOp (fst (drawWM w config wmImg tw th cx cy)).
Proof. apply drawWM_Forall; exact I. Qed.

Lemma drawTiled_Forall (P : CanvasOp -> Prop) (fuel : nat) (cw ch tw th : Q)
  (body : Q -> Q -> Canvas unit) :
  (forall x y, Forall P (fst (body x y))) ->
  Forall P (fst (drawTiled fuel cw ch tw th body)).
Proof.
  intro H. unfold drawTiled.
  apply (forLoop_Forall P (fun _ => True)); auto.
  intros x _ _.
  apply (forLoop_Forall P (fun _ => True)); auto.
Qed.

Lemma drawWatermark_overlay (fuel : nat) (w : World)
  (config : ProcessingConfig) (cw ch : Q) (url : string) :
  Forall isOverlayOp (fst (drawWatermark fuel w config cw ch url)).
Proof.
  unfold drawWatermark. destruct (loadWatermarkImage w url) as [wmImg|].
  2: constructor.
  apply bind_Forall; [apply call_Forall; exact I|]. intros _.
  apply bind_Forall.
  { apply when_Forall, call_Forall. exact I. }
  intros _. apply bind_Forall; [apply call_Forall; exact I|]. intros _.
  apply bind_Forall; [|intros _; apply call_Forall; exact I].
  destruct (watermarkMode config);
    try (apply forEach_Forall; intros; apply drawWM_overlay).
  apply drawTiled_Forall. intros. apply drawWM_overlay.
Qed.

Lemma overlay_ops (fuel : nat) (w : World) (img : Image)
  (config : ProcessingConfig) :
  Forall isOverlayOp (fst (overlay fuel w img config)).
Proof.
  unfold overlay. destruct (watermarkSource config) as [url|].
  - rewrite tryCatch_trace. apply drawWatermark_overlay.
  - constructor.
Qed.

Lemma overlay_no_fill (op : CanvasOp) : isOverlayOp op -> isFill op = false.
Proof. destruct op; simpl; tauto. Qed.

Lemma shouldFillBackground_iff (config : ProcessingConfig) :
  shouldFillBackground config = true <->
  format config = JPG \/ fillBackground config = true.
Proof.
  unfold shouldFillBackground. rewrite orb_true_iff.
  destruct (format config); intuition congruence.
Qed.

(** ** C1 and C7: the base draw *)

(** C1, as the code has it: with [keepOriginalSize] off, the base image is
    drawn after the canvas is sized (and after the white fill, when there is
    one), scaled by one factor on both axes so that it lies inside the
    [width] x [height] canvas, centred.  When the source is wider than the
    target, relative to their heights, the width is fitted and the image is
    centred vertically; otherwise the height is fitted and the image is
    centred horizontally.  The image is fitted inside the canvas; it does not
    cover it. *)
Theorem processImage_base_draw_fits_inside (fuel : nat) (w : World)
  (f : UploadedFile) (config : ProcessingConfig) (img : Image) :
  loadImage w (file f) = Some img -> getContext w = true ->
  keepOriginalSize config = false ->
  (0 < imgWidth img)%Z -> (0 < imgHeight img)%Z ->
  (0 < width config)%Z -> (0 < height config)%Z ->
  (exists rest,
     fst (processImage fuel w f config) =
       ([SetCanvasSize (width config) (height config);
         SetImageSmoothing "high"]
        ++ whiteFill config (width config) (height config)
        ++ DrawImageScaled img (offsetX (baseRect img config))
             (offsetY (baseRect img config)) (drawWidth (baseRect img config))
             (drawHeight (baseRect img config)) :: rest)%list) /\
  drawWidth (baseRect img config) * imgHeight img
    == drawHeight (baseRect img config) * imgWidth img /\
  insideCanvas (baseRect img config) (width config) (height config) /\
  offsetX (baseRect img config)
    == (width config - drawWidth (baseRect img config)) / 2 /\
  offsetY (baseRect img config)
    == (height config - drawHeight (baseRect img config)) / 2 /\
  (width config / height config < imgWidth img / imgHeight img ->
   drawWidth (baseRect img config) == width config /\
   offsetX (baseRect img config) == 0 /\
   drawHeight (baseRect img config)
     == imgHeight img * width config / imgWidth img) /\
  (imgWidth img / imgHeight img <= width config / height config ->
   drawHeight (baseRect img config) == height config /\
   offsetY (baseRect img config) == 0 /\
   drawWidth (baseRect img config)
     == imgWidth img * height config / imgHeight img).
Proof.
  intros D C K Hiw Hih Hcw Hch. split.
  - exists (fst (overlay fuel w img config)).
    rewrite (processImage_trace fuel w f config img D C), compose_trace.
    rewrite (drawBase_resized img config K).
    rewrite <- !app_assoc. reflexivity.
  - destruct (baseRect_fits img config Hiw Hih Hcw Hch)
      as (A & I & X & Y & _ & _).
    split; [exact A|]. split; [exact I|]. split; [exact X|].
    split; [exact Y|]. split.
    + intro W.
      destruct (baseRect_wide img config Hiw Hih Hcw Hch W) as (Ew & Eh & Ex & _).
      split; [exact Ew|]. split; [exact Ex | exact Eh].
    + intro T.
      destruct (baseRect_tall img config Hiw Hih Hcw Hch T) as (Eh & Ew & Ey & _).
      split; [exact Eh|]. split; [exact Ey | exact Ew].
Qed.

(** C1, scenario A: the 1600 x 900 source is drawn 800 wide and 450 high, at
    (0, 75), after the white fill: the height 600 is not fitted and the canvas
    is not covered. *)
Lemma scenarioA_base_draw_does_not_cover :
  let img := {| imgWidth := 1600; imgHeight := 900 |} in
  let r := baseRect img defaultConfig in
  fst (processImage 0 sampleWorld (queued "photo.jpg") defaultConfig) =
    [SetCanvasSize 800 600; SetImageSmoothing "high";
     SetFillStyle "#FFFFFF"; FillRect 0 0 800 600;
     DrawImageScaled img (offsetX r) (offsetY r) (drawWidth r) (drawHeight r)]
  /\ drawWidth r == 800 /\ drawHeight r == 450
  /\ offsetX r == 0 /\ offsetY r == 75
  /\ ~ drawHeight r == 600
  /\ ~ offsetX r < 0
  /\ ~ coversCanvas r 800 600.
Proof.
  cbv zeta. split; [reflexivity|].
  split; [reflexivity|]. split; [reflexivity|].
  split; [reflexivity|]. split; [reflexivity|].
  split; [discriminate|]. split; [discriminate|].
  unfold coversCanvas. intros (_ & _ & _ & H). revert H.
  vm_compute. intro H; apply H; reflexivity.
Qed.

(** Scenario A, from the theorem: 800 wide, 450 high, at the left edge,
    inside the canvas. *)
Lemma processImage_base_draw_fits_inside_witness :
  let img := {| imgWidth := 1600; imgHeight := 900 |} in
  loadImage sampleWorld (file (queued "photo.jpg")) = Some img /\
  (0 < imgWidth img)%Z /\ (0 < imgHeight img)%Z /\
  (0 < width defaultConfig)%Z /\ (0 < height defaultConfig)%Z /\
  insideCanvas (baseRect img defaultConfig) 800 600 /\
  drawWidth (baseRect img defaultConfig) == 800 /\
  offsetX (baseRect img defaultConfig) == 0 /\
  drawHeight (baseRect img defaultConfig) == 450.
Proof.
  cbv zeta. repeat (split; [reflexivity|]).
  destruct (processImage_base_draw_fits_inside 0 sampleWorld
              (queued "photo.jpg") defaultConfig
              {| imgWidth := 1600; imgHeight := 900 |}
              eq_refl eq_refl eq_refl eq_refl eq_refl eq_refl eq_refl)
    as (_ & _ & I & _ & _ & W & _).
  split; [exact I|].
  destruct (W eq_refl) as (Ew & Ex & Eh).
  split; [exact Ew|]. split; [exact Ex|].
  rewrite Eh. reflexivity.
Defined.

(** C7: the canvas is painted white, over its whole area and just before the
    base image is drawn, when the format is JPEG or [fillBackground] is set;
    otherwise nothing is painted, before or after the base image. *)
Theorem processImage_fills_white_iff (fuel : nat) (w : World)
  (f : UploadedFile) (config : ProcessingConfig) (img : Image) :
  loadImage w (file f) = Some img -> getContext w = true ->
  exists sizing draw rest,
    Forall (fun op => isFill op = false /\ isDraw op = false) sizing /\
    isDraw draw = true /\
    Forall (fun op => isFill op = false) rest /\
    (format config = JPG \/ fillBackground config = true ->
     fst (processImage fuel w f config) =
       (sizing
        ++ [SetFillStyle "#FFFFFF";
            FillRect 0 0 (canvasWidth img config) (canvasHeight img config)]
        ++ draw :: rest)%list) /\
    (~ (format config = JPG \/ fillBackground config = true) ->
     fst (processImage fuel w f config) = (sizing ++ draw :: rest)%list).
Proof.
  intros D C.
  rewrite (processImage_trace fuel w f config img D C), compose_trace.
  pose proof (overlay_ops fuel w img config) as Hov.
  assert (Hrest : Forall (fun op => isFill op = false)
                    (fst (overlay fuel w img config))).
  { eapply Forall_impl; [|exact Hov]. apply overlay_no_fill. }
  pose proof (shouldFillBackground_iff config) as Hiff.
  unfold canvasWidth, canvasHeight.
  destruct (keepOriginalSize config) eqn:K.
  - rewrite (drawBase_original img config K). unfold whiteFill.
    exists [SetCanvasSize (imgWidth img) (imgHeight img)],
      (DrawImage img 0 0), (fst (overlay fuel w img config)).
    split; [repeat constructor|]. split; [reflexivity|].
    split; [exact Hrest|].
    destruct (shouldFillBackground config); split; intro H.
    + reflexivity.
    + exfalso. apply H, Hiff. reflexivity.
    + apply Hiff in H. discriminate.
    + reflexivity.
  - rewrite (drawBase_resized img config K). unfold whiteFill.
    exists [SetCanvasSize (width config) (height config);
            SetImageSmoothing "high"],
      (DrawImageScaled img (offsetX (baseRect img config))
         (offsetY (baseRect img config)) (drawWidth (baseRect img config))
         (drawHeight (baseRect img config))),
      (fst (overlay fuel w img config)).
    split; [repeat constructor|]. split; [reflexivity|].
    split; [exact Hrest|].
    destruct (shouldFillBackground config); split; intro H.
    + reflexivity.
    + exfalso. apply H, Hiff. reflexivity.
    + apply Hiff in H. discriminate.
    + reflexivity.
Qed.

(** ** The centres of the watermark *)

Lemma centers_app (s t : list CanvasOp) :
  centers (s ++ t) = (centers s ++ centers t)%list.
Proof. apply flat_map_app. Qed.

Lemma centers_overlay_only (t : list CanvasOp) :
  Forall (fun op => match op with Translate _ _ => False | _ => True end) t ->
  centers t = [].
Proof.
  induction 1 as [|op t Hop _ IH]; [reflexivity|].
  unfold centers in *. simpl. rewrite IH. destruct op; simpl; tauto.
Qed.

Lemma drawBase_centers (img : Image) (config : ProcessingConfig) :
  centers (fst (drawBase img config)) = [].
Proof.
  unfold drawBase.
  destruct (keepOriginalSize config), (shouldFillBackground config);
    reflexivity.
Qed.

Lemma drawWM_ok (w : World) (config : ProcessingConfig) (wmImg : Image)
  (tw th cx cy : Q) :
  drawFails w cx cy = false ->
  centers (fst (drawWM w config wmImg tw th cx cy)) = [(cx, cy)] /\
  snd (drawWM w config wmImg tw th cx cy) = Returned tt.
Proof. intro H. unfold drawWM. rewrite H. split; reflexivity. Qed.

Lemma forEach_centers (w : World) (config : ProcessingConfig) (wmImg : Image)
  (tw th : Q) (ps : list (Q * Q)) :
  (forall x y, In (x, y) ps -> drawFails w x y = false) ->
  centers (fst (forEach ps (drawWM w config wmImg tw th))) = ps /\
  snd (forEach ps (drawWM w config wmImg tw th)) = Returned tt.
Proof.
  induction ps as [|[x y] ps IH]; intro H; simpl.
  - split; reflexivity.
  - destruct (drawWM_ok w config wmImg tw th x y) as [Ec Er].
    { apply H. left; reflexivity. }
    destruct IH as [IHc IHr].
    { intros x' y' Hin. apply H. right; assumption. }
    rewrite (bind_trace _ _ tt Er), (bind_outcome _ _ tt Er).
    rewrite centers_app, Ec, IHc. split; [reflexivity | assumption].
Qed.

(** In the modes that are not tiled, the watermark is drawn at the points of
    [positions], in their order. *)
Lemma drawWatermark_fixed_centers (fuel : nat) (w : World)
  (config : ProcessingConfig) (cw ch : Q) (url : string) (wmImg : Image) :
  loadWatermarkImage w url = Some wmImg ->
  watermarkMode config <> Tiled ->
  (forall x y, drawFails w x y = false) ->
  centers (fst (drawWatermark fuel w config cw ch url)) =
    positions config cw ch (targetWmWidth cw config)
      (targetWmHeight cw config wmImg).
Proof.
  intros D M F. unfold drawWatermark. rewrite D.
  set (tw := targetWmWidth cw config).
  set (th := targetWmHeight cw config wmImg).
  destruct (forEach_centers w config wmImg tw th (positions config cw ch tw th))
    as [Ec Er]; [intros; apply F|].
  assert (E : (match watermarkMode config with
               | Tiled =>
                   drawTiled fuel cw ch (stepX cw config)
                     (stepY cw config wmImg) (drawWM w config wmImg tw th)
               | _ => forEach (positions config cw ch tw th)
                        (drawWM w config wmImg tw th)
               end) = forEach (positions config cw ch tw th)
                        (drawWM w config wmImg tw th)).
  { destruct (watermarkMode config); congruence. }
  rewrite E. clear E.
  rewrite (bind_trace (call Save) _ tt eq_refl).
  rewrite centers_app. simpl (centers (fst (call Save))).
  destruct (watermarkColorMode config); simpl when.
  - rewrite (bind_trace (ret tt) _ tt eq_refl), centers_app.
    rewrite (bind_trace (call _) _ tt eq_refl), centers_app.
    rewrite (bind_trace _ _ tt Er), centers_app, Ec.
    simpl. apply app_nil_r.
  - rewrite (bind_trace (call _) _ tt eq_refl), centers_app.
    rewrite (bind_trace (call _) _ tt eq_refl), centers_app.
    rewrite (bind_trace _ _ tt Er), centers_app, Ec.
    simpl. apply app_nil_r.
Qed.

Lemma processImage_centers (fuel : nat) (w : World) (f : UploadedFile)
  (config : ProcessingConfig) (img : Image) (url : string) :
  loadImage w (file f) = Some img -> getContext w = true ->
  watermarkSource config = Some url ->
  centers (fst (processImage fuel w f config)) =
    centers (fst (drawWatermark fuel w config (canvasWidth img config)
                    (canvasHeight img config) url)).
Proof.
  intros D C S.
  rewrite (processImage_trace fuel w f config img D C), compose_trace.
  rewrite centers_app, drawBase_centers. unfold overlay. rewrite S.
  rewrite tryCatch_trace. reflexivity.
Qed.

(** ** C6: the dual and the triple layout *)

(** C6: in the dual mode the watermark is drawn exactly twice, at two points
    whose midpoint is the centre of the canvas; in the triple mode it is drawn
    exactly three times, at the same two points and, between them, at the
    centre of the canvas.  (The watermark is taken of positive size, where the
    arithmetic of the model is that of the code.) *)
Theorem processImage_dual_triple_centers (fuel : nat) (w : World)
  (f : UploadedFile) (config : ProcessingConfig) (img : Image)
  (url : string) (wmImg : Image) :
  loadImage w (file f) = Some img -> getContext w = true ->
  watermarkSource config = Some url ->
  loadWatermarkImage w url = Some wmImg ->
  (0 < imgWidth wmImg)%Z -> (0 < imgHeight wmImg)%Z ->
  (forall x y, drawFails w x y = false) ->
  let cw := canvasWidth img config in
  let ch := canvasHeight img config in
  let halfW := targetWmWidth cw config / 2 in
  let halfH := targetWmHeight cw config wmImg / 2 in
  let p := (padding cw ch + halfW, padding cw ch + halfH) in
  let q := (cw - padding cw ch - halfW, ch - padding cw ch - halfH) in
  (watermarkMode config = Dual ->
   centers (fst (processImage fuel w f config)) = [p; q]) /\
  (watermarkMode config = Triple ->
   centers (fst (processImage fuel w f config)) = [p; (cw / 2, ch / 2); q]) /\
  (fst p + fst q) / 2 == cw / 2 /\
  (snd p + snd q) / 2 == ch / 2.
Proof.
  intros D C S DW _ _ F. cbv zeta.
  rewrite (processImage_centers fuel w f config img url D C S).
  split; [|split; [|split]].
  - intro M.
    rewrite (drawWatermark_fixed_centers fuel w config _ _ url wmImg DW);
      [|congruence|assumption].
    unfold positions. rewrite M. reflexivity.
  - intro M.
    rewrite (drawWatermark_fixed_centers fuel w config _ _ url wmImg DW);
      [|congruence|assumption].
    unfold positions. rewrite M. reflexivity.
  - simpl. field.
  - simpl. field.
Qed.

(** ** C2: the tiled layout *)

Lemma loopValue_succ (start step : Q) (i : nat) :
  loopValue start step (S i) = fl (loopValue start step i + step).
Proof. reflexivity. Qed.




(** The two steps are binary64 numbers. *)
Lemma stepX_binary64 (cw : Q) (config : ProcessingConfig) :
  fl (stepX cw config) = stepX cw config.
Proof. apply fl_idem. Qed.

Lemma stepY_binary64 (cw : Q) (config : ProcessingConfig) (wmImg : Image) :
  fl (stepY cw config wmImg) = stepY cw config wmImg.
Proof. apply fl_idem. Qed.



(** A binary64 number below a rounded sum is below the sum itself. *)
Lemma below_rounded (x z : Q) : fl x == x -> x < fl z -> x < z.
Proof.
  intros F H. apply Qnot_le_lt. intro L. apply fl_le in L.
  rewrite F in L. lra.
Qed.






Lemma targetWm_pos (cw : Q) (config : ProcessingConfig) (wmImg : Image) :
  0 < cw -> 0 < watermarkScale config ->
  (0 < imgWidth wmImg)%Z -> (0 < imgHeight wmImg)%Z ->
  0 < targetWmWidth cw config /\ 0 < targetWmHeight cw config wmImg.
Proof.
  intros Hc Hs Hw Hh. apply inject_Z_pos in Hw, Hh.
  assert (T : 0 < targetWmWidth cw config).
  { unfold targetWmWidth. apply Qmult_lt_0_compat; [assumption|].
    constants. lra. }
  split; [exact T|].
  unfold targetWmHeight. unfold Qdiv at 1.
  apply Qmult_lt_0_compat; [exact T|].
  apply Qinv_lt_0_compat. unfold Qdiv.
  apply Qmult_lt_0_compat; [assumption|].
  apply Qinv_lt_0_compat. assumption.
Qed.




(** The two corners of the dual mode on the 800 x 600 canvas. *)
Lemma processImage_dual_triple_centers_witness :
  let config := withWatermark Dual defaultConfig in
  exists p q,
    centers (fst (processImage 0 sampleWorld (queued "photo.jpg") config))
      = [p; q] /\
    (fst p + fst q) / 2 == 800 / 2 /\ (snd p + snd q) / 2 == 600 / 2.
Proof.
  cbv zeta.
  pose proof (processImage_dual_triple_centers 0 sampleWorld
                (queued "photo.jpg") (withWatermark Dual defaultConfig)
                {| imgWidth := 1600; imgHeight := 900 |}
                "data:image/png;base64,AAAA"%string
                {| imgWidth := 100; imgHeight := 50 |}
                eq_refl eq_refl eq_refl eq_refl eq_refl eq_refl
                (fun _ _ => eq_refl))
    as (HD & _ & Hx & Hy).
  eexists _, _. split; [exact (HD eq_refl)|]. split; [exact Hx | exact Hy].
Defined.

(** The starting configuration asks for JPEG: the canvas is painted. *)
Lemma processImage_fills_white_iff_witness :
  exists sizing draw rest,
    fst (processImage 0 sampleWorld (queued "photo.jpg") defaultConfig) =
      (sizing ++ [SetFillStyle "#FFFFFF"; FillRect 0 0 800 600]
       ++ draw :: rest)%list.
Proof.
  destruct (processImage_fills_white_iff 0 sampleWorld (queued "photo.jpg")
              defaultConfig {| imgWidth := 1600; imgHeight := 900 |}
              eq_refl eq_refl)
    as (sizing & draw & rest & _ & _ & _ & H & _).
  exists sizing, draw, rest. apply H. left. reflexivity.
Defined.

(** ** C4: a failing watermark *)

Lemma drawWatermark_load_failure (fuel : nat) (w : World)
  (config : ProcessingConfig) (cw ch : Q) (url : string) :
  loadWatermarkImage w url = None ->
  drawWatermark fuel w config cw ch url = ([], Thrown).
Proof. intro H. unfold drawWatermark. rewrite H. reflexivity. Qed.

(** C4: when loading the watermark or drawing it throws, the exception goes
    no further than the watermark block: the canvas as it then stands (the
    base image, and what was drawn of the watermark before the failure,
    nothing when the watermark did not load) is encoded, and the blob the
    encoder gives is the result of the conversion. *)
Theorem processImage_watermark_failure_swallowed (fuel : nat) (w : World)
  (f : UploadedFile) (config : ProcessingConfig) (img : Image)
  (url : string) (blob : Blob) :
  loadImage w (file f) = Some img -> getContext w = true ->
  watermarkSource config = Some url ->
  (loadWatermarkImage w url = None \/
   snd (drawWatermark fuel w config (canvasWidth img config)
          (canvasHeight img config) url) = Thrown) ->
  toBlob w (fst (processImage fuel w f config)) (format config)
    (quality config) = Some blob ->
  snd (processImage fuel w f config) = Returned blob /\
  exists drawn,
    fst (processImage fuel w f config)
      = (fst (drawBase img config) ++ drawn)%list /\
    Forall isOverlayOp drawn /\
    (loadWatermarkImage w url = None -> drawn = []).
Proof.
  intros D C S Fail E.
  assert (T : snd (drawWatermark fuel w config (canvasWidth img config)
                     (canvasHeight img config) url) = Thrown).
  { destruct Fail as [L|T]; [|exact T].
    rewrite (drawWatermark_load_failure fuel w config _ _ url L). reflexivity. }
  pose proof (processImage_trace fuel w f config img D C) as Tr.
  split.
  - rewrite (processImage_outcome fuel w f config img D C).
    rewrite compose_outcome. unfold overlay at 1. rewrite S.
    rewrite (tryCatch_thrown _ T). rewrite <- Tr, E. reflexivity.
  - exists (fst (overlay fuel w img config)).
    split; [rewrite Tr; apply compose_trace|].
    split; [apply overlay_ops|].
    intro L. unfold overlay. rewrite S, tryCatch_trace.
    rewrite (drawWatermark_load_failure fuel w config _ _ url L). reflexivity.
Qed.

(** A watermark that does not load: the JPEG is returned all the same. *)
Lemma processImage_watermark_failure_swallowed_witness :
  let config := withWatermark Single defaultConfig in
  snd (processImage 0 noWatermarkWorld (queued "photo.jpg") config)
    = Returned {| blobBytes := "encoded"; blobType := "image/jpeg" |}.
Proof.
  cbv zeta.
  apply (processImage_watermark_failure_swallowed 0 noWatermarkWorld
           (queued "photo.jpg") (withWatermark Single defaultConfig)
           {| imgWidth := 1600; imgHeight := 900 |}
           "data:image/png;base64,AAAA"%string
           {| blobBytes := "encoded"; blobType := "image/jpeg" |}
           eq_refl eq_refl eq_refl (or_introl eq_refl) eq_refl).
Defined.

(** A draw that throws half way through the tiling: the conversion returns
    its blob all the same, with the watermarks drawn until then. *)
Example processImage_draw_failure_swallowed :
  let config := withWatermark Tiled defaultConfig in
  snd (drawWatermark 10 failingDrawWorld config 800 600
         "data:image/png;base64,AAAA") = Thrown /\
  snd (processImage 10 failingDrawWorld (queued "photo.jpg") config)
    = Returned {| blobBytes := "encoded"; blobType := "image/jpeg" |} /\
  List.length
    (centers (fst (processImage 10 failingDrawWorld (queued "photo.jpg") config)))
    = 22%nat.
Proof. cbv zeta. repeat split; vm_compute; reflexivity. Qed.

(** ** Strings *)

Section Strings.
Local Open Scope string_scope.

Lemma append_assoc (a b c : string) : (a ++ b) ++ c = a ++ (b ++ c).
Proof. induction a as [|x a IH]; simpl; congruence. Qed.

Lemma append_nil_r (a : string) : a ++ "" = a.
Proof. induction a as [|x a IH]; simpl; congruence. Qed.

Lemma length_append (a b : string) :
  String.length (a ++ b) = (String.length a + String.length b)%nat.
Proof. induction a as [|x a IH]; simpl; congruence. Qed.

Lemma occurs_append (c : ascii) (a b : string) :
  occurs c (a ++ b) = occurs c a || occurs c b.
Proof.
  induction a as [|x a IH]; simpl; [reflexivity|].
  rewrite IH, orb_assoc. reflexivity.
Qed.

Lemma substring_prefix (a b : string) :
  substring 0 (String.length a) (a ++ b) = a.
Proof.
  induction a as [|x a IH]; simpl.
  - destruct b; reflexivity.
  - rewrite IH. reflexivity.
Qed.

Lemma substring_suffix (a b : string) :
  substring (String.length a) (String.length b) (a ++ b) = b.
Proof.
  induction a as [|x a IH]; simpl; [|exact IH].
  induction b as [|y b IHb]; simpl; congruence.
Qed.

Lemma substring_split (s : string) (m : nat) :
  (m <= String.length s)%nat ->
  s = substring 0 m s ++ substring m (String.length s - m) s.
Proof.
  revert m. induction s as [|x s IH]; intros m Hm; simpl in *.
  - destruct m; [reflexivity | lia].
  - destruct m as [|m]; simpl.
    + f_equal. clear IH Hm.
      induction s as [|y s IHs]; simpl; congruence.
    + f_equal. apply IH. lia.
Qed.

Lemma endsWith_iff (suffix s : string) :
  endsWith suffix s = true <-> exists pre, s = pre ++ suffix.
Proof.
  unfold endsWith. rewrite andb_true_iff, Nat.leb_le, String.eqb_eq. split.
  - intros [Hle E].
    exists (substring 0 (String.length s - String.length suffix) s).
    pose proof (substring_split s (String.length s - String.length suffix))
      as Hs.
    replace (String.length s - (String.length s - String.length suffix))%nat
      with (String.length suffix) in Hs by lia.
    rewrite E in Hs. apply Hs. lia.
  - intros [pre ->]. rewrite length_append. split; [lia|].
    replace (String.length pre + String.length suffix - String.length suffix)%nat
      with (String.length pre) by lia.
    apply substring_suffix.
Qed.

(** *** Case folding *)

Lemma foldCaseString_append (a b : string) :
  foldCaseString (a ++ b) = foldCaseString a ++ foldCaseString b.
Proof. induction a as [|x a IH]; simpl; congruence. Qed.

Lemma foldCaseString_split (s a b : string) :
  foldCaseString s = a ++ b ->
  exists s1 s2, s = s1 ++ s2 /\ foldCaseString s1 = a /\ foldCaseString s2 = b.
Proof.
  revert s. induction a as [|x a IH]; intros s H; simpl in H.
  - exists "", s. auto.
  - destruct s as [|y s]; simpl in H; [discriminate|].
    injection H as Hx Hs. destruct (IH s Hs) as (s1 & s2 & -> & H1 & H2).
    exists (String y s1), s2. simpl. rewrite Hx, H1. auto.
Qed.

Lemma foldCase_dot (c : ascii) : foldCase c = "."%char -> c = "."%char.
Proof.
  destruct c as [[] [] [] [] [] [] [] []]; vm_compute; congruence.
Qed.

Lemma foldCase_slash (c : ascii) :
  Ascii.eqb (foldCase c) "/" = Ascii.eqb c "/".
Proof. destruct c as [[] [] [] [] [] [] [] []]; reflexivity. Qed.

Lemma occurs_slash_foldCase (s : string) :
  occurs "/" (foldCaseString s) = occurs "/" s.
Proof.
  induction s as [|x s IH]; simpl; [reflexivity|].
  rewrite IH, foldCase_slash. reflexivity.
Qed.

(** The regular expression of the archive reader, in words. *)
Lemma imagePattern_iff (name : string) :
  imagePattern name = true <-> hasImageExtension name.
Proof.
  unfold imagePattern, hasImageExtension. rewrite existsb_exists. split.
  - intros (ext & Hin & He). apply endsWith_iff in He.
    destruct He as [pre He].
    apply foldCaseString_split in He.
    destruct He as (stem & tail & -> & _ & Ht).
    destruct tail as [|c ext0]; simpl in Ht; [discriminate|].
    injection Ht as Hc Hext. apply foldCase_dot in Hc. subst c.
    exists stem, ext0. split; [reflexivity|]. rewrite Hext. exact Hin.
  - intros (stem & ext & -> & Hin).
    exists (foldCaseString ext). split; [exact Hin|].
    apply endsWith_iff. exists (foldCaseString stem).
    rewrite foldCaseString_append. reflexivity.
Qed.

(** *** Splitting at a separator *)

Lemma split_not_nil (sep : ascii) (s : string) : split sep s <> [].
Proof.
  destruct s as [|a s]; simpl; [discriminate|].
  destruct (Ascii.eqb a sep); [discriminate|].
  destruct (split sep s); discriminate.
Qed.

Lemma split_no_sep (sep : ascii) (s : string) :
  occurs sep s = false -> split sep s = [s].
Proof.
  induction s as [|a s IH]; simpl; [reflexivity|].
  intro H. apply orb_false_iff in H. destruct H as [Ha Hs].
  rewrite Ha, (IH Hs). reflexivity.
Qed.

Lemma split_app_sep (sep : ascii) (s t : string) :
  split sep (s ++ String sep t) = (split sep s ++ split sep t)%list.
Proof.
  induction s as [|a s IH]; simpl.
  - rewrite Ascii.eqb_refl. reflexivity.
  - destruct (Ascii.eqb a sep); rewrite IH; [reflexivity|].
    pose proof (split_not_nil sep s) as N.
    destruct (split sep s); [congruence | reflexivity].
Qed.

Lemma last_split (sep : ascii) (folders base : string) :
  occurs sep base = false ->
  last (split sep (folders ++ String sep base)) "" = base.
Proof.
  intro H. rewrite split_app_sep, (split_no_sep sep base H).
  apply last_last.
Qed.

(** *** The last dot *)

Lemma lastIndexFrom_absent (c : ascii) (s : string) (i found : Z) :
  occurs c s = false -> lastIndexFrom c s i found = found.
Proof.
  revert i found. induction s as [|a s IH]; intros i found H; simpl in *.
  - reflexivity.
  - apply orb_false_iff in H. destruct H as [Ha Hs].
    rewrite Ha. apply IH. exact Hs.
Qed.

Lemma lastIndexFrom_last (c : ascii) (a b : string) (i found : Z) :
  occurs c b = false ->
  lastIndexFrom c (a ++ String c b) i found
    = (i + Z.of_nat (String.length a))%Z.
Proof.
  intro H. revert i found.
  induction a as [|x a IH]; intros i found; simpl.
  - rewrite Ascii.eqb_refl, (lastIndexFrom_absent c b _ _ H). lia.
  - rewrite IH. lia.
Qed.

Lemma baseName_stem (name stem : string) :
  isStem name stem ->
  orElse (jsSubstring 0 (lastIndexOf "." name) name) name
    = orElse stem name.
Proof.
  intros (ext & -> & H). unfold lastIndexOf.
  change (stem ++ "." ++ ext) with (stem ++ String "." ext).
  rewrite (lastIndexFrom_last "." stem ext 0 (-1) H).
  unfold jsSubstring. rewrite length_append. simpl String.length.
  simpl Z.add.
  replace (Z.min (Z.max 0 0) _) with 0%Z by lia.
  replace (Z.min (Z.max (Z.of_nat (String.length stem)) 0) _)
    with (Z.of_nat (String.length stem)) by lia.
  replace (Z.min 0 (Z.of_nat (String.length stem))) with 0%Z by lia.
  replace (Z.max 0 (Z.of_nat (String.length stem)))
    with (Z.of_nat (String.length stem)) by lia.
  rewrite Z.sub_0_r, Nat2Z.id. simpl Z.to_nat.
  rewrite substring_prefix. reflexivity.
Qed.

Lemma baseName_no_dot (name : string) :
  occurs "." name = false ->
  orElse (jsSubstring 0 (lastIndexOf "." name) name) name = name.
Proof.
  intro H. unfold lastIndexOf.
  rewrite (lastIndexFrom_absent "." name 0 (-1) H).
  unfold jsSubstring.
  replace (Z.min (Z.max 0 0) _) with 0%Z by lia.
  replace (Z.min (Z.max (-1) 0) _) with 0%Z by lia.
  simpl. destruct name; reflexivity.
Qed.

Lemma format_extension (f : ImageFormat) :
  nth 1 (split "/" (formatValue f)) "undefined" = extensionOf f.
Proof. destruct f; reflexivity. Qed.
End Strings.

(** ** C5 and C9: reading an archive *)

Section Archives.
Local Open Scope string_scope.

Lemma isImageEntry_iff (e : ZipEntry) :
  isImageEntry e = true <-> qualifies e.
Proof.
  unfold isImageEntry, qualifies.
  rewrite andb_true_iff, negb_true_iff, imagePattern_iff. tauto.
Qed.

Lemma readEntries_total (es : list ZipEntry) :
  Forall (fun e => entryBlob e <> None) es ->
  exists fs, readEntries es = Some fs.
Proof.
  induction 1 as [|e es He _ [fs IH]]; simpl.
  - exists []. reflexivity.
  - destruct (entryBlob e) as [b|]; [|congruence].
    rewrite IH. eexists. reflexivity.
Qed.

Lemma readEntries_each (es : list ZipEntry) (fs : list File) :
  readEntries es = Some fs ->
  Forall2 (fun e f => entryBlob e = Some (fileBlob f) /\
                      fileName f = cleanName (entryName e)) es fs.
Proof.
  revert fs. induction es as [|e es IH]; intros fs H; simpl in H.
  - injection H as <-. constructor.
  - destruct (entryBlob e) as [b|] eqn:B; [|discriminate].
    destruct (readEntries es) as [fs'|]; [|discriminate].
    injection H as <-. constructor; [split; auto | apply IH; reflexivity].
Qed.

Lemma decompose_last_sep (sep : ascii) (s : string) :
  occurs sep s = false \/
  exists folders base,
    s = folders ++ String sep base /\ occurs sep base = false.
Proof.
  induction s as [|a s IH]; [left; reflexivity|].
  destruct IH as [N | (folders & base & -> & N)].
  - simpl. destruct (Ascii.eqb a sep) eqn:E.
    + right. apply Ascii.eqb_eq in E. subst a. exists "", s. auto.
    + left. exact N.
  - right. exists (String a folders), base. auto.
Qed.

Lemma append_last_char (a b t : string) (c : ascii) :
  a ++ String c "" = b ++ t -> t <> "" ->
  exists t', t = t' ++ String c "".
Proof.
  revert a. induction b as [|y b IH]; intros a H N; simpl in H.
  - exists a. congruence.
  - destruct a as [|x a]; simpl in H.
    + injection H as _ H. destruct b; [|discriminate].
      simpl in H. congruence.
    + injection H as _ H. exact (IH a H N).
Qed.

(** An image entry does not end with a slash. *)
Lemma image_name_has_base (folders : string) :
  imagePattern (folders ++ "/") = false.
Proof.
  destruct (imagePattern (folders ++ "/")) eqn:E; [|reflexivity].
  exfalso. apply imagePattern_iff in E.
  destruct E as (stem & ext & E & Hin).
  assert (Hs : occurs "/" ext = false).
  { rewrite <- occurs_slash_foldCase.
    simpl in Hin.
    destruct Hin as [<-|[<-|[<-|[<-|[<-|[]]]]]]; reflexivity. }
  assert (N : "." ++ ext <> "") by discriminate.
  change (folders ++ "/") with (folders ++ String "/" "") in E.
  destruct (append_last_char folders stem ("." ++ ext) "/" E N) as [t' Ht].
  assert (O : occurs "/" ("." ++ ext) = true).
  { rewrite Ht, occurs_append. simpl. apply orb_true_r. }
  simpl in O. congruence.
Qed.

Lemma cleanName_keeps_last_segment (name : string) :
  imagePattern name = true -> keepsLastSegment name (cleanName name).
Proof.
  intro P. unfold cleanName.
  destruct (decompose_last_sep "/" name) as [N | (folders & base & E & N)].
  - rewrite (split_no_sep "/" name N). simpl last.
    assert (O : orElse name name = name) by (destruct name; reflexivity).
    rewrite O. split; [exact N|]. split; [reflexivity|].
    intros f b -> _. rewrite occurs_append in N. simpl in N.
    rewrite orb_true_r in N. discriminate.
  - subst name. rewrite (last_split "/" folders base N).
    destruct base as [|c base].
    { rewrite image_name_has_base in P. discriminate. }
    simpl orElse. split; [exact N|]. split.
    + intro O. rewrite occurs_append in O. simpl in O.
      rewrite orb_true_r in O. discriminate.
    + intros f b E Nb.
      assert (L : last (split "/" (f ++ "/" ++ b)) "" = b)
        by (apply last_split; exact Nb).
      rewrite <- E in L. rewrite (last_split "/" folders _ N) in L.
      exact L.
Qed.

Lemma pushAll_items (w : World) (extracted : list File)
  (newFiles : list UploadedFile) :
  exists items,
    pushAll w newFiles extracted = (newFiles ++ items)%list /\
    map file items = extracted /\
    map originalName items = map fileName extracted /\
    Forall (fun f => status f = Status.pending) items.
Proof.
  revert newFiles. induction extracted as [|img rest IH]; intro newFiles.
  - exists []. simpl. rewrite app_nil_r. auto.
  - simpl. destruct (IH (newFiles ++ [newItem w (List.length newFiles) img])%list)
      as (items & E & Hf & Hn & Hs).
    exists (newItem w (List.length newFiles) img :: items).
    rewrite E, <- app_assoc. simpl.
    rewrite Hf, Hn. repeat split; auto.
Qed.

Lemma processFiles_archive (w : World) (zipFile : File)
  (extracted : list File) :
  isZip zipFile = true ->
  extractImagesFromZip w zipFile = Some extracted ->
  processFiles w [zipFile]
    = [AppendFiles (pushAll w [] extracted); SetSummary None].
Proof.
  intros Z E. unfold processFiles. simpl. rewrite Z, E. reflexivity.
Qed.

(** C5: an archive is read into as many image files as it has entries that
    are not directories and whose names end in a dot and one of [jpg],
    [jpeg], [png], [webp] and [gif], in any letter case; the other entries
    are left out, and intake adds that many items to the queue. *)
Theorem archive_intake_counts (w : World) (zipFile : File)
  (archive : list ZipEntry) (st : AppState) :
  isZip zipFile = true ->
  loadAsync w zipFile = Some archive ->
  (forall e, In e archive -> qualifies e -> entryBlob e <> None) ->
  (forall e, isImageEntry e = true <-> qualifies e) /\
  (List.length (filter isImageEntry archive)
   + List.length (filter (fun e => negb (isImageEntry e)) archive)
   = List.length archive)%nat /\
  exists extracted,
    extractImagesFromZip w zipFile = Some extracted /\
    List.length extracted = List.length (filter isImageEntry archive) /\
    List.length (files (applyEffects st (processFiles w [zipFile])))
      = (List.length (files st)
         + List.length (filter isImageEntry archive))%nat.
Proof.
  intros Z L R. split; [apply isImageEntry_iff|]. split.
  { clear. induction archive as [|e es IH]; simpl; [reflexivity|].
    destruct (isImageEntry e); simpl; lia. }
  destruct (readEntries_total (filter isImageEntry archive)) as [fs Hfs].
  { apply Forall_forall. intros e He. apply filter_In in He.
    destruct He as [Hin Hq]. apply R; [exact Hin|].
    apply isImageEntry_iff. exact Hq. }
  assert (E : extractImagesFromZip w zipFile = Some fs).
  { unfold extractImagesFromZip. rewrite L. exact Hfs. }
  assert (Len : List.length fs = List.length (filter isImageEntry archive)).
  { symmetry. eapply Forall2_length. apply readEntries_each. exact Hfs. }
  exists fs. split; [exact E|]. split; [exact Len|].
  rewrite (processFiles_archive w zipFile fs Z E).
  destruct (pushAll_items w fs []) as (items & Ep & Hf & _).
  simpl. rewrite Ep. simpl. rewrite length_app. f_equal.
  rewrite <- Len, <- Hf. symmetry. apply length_map.
Qed.

(** C9: every file read from an archive carries the part of its entry name
    after the last slash, and no slash; it enters the queue under that
    name.  Two image entries [a/x] and [b/x] are so given the same name
    [x], and with it the same name in the output. *)
Theorem extracted_files_keep_last_segment (w : World) (zipFile : File)
  (archive : list ZipEntry) (extracted : list File) (st : AppState) :
  isZip zipFile = true ->
  loadAsync w zipFile = Some archive ->
  extractImagesFromZip w zipFile = Some extracted ->
  Forall2 (fun e f => keepsLastSegment (entryName e) (fileName f) /\
                      entryBlob e = Some (fileBlob f))
    (filter isImageEntry archive) extracted /\
  exists items,
    files (applyEffects st (processFiles w [zipFile]))
      = (files st ++ items)%list /\
    map file items = extracted /\
    map originalName items = map fileName extracted /\
    forall config,
      map (fun f => convertedName (originalName f) config) items
        = map (fun f => convertedName (fileName f) config) extracted.
Proof.
  intros Z L E. split.
  - unfold extractImagesFromZip in E. rewrite L in E.
    apply readEntries_each in E.
    assert (Q : Forall (fun e => isImageEntry e = true)
                  (filter isImageEntry archive)).
    { apply Forall_forall. intros e He. apply filter_In in He. tauto. }
    revert Q. induction E as [|e f es fs [Hb Hn] _ IH]; intro Q.
    + constructor.
    + inversion Q as [|? ? Qe Qes]; subst. constructor; [|apply IH, Qes].
      split; [|exact Hb]. rewrite Hn.
      apply cleanName_keeps_last_segment.
      unfold isImageEntry in Qe. apply andb_true_iff in Qe. tauto.
  - rewrite (processFiles_archive w zipFile extracted Z E).
    destruct (pushAll_items w extracted []) as (items & Ep & Hf & Hn & _).
    exists items. simpl. rewrite Ep. simpl.
    split; [reflexivity|]. split; [exact Hf|]. split; [exact Hn|].
    intro config. rewrite <- Hf. rewrite !map_map.
    apply map_ext_in. intros f Hin.
    assert (O : map originalName items = map (fun f => fileName (file f)) items).
    { rewrite Hn, <- Hf, map_map. reflexivity. }
    clear - O Hin. induction items as [|g items IH]; [destruct Hin|].
    simpl in O. injection O as Og Oi.
    destruct Hin as [->|Hin]; [rewrite Og; reflexivity | auto].
Qed.
End Archives.

(** ** The batch run *)

Lemma processImage_file_only (fuel : nat) (w : World) (f g : UploadedFile)
  (config : ProcessingConfig) :
  file f = file g -> processImage fuel w f config = processImage fuel w g config.
Proof. intro H. unfold processImage. rewrite H. reflexivity. Qed.

Lemma updateAt_app (g : UploadedFile -> UploadedFile)
  (done : list UploadedFile) (x : UploadedFile) (rest : list UploadedFile) :
  updateAt (List.length done) g (done ++ x :: rest)
    = (done ++ g x :: rest)%list.
Proof. induction done as [|d done IH]; simpl; congruence. Qed.

Lemma nth_error_middle (done : list UploadedFile) (x : UploadedFile)
  (rest : list UploadedFile) :
  nth_error (done ++ x :: rest) (List.length done) = Some x.
Proof. induction done as [|d done IH]; simpl; auto. Qed.

Section Run.
Variables (fuel : nat) (w : World) (config : ProcessingConfig).

Let settled := settle fuel w config.
Let ok := converted fuel w config.
Let ko := rejected fuel w config.

Lemma processLoop_zip (todo : list UploadedFile) :
  Forall (ends fuel w config) todo ->
  forall (done : list UploadedFile) (sc fc : Z),
  exists es,
    processLoop fuel w config (List.length todo) (List.length done)
      {| updatedFiles := done ++ todo; successCount := sc; failCount := fc |}
    = (es, Some {| updatedFiles := done ++ map settled todo;
                   successCount := sc + Z.of_nat (List.length (filter ok todo));
                   failCount := fc + Z.of_nat (List.length (filter ko todo)) |})
    /\ snapshots es = snapshotsFrom settled done todo
    /\ downloads es = []
    /\ forall st,
         summary (applyEffects st es) = summary st /\
         isProcessing (applyEffects st es) = isProcessing st /\
         files (applyEffects st es)
           = match todo with
             | [] => files st
             | _ => (done ++ map settled todo)%list
             end.
Proof.
  induction 1 as [|x todo Hx _ IH]; intros done sc fc.
  - exists []. simpl. rewrite !Z.add_0_r, app_nil_r. repeat split.
  - simpl List.length. cbn [processLoop updatedFiles successCount failCount].
    rewrite updateAt_app, nth_error_middle.
    rewrite (processImage_file_only fuel w (withStatus Status.processing x) x
               config eq_refl).
    unfold ends in Hx. simpl filter. simpl map.
    assert (Hs : settled x = settle fuel w config x) by reflexivity.
    assert (Hok : ok x = converted fuel w config x) by reflexivity.
    assert (Hko : ko x = rejected fuel w config x) by reflexivity.
    unfold settle in Hs. unfold converted in Hok. unfold rejected in Hko.
    destruct (snd (processImage fuel w x config)) as [blob| |] eqn:O;
      [| |congruence]; cbn [updatedFiles successCount failCount];
      rewrite updateAt_app, Hok, Hko, <- Hs.
    + specialize (IH (done ++ [settled x])%list (sc + 1)%Z fc).
      rewrite <- !app_assoc, length_app in IH. simpl in IH.
      rewrite Nat.add_1_r in IH.
      destruct IH as (es & E & Sn & Dl & St). rewrite E.
      eexists. split; [|split; [|split]].
      * f_equal. f_equal. f_equal; simpl List.length; lia.
      * simpl. rewrite Sn. reflexivity.
      * simpl. exact Dl.
      * intro st. simpl applyEffects.
        match goal with |- context [applyEffects ?s es] =>
          destruct (St s) as (S1 & S2 & S3) end.
        rewrite S1, S2, S3. simpl. split; [reflexivity|].
        split; [reflexivity|]. destruct todo; reflexivity.
    + specialize (IH (done ++ [settled x])%list sc (fc + 1)%Z).
      rewrite <- !app_assoc, length_app in IH. simpl in IH.
      rewrite Nat.add_1_r in IH.
      destruct IH as (es & E & Sn & Dl & St). rewrite E.
      eexists. split; [|split; [|split]].
      * f_equal. f_equal. f_equal; simpl List.length; lia.
      * simpl. rewrite Sn. reflexivity.
      * simpl. exact Dl.
      * intro st. simpl applyEffects.
        match goal with |- context [applyEffects ?s es] =>
          destruct (St s) as (S1 & S2 & S3) end.
        rewrite S1, S2, S3. simpl. split; [reflexivity|].
        split; [reflexivity|]. destruct todo; reflexivity.
Qed.
End Run.

Lemma applyEffects_app (st : AppState) (es1 es2 : list Effect) :
  applyEffects st (es1 ++ es2) = applyEffects (applyEffects st es1) es2.
Proof. apply fold_left_app. Qed.

Lemma snapshots_app (es1 es2 : list Effect) :
  snapshots (es1 ++ es2) = (snapshots es1 ++ snapshots es2)%list.
Proof. apply flat_map_app. Qed.

Lemma downloads_app (es1 es2 : list Effect) :
  downloads (es1 ++ es2) = (downloads es1 ++ downloads es2)%list.
Proof. apply flat_map_app. Qed.

Lemma isPackaged_settle (fuel : nat) (w : World) (config : ProcessingConfig)
  (f : UploadedFile) :
  isPackaged (settle fuel w config f) = converted fuel w config f.
Proof.
  unfold settle, converted.
  destruct (snd (processImage fuel w f config)); reflexivity.
Qed.

Lemma filter_isPackaged_settled (fuel : nat) (w : World)
  (config : ProcessingConfig) (fs : list UploadedFile) :
  filter isPackaged (map (settle fuel w config) fs)
    = map (settle fuel w config) (filter (converted fuel w config) fs).
Proof.
  induction fs as [|f fs IH]; simpl; [reflexivity|].
  rewrite isPackaged_settle, IH.
  destruct (converted fuel w config f); reflexivity.
Qed.

Lemma packagedEntries_filter (fs : list UploadedFile)
  (config : ProcessingConfig) :
  map fst (packagedEntries fs config)
    = map (fun f => convertedName (originalName f) config)
        (filter isPackaged fs).
Proof.
  induction fs as [|f fs IH]; simpl; [reflexivity|].
  unfold isPackaged at 1.
  destruct (status f), (processedBlob f); simpl; congruence.
Qed.

Lemma packagedEntries_length (fs : list UploadedFile)
  (config : ProcessingConfig) :
  List.length (packagedEntries fs config)
    = List.length (filter isPackaged fs).
Proof.
  rewrite <- (length_map fst), packagedEntries_filter. apply length_map.
Qed.

Lemma finish_snapshots (w : World) (config : ProcessingConfig)
  (s : LoopState) : snapshots (finish w config s) = [].
Proof.
  unfold finish. rewrite snapshots_app, app_nil_r.
  destruct (0 <? successCount s)%Z; [|reflexivity].
  destruct (filter isPackaged (updatedFiles s)) as [|f [|g l]].
  - destruct (packageZip w (updatedFiles s) config); reflexivity.
  - destruct (processedBlob f); reflexivity.
  - destruct (packageZip w (updatedFiles s) config); reflexivity.
Qed.

Lemma finish_state (w : World) (config : ProcessingConfig) (s : LoopState)
  (st : AppState) :
  files (applyEffects st (finish w config s)) = files st /\
  isProcessing (applyEffects st (finish w config s)) = false /\
  progress (applyEffects st (finish w config s)) = progress st.
Proof.
  unfold finish. rewrite applyEffects_app.
  destruct (0 <? successCount s)%Z; [|repeat split].
  destruct (filter isPackaged (updatedFiles s)) as [|f [|g l]].
  - destruct (packageZip w (updatedFiles s) config); repeat split.
  - destruct (processedBlob f); repeat split.
  - destruct (packageZip w (updatedFiles s) config); repeat split.
Qed.

(** The summary the run leaves, when it leaves one. *)
Lemma finish_summary (w : World) (config : ProcessingConfig) (s : LoopState)
  (st : AppState) (sm : ProcessSummary) :
  summary st = None -> (0 <= successCount s)%Z ->
  summary (applyEffects st (finish w config s)) = Some sm ->
  total sm = Z.of_nat (List.length (updatedFiles s)) /\
  success sm = successCount s /\ failed sm = failCount s.
Proof.
  intros N P. unfold finish. rewrite applyEffects_app.
  destruct (0 <? successCount s)%Z eqn:Pos.
  - destruct (filter isPackaged (updatedFiles s)) as [|f [|g l]].
    + destruct (packageZip w (updatedFiles s) config); simpl; intro H.
      * injection H as <-. auto.
      * congruence.
    + destruct (processedBlob f); simpl; intro H; injection H as <-; auto.
    + destruct (packageZip w (updatedFiles s) config); simpl; intro H.
      * injection H as <-. auto.
      * congruence.
  - simpl. intro H. injection H as <-. simpl.
    apply Z.ltb_ge in Pos. repeat split. lia.
Qed.

(** The run leaves no summary only when the archive cannot be written. *)
Lemma finish_no_summary (w : World) (config : ProcessingConfig)
  (s : LoopState) (st : AppState) :
  summary (applyEffects st (finish w config s)) = None ->
  packageZip w (updatedFiles s) config = None /\
  List.length (filter isPackaged (updatedFiles s)) <> 1%nat.
Proof.
  unfold finish. rewrite applyEffects_app.
  destruct (0 <? successCount s)%Z; [|simpl; discriminate].
  destruct (filter isPackaged (updatedFiles s)) as [|f [|g l]].
  - destruct (packageZip w (updatedFiles s) config); simpl;
      [discriminate | auto].
  - destruct (processedBlob f); simpl; discriminate.
  - destruct (packageZip w (updatedFiles s) config); simpl;
      [discriminate | auto].
Qed.

Lemma settle_status (fuel : nat) (w : World) (config : ProcessingConfig)
  (f : UploadedFile) :
  match snd (processImage fuel w f config) with
  | Returned blob =>
      status (settle fuel w config f) = Status.success /\
      processedBlob (settle fuel w config f) = Some blob
  | Thrown =>
      status (settle fuel w config f) = Status.error /\
      errorMessage (settle fuel w config f) = Some "Conversion failed"%string
  | Diverged => True
  end.
Proof.
  unfold settle. destruct (snd (processImage fuel w f config)); simpl; auto.
Qed.

(** What [startProcessing] does on a queue that is not empty. *)
Lemma startProcessing_run (fuel : nat) (w : World) (config : ProcessingConfig)
  (st : AppState) :
  files st <> [] ->
  Forall (ends fuel w config) (files st) ->
  exists loop,
    startProcessing fuel w config st
      = (([SetIsProcessing true; SetProgress 0; SetSummary None] ++ loop
          ++ finish w config
               {| updatedFiles := map (settle fuel w config) (files st);
                  successCount :=
                    Z.of_nat (List.length
                                (filter (converted fuel w config) (files st)));
                  failCount :=
                    Z.of_nat (List.length
                                (filter (rejected fuel w config) (files st))) |})%list,
         true) /\
    snapshots loop = snapshotsFrom (settle fuel w config) [] (files st) /\
    downloads loop = [] /\
    forall st',
      summary (applyEffects st' loop) = summary st' /\
      files (applyEffects st' loop) = map (settle fuel w config) (files st).
Proof.
  intros N E.
  destruct (processLoop_zip fuel w config (files st) E [] 0%Z 0%Z)
    as (loop & L & Sn & Dl & St).
  exists loop. unfold startProcessing.
  destruct (files st) as [|f fs] eqn:F; [congruence|].
  change (@List.length UploadedFile []) with O in L.
  change ([] ++ f :: fs)%list with (f :: fs) in L.
  rewrite L. split; [reflexivity|].
  split; [exact Sn|]. split; [exact Dl|].
  intro st'. destruct (St st') as (S1 & _ & S3). split; assumption.
Qed.

(** *** The archive a run asks for, and how the run ends *)

Lemma packagedEntries_settled (fuel : nat) (w : World)
  (config : ProcessingConfig) (fs : list UploadedFile) :
  packagedEntries (map (settle fuel w config) fs) config
    = convertedEntries fuel w config fs.
Proof.
  unfold convertedEntries.
  induction fs as [|f fs IH]; simpl; [reflexivity|].
  rewrite IH. unfold settle.
  destruct (snd (processImage fuel w f config)); reflexivity.
Qed.

Lemma packageArchive_settled (fuel : nat) (w : World)
  (config : ProcessingConfig) (fs : list UploadedFile) :
  packageArchive (map (settle fuel w config) fs) config
    = outputArchive fuel w config fs.
Proof.
  unfold packageArchive, outputArchive.
  rewrite packagedEntries_settled. reflexivity.
Qed.

Lemma converted_or_rejected (fuel : nat) (w : World)
  (config : ProcessingConfig) (fs : list UploadedFile) :
  Forall (ends fuel w config) fs ->
  (List.length (filter (converted fuel w config) fs)
   + List.length (filter (rejected fuel w config) fs))%nat = List.length fs.
Proof.
  induction 1 as [|f fs Hf _ IH]; [reflexivity|].
  simpl. unfold converted at 1, rejected at 1. unfold ends in Hf.
  destruct (snd (processImage fuel w f config)); simpl; try lia. congruence.
Qed.

(** The end of a run with several blobs. *)
Lemma finish_several (fuel : nat) (w : World) (config : ProcessingConfig)
  (fs : list UploadedFile) (fc : Z) :
  (2 <= List.length (filter (converted fuel w config) fs))%nat ->
  finish w config
    {| updatedFiles := map (settle fuel w config) fs;
       successCount :=
         Z.of_nat (List.length (filter (converted fuel w config) fs));
       failCount := fc |}
  = (match generateAsync w (outputArchive fuel w config fs) with
     | Some zipBlob =>
         [SaveAs zipBlob
            ("converted_images_" ++ decimal (now w) ++ ".zip")%string;
          SetSummary
            (Some {| total := Z.of_nat (List.length fs);
                     success :=
                       Z.of_nat (List.length
                                   (filter (converted fuel w config) fs));
                     failed := fc;
                     outputZipName :=
                       ("converted_images_" ++ decimal (now w)
                        ++ ".zip")%string |})]
     | None => [ConsoleError]
     end ++ [SetIsProcessing false])%list.
Proof.
  intro Two. unfold finish. cbn [updatedFiles successCount failCount].
  replace (0 <? Z.of_nat (List.length (filter (converted fuel w config) fs)))%Z
    with true by (symmetry; apply Z.ltb_lt; lia).
  rewrite filter_isPackaged_settled.
  unfold packageZip. rewrite packageArchive_settled, length_map.
  destruct (filter (converted fuel w config) fs) as [|a [|b l]];
    simpl in Two; try lia.
  reflexivity.
Qed.

Lemma summary_congruence (es : list Effect) (a b : AppState) :
  summary a = summary b ->
  summary (applyEffects a es) = summary (applyEffects b es).
Proof.
  revert a b. induction es as [|e es IH]; intros a b H; [exact H|].
  change (summary (applyEffects (applyEffect a e) es)
          = summary (applyEffects (applyEffect b e) es)).
  apply IH. destruct e; simpl; auto.
Qed.

Lemma convertedEntries_names (fuel : nat) (w : World)
  (config : ProcessingConfig) (fs : list UploadedFile) :
  map fst (entries (outputArchive fuel w config fs))
    = map (fun f => convertedName (originalName f) config)
        (filter (converted fuel w config) fs).
Proof.
  unfold outputArchive, convertedEntries. cbn [entries].
  induction fs as [|f fs IH]; [reflexivity|].
  cbn [flat_map filter]. unfold converted at 1.
  destruct (snd (processImage fuel w f config)); simpl; rewrite ?IH;
    reflexivity.
Qed.

(** ** C3, C8 and C10: the run *)

(** C3: on a queue whose conversions all end, the run takes the items one
    after the other, in the order of the queue.  An item whose conversion
    throws is left in [error] with the message [Conversion failed], and the
    run goes on with the next one; an item whose conversion gives a blob is
    left in [success] with that blob.  Every item is counted once, as
    converted or as failed.  What the run then offers and what summary it
    leaves goes by the number of converted items: none, no download and a
    summary without a name; one, its blob under its converted name; two or
    more, the archive [packageZip] is asked for, with one entry for each
    converted item in the order of the queue, under the name
    [converted_images_<time>.zip].  The summary counts the queue, the blobs
    and the exceptions.  Only when the archive library fails to write the
    archive is there no download and no summary. *)
Theorem startProcessing_attempts_every_item (fuel : nat) (w : World)
  (config : ProcessingConfig) (st : AppState) :
  files st <> [] ->
  Forall (ends fuel w config) (files st) ->
  let done := filter (converted fuel w config) (files st) in
  let counts := fun name : string =>
    Some {| total := Z.of_nat (List.length (files st));
            success := Z.of_nat (List.length done);
            failed :=
              Z.of_nat (List.length
                          (filter (rejected fuel w config) (files st)));
            outputZipName := name |} in
  let zipName := ("converted_images_" ++ decimal (now w) ++ ".zip")%string in
  exists es,
    startProcessing fuel w config st = (es, true) /\
    snapshots es = snapshotsFrom (settle fuel w config) [] (files st) /\
    files (applyEffects st es) = map (settle fuel w config) (files st) /\
    (forall f, In f (files st) ->
       match snd (processImage fuel w f config) with
       | Returned blob =>
           status (settle fuel w config f) = Status.success /\
           processedBlob (settle fuel w config f) = Some blob
       | Thrown =>
           status (settle fuel w config f) = Status.error /\
           errorMessage (settle fuel w config f)
             = Some "Conversion failed"%string
       | Diverged => False
       end) /\
    (List.length done
     + List.length (filter (rejected fuel w config) (files st)))%nat
      = List.length (files st) /\
    match done with
    | [] =>
        downloads es = [] /\
        summary (applyEffects st es) = counts EmptyString
    | [f] =>
        exists blob,
          snd (processImage fuel w f config) = Returned blob /\
          downloads es = [(blob, convertedName (originalName f) config)] /\
          summary (applyEffects st es)
            = counts (convertedName (originalName f) config)
    | _ =>
        match generateAsync w (outputArchive fuel w config (files st)) with
        | Some zipBlob =>
            downloads es = [(zipBlob, zipName)] /\
            summary (applyEffects st es) = counts zipName
        | None =>
            downloads es = [] /\ summary (applyEffects st es) = None
        end
    end /\
    packageArchive (files (applyEffects st es)) config
      = outputArchive fuel w config (files st) /\
    map fst (entries (outputArchive fuel w config (files st)))
      = map (fun f => convertedName (originalName f) config) done /\
    (forall sm, summary (applyEffects st es) = Some sm ->
       total sm = Z.of_nat (List.length (files st)) /\
       success sm = Z.of_nat (List.length done) /\
       failed sm
         = Z.of_nat (List.length (filter (rejected fuel w config) (files st)))) /\
    (summary (applyEffects st es) = None ->
       packageZip w (files (applyEffects st es)) config = None) /\
    List.length (entries (packageArchive (files (applyEffects st es)) config))
      = List.length done.
Proof.
  intros N E. cbv zeta.
  destruct (startProcessing_run fuel w config st N E)
    as (loop & R & Sn & Dl & St).
  set (s := {| updatedFiles := map (settle fuel w config) (files st);
               successCount := Z.of_nat (List.length
                                 (filter (converted fuel w config) (files st)));
               failCount := Z.of_nat (List.length
                                 (filter (rejected fuel w config) (files st))) |})
    in *.
  set (pre := [SetIsProcessing true; SetProgress 0; SetSummary None]) in *.
  assert (F : files (applyEffects st (pre ++ loop ++ finish w config s))
              = map (settle fuel w config) (files st)).
  { rewrite !applyEffects_app.
    destruct (finish_state w config s (applyEffects (applyEffects st pre) loop))
      as (F1 & _).
    rewrite F1. apply St. }
  assert (D : downloads (pre ++ loop ++ finish w config s)
              = downloads (finish w config s)).
  { rewrite !downloads_app, Dl. reflexivity. }
  assert (Sm : forall fin went,
            summary (applyEffects
                       {| files := []; isProcessing := false; progress := 0;
                          summary := None |} fin) = went ->
            summary (applyEffects st (pre ++ loop ++ fin)) = went).
  { intros fin went H. rewrite <- H, !applyEffects_app.
    apply summary_congruence.
    destruct (St (applyEffects st pre)) as [S1 _]. rewrite S1. reflexivity. }
  eexists. split; [exact R|].
  split; [rewrite !snapshots_app, finish_snapshots, app_nil_r; exact Sn|].
  split; [exact F|].
  split.
  { intros f Hin. pose proof (settle_status fuel w config f) as H.
    rewrite Forall_forall in E. specialize (E f Hin). unfold ends in E.
    destruct (snd (processImage fuel w f config)); auto. }
  split; [apply converted_or_rejected; exact E|].
  split.
  { rewrite D.
    destruct (filter (converted fuel w config) (files st))
      as [|f [|g l]] eqn:Done.
    - split; [reflexivity|]. apply Sm. unfold finish, s. simpl.
      rewrite length_map. reflexivity.
    - assert (C : converted fuel w config f = true).
      { assert (I : In f (filter (converted fuel w config) (files st)))
          by (rewrite Done; left; reflexivity).
        apply filter_In in I. apply I. }
      unfold converted in C.
      destruct (snd (processImage fuel w f config)) as [blob| |] eqn:O;
        try discriminate.
      exists blob. split; [reflexivity|].
      assert (Fin : finish w config s
                = [SaveAs blob (convertedName (originalName f) config);
                   SetSummary (Some
                     {| total := Z.of_nat (List.length (files st));
                        success := Z.of_nat 1;
                        failed := Z.of_nat (List.length
                                    (filter (rejected fuel w config) (files st)));
                        outputZipName :=
                          convertedName (originalName f) config |});
                   SetIsProcessing false]).
      { unfold finish, s. cbn [updatedFiles successCount failCount].
        rewrite filter_isPackaged_settled, Done, length_map. simpl map.
        unfold settle at 1 2 3. rewrite O. reflexivity. }
      rewrite Fin. split; [reflexivity|]. apply Sm. reflexivity.
    - assert (Two : (2 <= List.length (filter (converted fuel w config)
                                         (files st)))%nat)
        by (rewrite Done; simpl; lia).
      pose proof (finish_several fuel w config (files st)
                    (Z.of_nat (List.length
                                 (filter (rejected fuel w config) (files st))))
                    Two) as Fin.
      rewrite Done in Fin. fold s in Fin. rewrite Fin.
      destruct (generateAsync w (outputArchive fuel w config (files st)));
        (split; [reflexivity|]); apply Sm; reflexivity. }
  split; [rewrite F; apply packageArchive_settled|].
  split.
  { apply convertedEntries_names. }
  split.
  { intros sm H. rewrite !applyEffects_app in H.
    apply finish_summary in H.
    + destruct H as (H1 & H2 & H3). subst s. simpl in *.
      rewrite length_map in H1. auto.
    + destruct (St (applyEffects st pre)) as [S1 _]. rewrite S1. reflexivity.
    + subst s. simpl. lia. }
  split.
  { intro H. rewrite F. rewrite !applyEffects_app in H.
    apply finish_no_summary in H. apply H. }
  rewrite F. unfold packageArchive. simpl entries.
  rewrite packagedEntries_length, filter_isPackaged_settled.
  apply length_map.
Qed.

(** Scenario C: three images, the second of which cannot be decoded.  The
    summary counts 3, 2 and 1, and the one download of the run is the
    archive, asked for with the two converted images. *)
Lemma startProcessing_attempts_every_item_witness :
  exists es zipBlob,
    startProcessing 0 sampleWorld defaultConfig threeImages = (es, true) /\
    summary (applyEffects threeImages es)
      = Some {| total := 3; success := 2; failed := 1;
                outputZipName := "converted_images_1700000000000.zip" |} /\
    generateAsync sampleWorld
      (outputArchive 0 sampleWorld defaultConfig (files threeImages))
      = Some zipBlob /\
    downloads es = [(zipBlob, "converted_images_1700000000000.zip"%string)] /\
    map fst (entries (outputArchive 0 sampleWorld defaultConfig
                        (files threeImages)))
      = ["first_800x600_converted.jpeg"%string;
         "third_800x600_converted.jpeg"%string] /\
    List.length
      (entries (packageArchive (files (applyEffects threeImages es))
                  defaultConfig)) = 2%nat.
Proof.
  destruct (startProcessing_attempts_every_item 0 sampleWorld defaultConfig
              threeImages)
    as (es & R & _ & _ & _ & _ & O & _ & Names & _ & _ & L).
  - discriminate.
  - repeat constructor; discriminate.
  - exists es. eexists. split; [exact R|].
    change (filter (converted 0 sampleWorld defaultConfig) (files threeImages))
      with [queued "first.png"; queued "third.png"] in O.
    change (generateAsync sampleWorld
              (outputArchive 0 sampleWorld defaultConfig (files threeImages)))
      with (Some {| blobBytes := "converted_800x600"%string;
                    blobType := "application/zip"%string |}) in O.
    cbv beta iota in O. destruct O as [Dn Sm].
    split; [exact Sm|]. split; [reflexivity|]. split; [exact Dn|].
    split; [exact Names | exact L].
Defined.

(** C8: when exactly one item of the run is converted, its blob is the one
    download of the run, under the name of the item without its extension
    (the whole name when there is nothing before the last dot, or no dot),
    followed by [_converted.] and the extension of the format, with the width
    and the height in between ([_WxH]) unless the original size is kept; the
    summary carries the same name. *)
Theorem startProcessing_single_download (fuel : nat) (w : World)
  (config : ProcessingConfig) (st : AppState) (f : UploadedFile)
  (blob : Blob) (stem : string) :
  Forall (ends fuel w config) (files st) ->
  filter (converted fuel w config) (files st) = [f] ->
  snd (processImage fuel w f config) = Returned blob ->
  isBaseName (originalName f) stem ->
  let name :=
    (if keepOriginalSize config
     then stem ++ "_converted." ++ extensionOf (format config)
     else stem ++ "_" ++ decimal (width config) ++ "x"
            ++ decimal (height config) ++ "_converted."
            ++ extensionOf (format config))%string in
  exists es,
    startProcessing fuel w config st = (es, true) /\
    downloads es = [(blob, name)] /\
    exists sm,
      summary (applyEffects st es) = Some sm /\
      outputZipName sm = name /\ success sm = 1%Z.
Proof.
  intros E One O Stem. cbv zeta.
  assert (N : files st <> []).
  { intro H. rewrite H in One. discriminate. }
  destruct (startProcessing_run fuel w config st N E)
    as (loop & R & Sn & Dl & St).
  rewrite One in R. simpl List.length in R.
  assert (Fin : finish w config
            {| updatedFiles := map (settle fuel w config) (files st);
               successCount := Z.of_nat 1;
               failCount := Z.of_nat (List.length
                              (filter (rejected fuel w config) (files st))) |}
          = [SaveAs blob (convertedName (originalName f) config);
             SetSummary (Some
               {| total := Z.of_nat (List.length
                             (map (settle fuel w config) (files st)));
                  success := Z.of_nat 1;
                  failed := Z.of_nat (List.length
                              (filter (rejected fuel w config) (files st)));
                  outputZipName := convertedName (originalName f) config |});
             SetIsProcessing false]).
  { unfold finish. cbn [updatedFiles successCount failCount].
    rewrite filter_isPackaged_settled, One. simpl map.
    unfold settle at 1 2 3. rewrite O. reflexivity. }
  rewrite Fin in R.
  assert (Name : convertedName (originalName f) config
                 = (if keepOriginalSize config
                    then stem ++ "_converted." ++ extensionOf (format config)
                    else stem ++ "_" ++ decimal (width config) ++ "x"
                           ++ decimal (height config) ++ "_converted."
                           ++ extensionOf (format config))%string).
  { unfold convertedName. rewrite format_extension.
    destruct Stem as [[Stem NE] | [-> [Dot | Stem]]].
    - rewrite (baseName_stem _ _ Stem).
      destruct stem; [congruence | reflexivity].
    - rewrite (baseName_no_dot _ Dot). reflexivity.
    - rewrite (baseName_stem _ _ Stem). reflexivity. }
  rewrite Name in R.
  eexists. split; [exact R|]. split.
  - rewrite !downloads_app, Dl. reflexivity.
  - eexists. rewrite !applyEffects_app. simpl. split; [reflexivity|].
    split; reflexivity.
Qed.

(** Scenario B: [photo.png], converted alone to a 300 x 300 PNG. *)
Lemma startProcessing_single_download_witness :
  let config := withTarget false 300 300 PNG defaultConfig in
  exists es,
    startProcessing 0 sampleWorld config onePhoto = (es, true) /\
    downloads es
      = [({| blobBytes := "encoded"; blobType := "image/png" |},
          "photo_300x300_converted.png"%string)].
Proof.
  cbv zeta.
  destruct (startProcessing_single_download 0 sampleWorld
              (withTarget false 300 300 PNG defaultConfig) onePhoto
              (queued "photo.png")
              {| blobBytes := "encoded"; blobType := "image/png" |}
              "photo"%string)
    as (es & R & D & _).
  - repeat constructor; discriminate.
  - reflexivity.
  - reflexivity.
  - left. split; [|discriminate]. exists "png"%string. split; reflexivity.
  - exists es. split; [exact R | exact D].
Defined.

(** C10: on an empty queue [startProcessing] returns at once: it sets
    nothing, so that the state (the processing flag, the progress, the items
    and the summary) is as it was, and it offers no download. *)
Theorem startProcessing_empty_queue (fuel : nat) (w : World)
  (config : ProcessingConfig) (st : AppState) :
  files st = [] ->
  startProcessing fuel w config st = ([], true) /\
  applyEffects st (fst (startProcessing fuel w config st)) = st /\
  downloads (fst (startProcessing fuel w config st)) = [].
Proof.
  intro H. unfold startProcessing. rewrite H. repeat split.
Qed.

(** The empty queue of a fresh page. *)
Lemma startProcessing_empty_queue_witness :
  startProcessing 0 sampleWorld defaultConfig emptyState = ([], true) /\
  applyEffects emptyState
    (fst (startProcessing 0 sampleWorld defaultConfig emptyState))
    = emptyState.
Proof.
  destruct (startProcessing_empty_queue 0 sampleWorld defaultConfig emptyState
              eq_refl) as (R & S & _).
  split; [exact R | exact S].
Defined.

(** ** The conversion ends *)

Lemma bind_ends {A B} (m : Canvas A) (k : A -> Canvas B) :
  snd m <> Diverged -> (forall a, snd (k a) <> Diverged) ->
  snd (bind m k) <> Diverged.
Proof.
  destruct m as [t [a| |]]; simpl; intros Hm Hk; try congruence.
  specialize (Hk a). destruct (k a); exact Hk.
Qed.

Lemma drawWM_ends (w : World) (config : ProcessingConfig) (wmImg : Image)
  (tw th cx cy : Q) :
  snd (drawWM w config wmImg tw th cx cy) <> Diverged.
Proof. unfold drawWM. destruct (drawFails w cx cy); discriminate. Qed.

Lemma forEach_ends (ps : list (Q * Q)) (body : Q -> Q -> Canvas unit) :
  (forall x y, snd (body x y) <> Diverged) ->
  snd (forEach ps body) <> Diverged.
Proof.
  intro H. induction ps as [|[x y] ps IH]; simpl; [discriminate|].
  apply bind_ends; auto.
Qed.

(** In a mode that is not tiled nothing loops: [processImage] ends, whatever
    the turns the loops are given. *)
Lemma processImage_ends (fuel : nat) (w : World) (f : UploadedFile)
  (config : ProcessingConfig) :
  watermarkMode config <> Tiled -> ends fuel w config f.
Proof.
  intro M. unfold ends, processImage.
  destruct (loadImage w (file f)) as [img|] eqn:D; [|discriminate].
  destruct (getContext w); simpl negb; cbv iota; [|discriminate].
  assert (G : snd (compose fuel w img config) <> Diverged).
  { unfold compose, overlay.
    apply bind_ends; [rewrite drawBase_returns; discriminate|]. intros _.
    destruct (watermarkSource config) as [url|] eqn:S; [|discriminate].
    assert (E : forall m : Canvas unit,
              snd m <> Diverged -> snd (tryCatch m) <> Diverged).
    { intros [t [[]| |]]; simpl; congruence. }
    apply E. unfold drawWatermark.
    destruct (loadWatermarkImage w url) as [wmImg|] eqn:DW; [|discriminate].
    apply bind_ends; [discriminate|]. intros _.
    apply bind_ends; [destruct (watermarkColorMode config); discriminate|].
    intros _. apply bind_ends; [discriminate|]. intros _.
    apply bind_ends; [|discriminate].
    destruct (watermarkMode config); try congruence;
      apply forEach_ends; intros; apply drawWM_ends. }
  destruct (compose fuel w img config) as [t [[]| |]]; simpl in *;
    try congruence.
  destruct (toBlob w t (format config) (quality config)); discriminate.
Qed.

(** ** The archive of the scenarios *)

Lemma archive_intake_counts_witness :
  exists extracted,
    extractImagesFromZip archiveWorld zipUpload = Some extracted /\
    List.length extracted = 2%nat /\
    List.length (files (applyEffects emptyState
                          (processFiles archiveWorld [zipUpload]))) = 2%nat.
Proof.
  destruct (archive_intake_counts archiveWorld zipUpload sampleArchive
              emptyState eq_refl eq_refl)
    as (_ & _ & extracted & E & L & Q).
  - intros e [<-|[<-|[<-|[<-|[]]]]] _; discriminate.
  - exists extracted. split; [exact E|]. split; [exact L | exact Q].
Defined.

(** The two images of the sample archive enter the queue as [photo.PNG]. *)
Lemma extracted_files_keep_last_segment_witness :
  exists items,
    files (applyEffects emptyState (processFiles archiveWorld [zipUpload]))
      = items /\
    map originalName items = ["photo.PNG"; "photo.PNG"]%string.
Proof.
  destruct (extracted_files_keep_last_segment archiveWorld zipUpload
              sampleArchive
              [ {| fileBlob := pngBlob "first"; fileName := "photo.PNG" |};
                {| fileBlob := pngBlob "second"; fileName := "photo.PNG" |} ]
              emptyState eq_refl eq_refl eq_refl)
    as (_ & items & F & _ & N & _).
  exists items. split; [exact F | exact N].
Defined.

(** The two images of the archive, once converted, are handed to the output
    archive under one and the same name. *)
Example archive_duplicates_share_output_name :
  let queue := applyEffects emptyState (processFiles archiveWorld [zipUpload]) in
  let run := fst (startProcessing 0 archiveWorld defaultConfig queue) in
  map fst (entries (packageArchive (files (applyEffects queue run))
                      defaultConfig))
    = ["photo_800x600_converted.jpeg"; "photo_800x600_converted.jpeg"]%string.
Proof. reflexivity. Qed.

(** * Further properties of the code *)

(** ** The compositor: how it fails, and what it leaves alone *)

Lemma overlay_never_throws (fuel : nat) (w : World) (img : Image)
  (config : ProcessingConfig) :
  snd (overlay fuel w img config) <> Thrown.
Proof.
  unfold overlay. destruct (watermarkSource config).
  - apply tryCatch_not_thrown.
  - discriminate.
Qed.

(** X1: [processImage] rejects exactly when the image does not load, when
    the canvas gives no 2D context, or when the encoder hands back [null] for
    the finished canvas; nothing that happens to the watermark makes it
    reject. *)
Theorem processImage_throws_iff (fuel : nat) (w : World) (f : UploadedFile)
  (config : ProcessingConfig) :
  snd (processImage fuel w f config) = Thrown <->
  loadImage w (file f) = None \/
  getContext w = false \/
  (loadImage w (file f) <> None /\
   snd (processImage fuel w f config) <> Diverged /\
   toBlob w (fst (processImage fuel w f config)) (format config)
     (quality config) = None).
Proof.
  destruct (loadImage w (file f)) as [img|] eqn:D.
  2:{ unfold processImage. rewrite D. simpl. tauto. }
  destruct (getContext w) eqn:C.
  2:{ unfold processImage. rewrite D, C. simpl. tauto. }
  rewrite (processImage_outcome fuel w f config img D C).
  rewrite (processImage_trace fuel w f config img D C).
  pose proof (overlay_never_throws fuel w img config) as N.
  rewrite <- compose_outcome in N.
  destruct (snd (compose fuel w img config)) as [[]| |].
  - destruct (toBlob w (fst (compose fuel w img config)) (format config)
                (quality config)) as [blob|].
    + split; [discriminate|].
      intros [H|[H|(_ & _ & H)]]; discriminate.
    + split; [|reflexivity]. intros _. right; right.
      repeat split; discriminate.
  - congruence.
  - split; [discriminate|].
    intros [H|[H|(_ & H & _)]]; congruence.
Qed.

Lemma watermarkSource_none (config : ProcessingConfig) :
  watermarkSource config = None <->
  watermarkEnabled config = false \/ watermarkImageUrl config = None \/
  watermarkImageUrl config = Some EmptyString.
Proof.
  unfold watermarkSource.
  destruct (watermarkEnabled config); [|tauto].
  destruct (watermarkImageUrl config) as [[|c s]|].
  - tauto.
  - split; [discriminate|]. intros [H|[H|H]]; discriminate.
  - tauto.
Qed.

(** X3: with the watermark switched off, or with no address (none, or the
    empty one) to load it from, [processImage] makes the calls of the base
    draw and no other: it saves no state, sets no opacity or filter and draws
    nothing else. *)
Theorem processImage_without_watermark (fuel : nat) (w : World)
  (f : UploadedFile) (config : ProcessingConfig) (img : Image) :
  loadImage w (file f) = Some img -> getContext w = true ->
  watermarkEnabled config = false \/ watermarkImageUrl config = None \/
  watermarkImageUrl config = Some EmptyString ->
  fst (processImage fuel w f config) = fst (drawBase img config) /\
  snd (processImage fuel w f config)
    = match toBlob w (fst (drawBase img config)) (format config)
              (quality config) with
      | Some blob => Returned blob
      | None => Thrown
      end.
Proof.
  intros D C H. apply watermarkSource_none in H.
  assert (T : fst (processImage fuel w f config) = fst (drawBase img config)).
  { rewrite (processImage_trace fuel w f config img D C), compose_trace.
    unfold overlay. rewrite H. apply app_nil_r. }
  split; [exact T|].
  rewrite (processImage_outcome fuel w f config img D C).
  rewrite compose_outcome.
  rewrite <- (processImage_trace fuel w f config img D C), T.
  unfold overlay. rewrite H. reflexivity.
Qed.

(** The starting configuration has the watermark off. *)
Lemma processImage_without_watermark_witness :
  fst (processImage 0 sampleWorld (queued "photo.jpg") defaultConfig)
    = fst (drawBase {| imgWidth := 1600; imgHeight := 900 |} defaultConfig).
Proof.
  apply (processImage_without_watermark 0 sampleWorld (queued "photo.jpg")
           defaultConfig {| imgWidth := 1600; imgHeight := 900 |}
           eq_refl eq_refl (or_introl eq_refl)).
Defined.

(** ** The watermark: one place, one size, a balanced context *)

Lemma centers_flat_map {A : Type} (g : A -> list CanvasOp) (l : list A) :
  centers (flat_map g l) = flat_map (fun a => centers (g a)) l.
Proof.
  induction l as [|a l IH]; simpl; [reflexivity|].
  rewrite centers_app, IH. reflexivity.
Qed.

(** One watermark, drawn without an exception. *)
Lemma drawWM_stamp (w : World) (config : ProcessingConfig) (wmImg : Image)
  (tw th cx cy : Q) :
  drawFails w cx cy = false ->
  drawWM w config wmImg tw th cx cy
    = (stamp config wmImg tw th (cx, cy), Returned tt).
Proof. intro H. unfold drawWM. rewrite H. reflexivity. Qed.

Lemma centers_stamps (config : ProcessingConfig) (wmImg : Image) (tw th : Q)
  (ps : list (Q * Q)) :
  centers (flat_map (stamp config wmImg tw th) ps) = ps.
Proof.
  rewrite centers_flat_map. induction ps as [|[x y] ps IH]; [reflexivity|].
  cbn [flat_map]. rewrite IH. reflexivity.
Qed.

Lemma forEach_stamps (w : World) (config : ProcessingConfig) (wmImg : Image)
  (tw th : Q) (ps : list (Q * Q)) :
  (forall x y, drawFails w x y = false) ->
  forEach ps (drawWM w config wmImg tw th)
    = (flat_map (stamp config wmImg tw th) ps, Returned tt).
Proof.
  intro F. induction ps as [|[x y] ps IH]; [reflexivity|].
  cbn [forEach]. rewrite (drawWM_stamp w config wmImg tw th x y (F x y)), IH.
  reflexivity.
Qed.

(** In the modes that are not tiled, when no draw throws, the block makes
    the calls of its opening, those of one watermark for each point of
    [positions], and its [restore]. *)
Lemma drawWatermark_fixed_trace (fuel : nat) (w : World)
  (config : ProcessingConfig) (cw ch : Q) (url : string) (wmImg : Image) :
  loadWatermarkImage w url = Some wmImg ->
  watermarkMode config <> Tiled ->
  (forall x y, drawFails w x y = false) ->
  drawWatermark fuel w config cw ch url
    = ((opening config
        ++ flat_map (stamp config wmImg (targetWmWidth cw config)
                       (targetWmHeight cw config wmImg))
             (positions config cw ch (targetWmWidth cw config)
                (targetWmHeight cw config wmImg))
        ++ [Restore])%list, Returned tt).
Proof.
  intros D M F. unfold drawWatermark. rewrite D.
  set (tw := targetWmWidth cw config).
  set (th := targetWmHeight cw config wmImg).
  assert (E : (match watermarkMode config with
               | Tiled =>
                   drawTiled fuel cw ch (stepX cw config)
                     (stepY cw config wmImg) (drawWM w config wmImg tw th)
               | _ => forEach (positions config cw ch tw th)
                        (drawWM w config wmImg tw th)
               end) = forEach (positions config cw ch tw th)
                        (drawWM w config wmImg tw th)).
  { destruct (watermarkMode config); congruence. }
  rewrite E, (forEach_stamps w config wmImg tw th _ F). unfold opening.
  destruct (watermarkColorMode config); reflexivity.
Qed.

(** X4: in the single mode the watermark is drawn exactly once: after the
    base draw the calls are those that open the block, those of one
    watermark ([save], [translate] to the centre, [rotate], one [drawImage]
    of the watermark image, [restore]) and the closing [restore].  At the
    custom position its centre is ([customX] percent of the canvas width,
    [customY] percent of the canvas height), a point of the canvas when both
    percentages are between 0 and 100. *)
Theorem processImage_single_custom_center (fuel : nat) (w : World)
  (f : UploadedFile) (config : ProcessingConfig) (img : Image)
  (url : string) (wmImg : Image) :
  loadImage w (file f) = Some img -> getContext w = true ->
  watermarkSource config = Some url ->
  loadWatermarkImage w url = Some wmImg ->
  (0 < imgWidth wmImg)%Z -> (0 < imgHeight wmImg)%Z ->
  (forall x y, drawFails w x y = false) ->
  watermarkMode config = Single ->
  0 <= canvasWidth img config -> 0 <= canvasHeight img config ->
  (exists c,
     fst (processImage fuel w f config)
       = (fst (drawBase img config) ++ opening config
          ++ [Save; Translate (fst c) (snd c);
              Rotate (watermarkRotation config);
              DrawImageScaled wmImg
                (- (targetWmWidth (canvasWidth img config) config / 2))
                (- (targetWmHeight (canvasWidth img config) config wmImg / 2))
                (targetWmWidth (canvasWidth img config) config)
                (targetWmHeight (canvasWidth img config) config wmImg);
              Restore]
          ++ [Restore])%list /\
     centers (fst (processImage fuel w f config)) = [c]) /\
  (watermarkPosition config = Custom ->
   0 <= customX config -> customX config <= 100 ->
   0 <= customY config -> customY config <= 100 ->
   exists cx cy,
     centers (fst (processImage fuel w f config)) = [(cx, cy)] /\
     cx == customX config / 100 * canvasWidth img config /\
     cy == customY config / 100 * canvasHeight img config /\
     0 <= cx /\ cx <= canvasWidth img config /\
     0 <= cy /\ cy <= canvasHeight img config).
Proof.
  intros D C S DW _ _ F M Hw Hh.
  assert (T : fst (processImage fuel w f config)
              = (fst (drawBase img config) ++ opening config
                 ++ flat_map (stamp config wmImg
                                (targetWmWidth (canvasWidth img config) config)
                                (targetWmHeight (canvasWidth img config) config
                                   wmImg))
                      (positions config (canvasWidth img config)
                         (canvasHeight img config)
                         (targetWmWidth (canvasWidth img config) config)
                         (targetWmHeight (canvasWidth img config) config wmImg))
                 ++ [Restore])%list).
  { rewrite (processImage_trace fuel w f config img D C), compose_trace.
    unfold overlay. rewrite S, tryCatch_trace.
    rewrite (drawWatermark_fixed_trace fuel w config _ _ url wmImg DW);
      [reflexivity | congruence | assumption]. }
  rewrite (processImage_centers fuel w f config img url D C S).
  rewrite (drawWatermark_fixed_centers fuel w config _ _ url wmImg DW);
    [|congruence|assumption].
  rewrite T. unfold positions. rewrite M. split.
  { eexists. split; [|reflexivity]. cbn [flat_map]. rewrite app_nil_r.
    reflexivity. }
  intros P X0 X1 Y0 Y1. rewrite P.
  eexists _, _. split; [reflexivity|].
  split; [reflexivity|]. split; [reflexivity|].
  set (cw := canvasWidth img config) in *.
  set (ch := canvasHeight img config) in *.
  set (x := customX config) in *. set (y := customY config) in *.
  clearbody cw ch x y. constants.
  assert (A : 0 <= x * (1 # 100)) by lra.
  assert (B : x * (1 # 100) <= 1) by lra.
  assert (A' : 0 <= y * (1 # 100)) by lra.
  assert (B' : y * (1 # 100) <= 1) by lra.
  split; [apply Qmult_le_0_compat; assumption|].
  split; [|split; [apply Qmult_le_0_compat; assumption|]].
  - setoid_replace cw with (1 * cw) at 2 by ring.
    apply Qmult_le_compat_r; assumption.
  - setoid_replace ch with (1 * ch) at 2 by ring.
    apply Qmult_le_compat_r; assumption.
Qed.

(** Scenario D: at (20, 80) on the 1000 x 500 canvas, the centre is
    (200, 400). *)
Lemma processImage_single_custom_center_witness :
  exists cx cy,
    centers (fst (processImage 0 sampleWorld (queued "photo.jpg") scenarioD))
      = [(cx, cy)] /\ cx == 200 /\ cy == 400.
Proof.
  destruct (processImage_single_custom_center 0 sampleWorld
              (queued "photo.jpg") scenarioD
              {| imgWidth := 1600; imgHeight := 900 |}
              "data:image/png;base64,AAAA"%string
              {| imgWidth := 100; imgHeight := 50 |}
              eq_refl eq_refl eq_refl eq_refl eq_refl eq_refl
              (fun _ _ => eq_refl) eq_refl)
    as (_ & H); [discriminate | discriminate |].
  destruct H as (cx & cy & E & Ex & Ey & _);
    [reflexivity | discriminate | discriminate | discriminate | discriminate |].
  exists cx, cy. split; [exact E|]. split.
  - rewrite Ex. reflexivity.
  - rewrite Ey. reflexivity.
Defined.

(** X5: at a corner position of the single mode the watermark, before it is
    rotated, stands off the two edges of that corner by the padding exactly,
    3 percent of the longer side of the canvas; at the centre position its
    centre is the centre of the canvas. *)
Theorem positions_single_inset (config : ProcessingConfig) (cw ch tw th : Q) :
  watermarkMode config = Single ->
  exists cx cy,
    positions config cw ch tw th = [(cx, cy)] /\
    padding cw ch == (3 # 100) * Qmax cw ch /\
    match watermarkPosition config with
    | TopLeft =>
        cx - tw / 2 == padding cw ch /\ cy - th / 2 == padding cw ch
    | TopRight =>
        cw - (cx + tw / 2) == padding cw ch /\ cy - th / 2 == padding cw ch
    | BottomLeft =>
        cx - tw / 2 == padding cw ch /\ ch - (cy + th / 2) == padding cw ch
    | BottomRight =>
        cw - (cx + tw / 2) == padding cw ch /\
        ch - (cy + th / 2) == padding cw ch
    | Center => cx == cw / 2 /\ cy == ch / 2
    | Custom => True
    end.
Proof.
  intro M. unfold positions. rewrite M.
  assert (P : padding cw ch == (3 # 100) * Qmax cw ch)
    by (unfold padding; ring).
  destruct (watermarkPosition config);
    (eexists _, _; split; [reflexivity|]; split; [exact P|]);
    try exact I; simpl fst; simpl snd; split; try reflexivity; ring.
Qed.

(** The starting position, bottom right, on a canvas of 800 x 600 with a
    watermark of 160 x 80: 24 pixels off the right and the bottom edge. *)
Lemma positions_single_inset_witness :
  exists cx cy,
    positions (withWatermark Single defaultConfig) 800 600 160 80 = [(cx, cy)]
    /\ 800 - (cx + 160 / 2) == 24 /\ 600 - (cy + 80 / 2) == 24.
Proof.
  destruct (positions_single_inset (withWatermark Single defaultConfig)
              800 600 160 80 eq_refl) as (cx & cy & E & P & R & B).
  exists cx, cy. split; [exact E|]. split.
  - rewrite R, P. reflexivity.
  - rewrite B, P. reflexivity.
Defined.

Lemma drawWatermark_calls (fuel : nat) (w : World) (config : ProcessingConfig)
  (cw ch : Q) (url : string) (wmImg : Image) :
  loadWatermarkImage w url = Some wmImg ->
  Forall (isWatermarkCall config wmImg (targetWmWidth cw config)
            (targetWmHeight cw config wmImg))
    (fst (drawWatermark fuel w config cw ch url)).
Proof.
  intro DW. unfold drawWatermark. rewrite DW.
  set (tw := targetWmWidth cw config).
  set (th := targetWmHeight cw config wmImg).
  assert (B : forall cx cy,
            Forall (isWatermarkCall config wmImg tw th)
              (fst (drawWM w config wmImg tw th cx cy))).
  { intros. apply drawWM_Forall; simpl; auto. }
  apply bind_Forall; [apply call_Forall; exact I|]. intros _.
  apply bind_Forall.
  { destruct (watermarkColorMode config) eqn:G; simpl; constructor.
    - simpl. auto.
    - constructor. }
  intros _. apply bind_Forall; [apply call_Forall; reflexivity|]. intros _.
  apply bind_Forall; [|intros _; apply call_Forall; exact I].
  destruct (watermarkMode config);
    try (apply forEach_Forall; intros; apply B).
  apply drawTiled_Forall. intros. apply B.
Qed.

(** X6: whatever the mode, every copy of the watermark is drawn at one and
    the same size, the scale percentage of the canvas width by the height
    that keeps the proportions of the watermark image, centred on its place,
    with the one rotation and the one opacity of the configuration; the block
    draws no other image and paints nothing. *)
Theorem processImage_watermark_uniform (fuel : nat) (w : World)
  (f : UploadedFile) (config : ProcessingConfig) (img : Image)
  (url : string) (wmImg : Image) :
  loadImage w (file f) = Some img -> getContext w = true ->
  watermarkSource config = Some url ->
  loadWatermarkImage w url = Some wmImg ->
  (0 < imgWidth wmImg)%Z -> (0 < imgHeight wmImg)%Z ->
  let tw := targetWmWidth (canvasWidth img config) config in
  let th := targetWmHeight (canvasWidth img config) config wmImg in
  tw == canvasWidth img config * watermarkScale config / 100 /\
  tw * imgHeight wmImg == th * imgWidth wmImg /\
  exists drawn,
    fst (processImage fuel w f config)
      = (fst (drawBase img config) ++ drawn)%list /\
    Forall (isWatermarkCall config wmImg tw th) drawn.
Proof.
  intros D C S DW Hw Hh. cbv zeta.
  apply inject_Z_pos in Hw, Hh.
  split; [unfold targetWmWidth; field|].
  split; [unfold targetWmHeight; field; split; lra|].
  exists (fst (overlay fuel w img config)). split.
  - rewrite (processImage_trace fuel w f config img D C). apply compose_trace.
  - unfold overlay. rewrite S, tryCatch_trace.
    apply drawWatermark_calls. exact DW.
Qed.

(** A tiled watermark of 20 percent on the 800 x 600 canvas: 42 copies, all
    of 160 x 80. *)
Lemma processImage_watermark_uniform_witness :
  let config := withWatermark Tiled defaultConfig in
  let wmImg := {| imgWidth := 100; imgHeight := 50 |} in
  targetWmWidth 800 config == 160 /\
  targetWmHeight 800 config wmImg == 80 /\
  exists drawn,
    fst (processImage 10 sampleWorld (queued "photo.jpg") config)
      = (fst (drawBase {| imgWidth := 1600; imgHeight := 900 |} config)
         ++ drawn)%list /\
    Forall (isWatermarkCall config wmImg (targetWmWidth 800 config)
              (targetWmHeight 800 config wmImg)) drawn.
Proof.
  cbv zeta. split; [reflexivity|]. split; [reflexivity|].
  exact (proj2 (proj2
    (processImage_watermark_uniform 10 sampleWorld (queued "photo.jpg")
       (withWatermark Tiled defaultConfig)
       {| imgWidth := 1600; imgHeight := 900 |}
       "data:image/png;base64,AAAA"%string
       {| imgWidth := 100; imgHeight := 50 |}
       eq_refl eq_refl eq_refl eq_refl eq_refl eq_refl))).
Defined.

(** ** The state stack of the context *)

Lemma saveDepth_app (s t : list CanvasOp) :
  saveDepth (s ++ t) = (saveDepth s + saveDepth t)%Z.
Proof.
  induction s as [|op s IH]; simpl; [reflexivity|].
  destruct op; rewrite ?IH; lia.
Qed.

Lemma steady_bind (m : Canvas unit) (k : unit -> Canvas unit) :
  steady m -> (forall a, steady (k a)) -> steady (bind m k).
Proof.
  unfold steady. destruct m as [t [[]| |]]; simpl; intros Hm Hk; auto.
  specialize (Hk tt). destruct (k tt) as [t' o]. simpl in *.
  rewrite saveDepth_app, Hm. destruct o; auto.
Qed.

Lemma steady_ret : steady (ret tt).
Proof. reflexivity. Qed.

Lemma drawWM_steady (w : World) (config : ProcessingConfig) (wmImg : Image)
  (tw th cx cy : Q) : steady (drawWM w config wmImg tw th cx cy).
Proof. unfold drawWM, steady. destruct (drawFails w cx cy); reflexivity. Qed.

Lemma forLoop_steady (limit step : Q) (body : Q -> Canvas unit) :
  (forall x, steady (body x)) ->
  forall fuel v, steady (forLoop fuel v limit step body).
Proof.
  intro H. induction fuel as [|fuel IH]; intro v; simpl.
  - exact I.
  - destruct (Qltb v limit); [|apply steady_ret].
    apply steady_bind; auto.
Qed.

Lemma forEach_steady (ps : list (Q * Q)) (body : Q -> Q -> Canvas unit) :
  (forall x y, steady (body x y)) -> steady (forEach ps body).
Proof.
  intro H. induction ps as [|[x y] ps IH]; simpl; [apply steady_ret|].
  apply steady_bind; auto.
Qed.

Lemma drawBase_depth (img : Image) (config : ProcessingConfig) :
  saveDepth (fst (drawBase img config)) = 0%Z.
Proof.
  unfold drawBase.
  destruct (keepOriginalSize config), (shouldFillBackground config);
    reflexivity.
Qed.

Lemma drawWatermark_depth (fuel : nat) (w : World) (config : ProcessingConfig)
  (cw ch : Q) (url : string) :
  match snd (drawWatermark fuel w config cw ch url) with
  | Returned _ => saveDepth (fst (drawWatermark fuel w config cw ch url)) = 0%Z
  | Thrown =>
      saveDepth (fst (drawWatermark fuel w config cw ch url))
        = match loadWatermarkImage w url with
          | Some _ => 2%Z
          | None => 0%Z
          end
  | Diverged => True
  end.
Proof.
  unfold drawWatermark. destruct (loadWatermarkImage w url) as [wmImg|].
  2: reflexivity.
  set (tw := targetWmWidth cw config).
  set (th := targetWmHeight cw config wmImg).
  assert (L : steady (match watermarkMode config with
                      | Tiled => drawTiled fuel cw ch (stepX cw config)
                                   (stepY cw config wmImg)
                                   (drawWM w config wmImg tw th)
                      | _ => forEach (positions config cw ch tw th)
                               (drawWM w config wmImg tw th)
                      end)).
  { destruct (watermarkMode config);
      try (apply forEach_steady; intros; apply drawWM_steady).
    unfold drawTiled. apply forLoop_steady. intro x.
    apply forLoop_steady. intro y. apply drawWM_steady. }
  unfold steady in L.
  destruct (match watermarkMode config with
            | Tiled =>
                drawTiled fuel cw ch (stepX cw config) (stepY cw config wmImg)
                  (drawWM w config wmImg tw th)
            | _ => forEach (positions config cw ch tw th)
                     (drawWM w config wmImg tw th)
            end) as [t [[]| |]];
    destruct (watermarkColorMode config); simpl in *;
    rewrite ?saveDepth_app; simpl; lia.
Qed.

(** X7: a watermark that is drawn to its end leaves the state stack of the
    context as it found it, every [save] matched by its [restore]; a
    watermark that does not load touches nothing; but when a draw of the
    watermark throws, the [catch] does not restore, and two saved states
    are left on the stack. *)
Theorem processImage_save_restore (fuel : nat) (w : World)
  (f : UploadedFile) (config : ProcessingConfig) (img : Image)
  (url : string) :
  loadImage w (file f) = Some img -> getContext w = true ->
  watermarkSource config = Some url ->
  match snd (drawWatermark fuel w config (canvasWidth img config)
               (canvasHeight img config) url) with
  | Returned _ => saveDepth (fst (processImage fuel w f config)) = 0%Z
  | Thrown =>
      saveDepth (fst (processImage fuel w f config))
        = match loadWatermarkImage w url with
          | Some _ => 2%Z
          | None => 0%Z
          end
  | Diverged => True
  end.
Proof.
  intros D C S.
  rewrite (processImage_trace fuel w f config img D C), compose_trace.
  rewrite saveDepth_app, drawBase_depth. unfold overlay.
  rewrite S, tryCatch_trace.
  pose proof (drawWatermark_depth fuel w config (canvasWidth img config)
                (canvasHeight img config) url) as H.
  destruct (snd (drawWatermark fuel w config (canvasWidth img config)
                   (canvasHeight img config) url)); auto.
Qed.

(** The tiling that throws on the right half of the canvas: two states are
    left saved. *)
Lemma processImage_save_restore_witness :
  saveDepth (fst (processImage 10 failingDrawWorld (queued "photo.jpg")
                    (withWatermark Tiled defaultConfig))) = 2%Z.
Proof.
  exact (processImage_save_restore 10 failingDrawWorld (queued "photo.jpg")
           (withWatermark Tiled defaultConfig)
           {| imgWidth := 1600; imgHeight := 900 |}
           "data:image/png;base64,AAAA"%string eq_refl eq_refl eq_refl).
Defined.

(** ** The tiling, in full *)

Lemma loopValue_shift (v step : Q) (i : nat) :
  loopValue (fl (v + step)) step i = loopValue v step (S i).
Proof. unfold loopValue. rewrite Nat.iter_succ_r. reflexivity. Qed.

(** What [turns] counts: the tests that pass before the first one that
    fails. *)
Lemma turns_spec (fuel : nat) (v limit step : Q) (n : nat) :
  turns fuel v limit step = Some n ->
  (forall i, (i < n)%nat -> loopValue v step i < limit) /\
  ~ loopValue v step n < limit /\
  (n < fuel)%nat.
Proof.
  revert v n. induction fuel as [|fuel IH]; intros v n H; simpl in H;
    [discriminate|].
  destruct (Qltb v limit) eqn:E.
  - destruct (turns fuel (fl (v + step)) limit step) as [m|] eqn:T;
      [|discriminate].
    injection H as <-. destruct (IH _ _ T) as (A & B & C).
    split; [|split; [|lia]].
    + intros [|i] Hi; [apply Qltb_true; exact E|].
      rewrite <- loopValue_shift. apply A. lia.
    + rewrite <- loopValue_shift. exact B.
  - injection H as <-. split; [intros i Hi; lia|]. split; [|lia].
    intro L. apply Qltb_true in L. simpl in L. congruence.
Qed.

Lemma flat_map_seq_shift {A : Type} (g : nat -> list A) (n : nat) :
  flat_map g (seq 1 n) = flat_map (fun i => g (S i)) (seq 0 n).
Proof. rewrite <- seq_shift, flat_map_concat_map, map_map,
         <- flat_map_concat_map. reflexivity. Qed.

(** A loop whose body returns, turn by turn. *)
Lemma forLoop_unroll (limit step : Q) (body : Q -> Canvas unit) (n : nat) :
  (forall x, snd (body x) = Returned tt) ->
  forall (fuel : nat) (v : Q),
    (forall i, (i < n)%nat -> loopValue v step i < limit) ->
    ~ loopValue v step n < limit ->
    (n < fuel)%nat ->
    forLoop fuel v limit step body
      = (flat_map (fun i => fst (body (loopValue v step i))) (seq 0 n),
         Returned tt).
Proof.
  intro Hb. induction n as [|n IH]; intros fuel v Below At Hf;
    (destruct fuel as [|fuel]; [lia|]); simpl forLoop.
  - apply Qnot_lt_le, Qltb_false in At. simpl in At. rewrite At. reflexivity.
  - assert (H0 : Qltb v limit = true).
    { apply Qltb_true. apply (Below O). lia. }
    rewrite H0.
    rewrite (IH fuel (fl (v + step))); [| | |lia].
    + cbn [seq flat_map]. change (loopValue v step 0) with v.
      rewrite flat_map_seq_shift.
      pose proof (Hb v) as Hv. destruct (body v) as [t o].
      simpl in Hv. subst o. simpl.
      f_equal. f_equal. apply flat_map_ext. intro i.
      rewrite loopValue_shift. reflexivity.
    + intros i Hi. rewrite loopValue_shift. apply Below. lia.
    + rewrite loopValue_shift. exact At.
Qed.

Lemma flat_map_singleton {A B : Type} (g : A -> B) (l : list A) :
  flat_map (fun a => [g a]) l = map g l.
Proof. induction l as [|a l IH]; simpl; congruence. Qed.

Lemma flat_map_map_inner {A B C : Type} (g : B -> list C) (h : A -> B)
  (l : list A) :
  flat_map g (map h l) = flat_map (fun a => g (h a)) l.
Proof. induction l as [|a l IH]; simpl; congruence. Qed.

Lemma flat_map_nested {A B C : Type} (g : B -> list C) (h : A -> list B)
  (l : list A) :
  flat_map g (flat_map h l) = flat_map (fun a => flat_map g (h a)) l.
Proof.
  induction l as [|a l IH]; simpl; [reflexivity|].
  rewrite flat_map_app, IH. reflexivity.
Qed.

Lemma tiledGrid_length (stepX stepY : Q) (nx ny : nat) :
  List.length (tiledGrid stepX stepY nx ny) = (nx * ny)%nat.
Proof.
  unfold tiledGrid.
  assert (G : forall (g : nat -> nat -> Q * Q) (l : list nat),
            List.length (flat_map (fun i => map (g i) (seq 0 ny)) l)
            = (List.length l * ny)%nat).
  { intros g l. induction l as [|i l IH]; simpl; [reflexivity|].
    rewrite length_app, IH, length_map, length_seq. reflexivity. }
  rewrite (G (fun i j => _)), length_seq. reflexivity.
Qed.

Lemma drawTiled_grid (fuel : nat) (w : World) (config : ProcessingConfig)
  (wmImg : Image) (cw ch stepX stepY tw th : Q) (nx ny : nat) :
  (forall x y, drawFails w x y = false) ->
  turns fuel (- stepX) (fl (cw + stepX)) stepX = Some nx ->
  turns fuel (- stepY) (fl (ch + stepY)) stepY = Some ny ->
  drawTiled fuel cw ch stepX stepY (drawWM w config wmImg tw th)
    = (flat_map (stamp config wmImg tw th) (tiledGrid stepX stepY nx ny),
       Returned tt).
Proof.
  intros F Tx Ty. unfold drawTiled.
  destruct (turns_spec _ _ _ _ _ Tx) as (Bx & Ax & Fx).
  destruct (turns_spec _ _ _ _ _ Ty) as (By & Ay & Fy).
  assert (Inner : forall x,
            forLoop fuel (- stepY) (fl (ch + stepY)) stepY
              (fun y => drawWM w config wmImg tw th
                          (fl (x + rowOffset stepX stepY y)) y)
            = (flat_map (fun j =>
                 stamp config wmImg tw th
                   (fl (x + rowOffset stepX stepY (loopValue (- stepY) stepY j)),
                    loopValue (- stepY) stepY j))
                 (seq 0 ny), Returned tt)).
  { intro x. rewrite (forLoop_unroll _ _ _ ny); try assumption.
    - f_equal. apply flat_map_ext. intro j. rewrite drawWM_stamp by apply F.
      reflexivity.
    - intro y. rewrite drawWM_stamp by apply F. reflexivity. }
  rewrite (forLoop_unroll _ _ _ nx); try assumption.
  - f_equal. unfold tiledGrid. rewrite flat_map_nested.
    apply flat_map_ext. intro i. rewrite Inner. cbn [fst].
    rewrite flat_map_map_inner. reflexivity.
  - intro x. rewrite Inner. reflexivity.
Qed.

(** At least two columns and two rows: the ones at one step before the
    canvas and the ones at zero. *)
Lemma turns_two (fuel : nat) (c step : Q) (n : nat) :
  0 < step -> 0 <= c -> fl step == step ->
  turns fuel (- step) (fl (c + step)) step = Some n -> (2 <= n)%nat.
Proof.
  intros Hs Hc F T. destruct (turns_spec _ _ _ _ _ T) as (_ & At & _).
  assert (L : step <= fl (c + step)).
  { rewrite <- F at 1. apply fl_le. lra. }
  destruct n as [|[|n]]; [| |lia]; exfalso; apply At.
  - simpl. lra.
  - rewrite loopValue_succ. simpl loopValue.
    assert (E : - step + step == 0) by ring.
    rewrite (fl_comp _ _ E). change (fl 0) with 0. lra.
Qed.

(** The count of a loop does not depend on the turns it is given, once they
    are enough. *)
Lemma turns_enough (limit step : Q) (fuel : nat) :
  forall (v : Q) (n : nat),
    turns fuel v limit step = Some n ->
    forall fuel', (n < fuel')%nat -> turns fuel' v limit step = Some n.
Proof.
  induction fuel as [|fuel IH]; intros v n H fuel' Hf; simpl in H;
    [discriminate|].
  destruct fuel' as [|fuel']; [lia|]. simpl.
  destruct (Qltb v limit); [|exact H].
  destruct (turns fuel (fl (v + step)) limit step) as [m|] eqn:T;
    [|discriminate].
  injection H as <-. rewrite (IH _ _ T fuel') by lia. reflexivity.
Qed.

(** A loop whose limit is less than [2 ^ 51] steps away ends: each turn
    moves the counter up by half a step at least, rounding included. *)
Lemma turns_within (c s : Q) (n : nat) :
  0 < s -> fl s == s -> c + s + s <= 2 ^ 52 * s ->
  forall v, 0 <= v -> fl v == v ->
    fl (c + s) - v <= inject_Z (Z.of_nat n) * (s * (1 # 2)) ->
    exists m, forall fuel, (n < fuel)%nat ->
      turns fuel v (fl (c + s)) s = Some m.
Proof.
  intros Hs F B. induction n as [|n IH]; intros v Hv Fv H.
  - exists O. intros [|fuel] Hf; [lia|]. simpl.
    assert (T : Qltb v (fl (c + s)) = false).
    { apply Qltb_false. change (inject_Z (Z.of_nat 0)) with 0 in H. lra. }
    rewrite T. reflexivity.
  - destruct (Qlt_le_dec v (fl (c + s))) as [Lt|Ge].
    + pose proof (below_rounded v (c + s) Fv Lt) as Lt'.
      assert (G : v + s * (1 # 2) <= fl (v + s))
        by (apply fl_add_grows; try assumption; lra).
      destruct (IH (fl (v + s))) as (m & T).
      * apply fl_nonneg. lra.
      * rewrite fl_idem. reflexivity.
      * rewrite Nat2Z.inj_succ in H. unfold Z.succ in H.
        rewrite inject_Z_plus in H. change (inject_Z 1) with 1 in H.
        set (k := inject_Z (Z.of_nat n)) in *. clearbody k.
        assert (D : (k + 1) * (s * (1 # 2)) == k * (s * (1 # 2)) + s * (1 # 2))
          by ring.
        rewrite D in H. lra.
      * exists (S m). intros [|fuel] Hf; [lia|]. simpl.
        rewrite (proj2 (Qltb_true _ _) Lt), T by lia. reflexivity.
    + exists O. intros [|fuel] Hf; [lia|]. simpl.
      rewrite (proj2 (Qltb_false _ _) Ge). reflexivity.
Qed.

Lemma turns_total (c s : Q) :
  0 < s -> fl s == s -> 0 <= c -> c <= 2 ^ 51 * s ->
  exists n, forall fuel, (n < fuel)%nat ->
    turns fuel (- s) (fl (c + s)) s = Some n.
Proof.
  intros Hs F Hc B.
  assert (B2 : c + s + s <= 2 ^ 52 * s).
  { change 52%Z with (51 + 1)%Z. rewrite pow2_succ.
    assert (P : 2 <= 2 ^ 51) by (apply (pow2_le 1 51); lia).
    revert B P. generalize (2 ^ 51). intros p B P.
    assert (M : 2 * s <= p * s) by (apply Qmult_le_r; assumption).
    lra. }
  assert (L0 : 0 <= fl (c + s)) by (apply fl_nonneg; lra).
  assert (H : 0 < s * (1 # 2)) by lra.
  set (N := Z.to_nat (Qceiling (fl (c + s) / (s * (1 # 2))))).
  destruct (turns_within c s N Hs F B2 0) as (m & T).
  { lra. }
  { reflexivity. }
  { pose proof (Qle_ceiling (fl (c + s) / (s * (1 # 2)))) as C.
    assert (M : inject_Z (Qceiling (fl (c + s) / (s * (1 # 2))))
                <= inject_Z (Z.of_nat N)).
    { rewrite <- Zle_Qle. unfold N. lia. }
    assert (D : fl (c + s) / (s * (1 # 2)) * (s * (1 # 2)) == fl (c + s))
      by (field; lra).
    setoid_replace (fl (c + s) - 0) with (fl (c + s)) by ring.
    rewrite <- D at 1.
    apply Qmult_le_compat_r; [|lra].
    eapply Qle_trans; [exact C | exact M]. }
  exists (S m). intros fuel Hf.
  assert (E : turns (S (S N)) (- s) (fl (c + s)) s = Some (S m)).
  { change (turns (S (S N)) (- s) (fl (c + s)) s)
      with (if Qltb (- s) (fl (c + s))
            then option_map S (turns (S N) (fl (- s + s)) (fl (c + s)) s)
            else Some O).
    assert (Lt : - s < fl (c + s)) by lra.
    rewrite (proj2 (Qltb_true _ _) Lt).
    assert (Z0 : - s + s == 0) by ring.
    rewrite (fl_comp _ _ Z0). change (fl 0) with 0.
    rewrite T by lia. reflexivity. }
  apply (turns_enough _ _ _ _ _ E). exact Hf.
Qed.

(** A loop that ends within its turns does not run out of them, whatever
    its body does short of not ending. *)
Lemma forLoop_ends (limit step : Q) (body : Q -> Canvas unit) (fuel : nat) :
  (forall x, snd (body x) <> Diverged) ->
  forall (v : Q) (n : nat),
    turns fuel v limit step = Some n ->
    snd (forLoop fuel v limit step body) <> Diverged.
Proof.
  intro Hb. induction fuel as [|fuel IH]; intros v n T; simpl in T;
    [discriminate|].
  simpl. destruct (Qltb v limit); [|discriminate].
  destruct (turns fuel (fl (v + step)) limit step) as [m|] eqn:T';
    [|discriminate].
  apply bind_ends; [apply Hb|]. intros _. apply (IH _ m). exact T'.
Qed.

(** With steps that are positive and a canvas less than [2 ^ 51] steps wide
    and high, or in a mode that is not tiled, [processImage] ends once the
    loops are given turns enough, whether the draws of the watermark throw
    or not. *)
Lemma processImage_ends_tiled (w : World) (f : UploadedFile)
  (config : ProcessingConfig) :
  (forall img url wmImg,
     loadImage w (file f) = Some img ->
     watermarkSource config = Some url ->
     loadWatermarkImage w url = Some wmImg ->
     watermarkMode config = Tiled ->
     0 <= canvasWidth img config /\ 0 <= canvasHeight img config /\
     0 < stepX (canvasWidth img config) config /\
     0 < stepY (canvasWidth img config) config wmImg /\
     canvasWidth img config
       <= 2 ^ 51 * stepX (canvasWidth img config) config /\
     canvasHeight img config
       <= 2 ^ 51 * stepY (canvasWidth img config) config wmImg) ->
  exists n : nat, forall fuel, (n < fuel)%nat -> ends fuel w config f.
Proof.
  intro H.
  destruct (watermarkMode config) eqn:M;
    try (exists O; intros fuel _; apply processImage_ends; congruence).
  unfold ends, processImage.
  destruct (loadImage w (file f)) as [img|] eqn:D; [|exists O; discriminate].
  destruct (getContext w); simpl negb; cbv iota; [|exists O; discriminate].
  assert (G : exists n : nat, forall fuel, (n < fuel)%nat ->
                snd (compose fuel w img config) <> Diverged).
  { unfold compose, overlay.
    destruct (watermarkSource config) as [url|] eqn:S.
    2:{ exists O. intros fuel _. apply bind_ends; [|discriminate].
        rewrite drawBase_returns. discriminate. }
    unfold drawWatermark.
    destruct (loadWatermarkImage w url) as [wmImg|] eqn:DW.
    2:{ exists O. intros fuel _. apply bind_ends; [|discriminate].
        rewrite drawBase_returns. discriminate. }
    destruct (H img url wmImg eq_refl eq_refl DW eq_refl)
      as (Hcw & Hch & Hx & Hy & Bx & By).
    assert (Fx : fl (stepX (canvasWidth img config) config)
                 == stepX (canvasWidth img config) config)
      by (rewrite stepX_binary64; reflexivity).
    assert (Fy : fl (stepY (canvasWidth img config) config wmImg)
                 == stepY (canvasWidth img config) config wmImg)
      by (rewrite stepY_binary64; reflexivity).
    destruct (turns_total _ _ Hx Fx Hcw Bx) as [nx Tx].
    destruct (turns_total _ _ Hy Fy Hch By) as [ny Ty].
    exists (Nat.max nx ny). intros fuel Hf.
    apply bind_ends; [rewrite drawBase_returns; discriminate|]. intros _.
    assert (E : forall m : Canvas unit,
              snd m <> Diverged -> snd (tryCatch m) <> Diverged).
    { intros [t [[]| |]]; simpl; congruence. }
    apply E. rewrite M.
    apply bind_ends; [discriminate|]. intros _.
    apply bind_ends; [destruct (watermarkColorMode config); discriminate|].
    intros _. apply bind_ends; [discriminate|]. intros _.
    apply bind_ends; [|discriminate].
    unfold drawTiled. apply (forLoop_ends _ _ _ _) with (n := nx);
      [|apply Tx; lia].
    intro x. apply (forLoop_ends _ _ _ _) with (n := ny); [|apply Ty; lia].
    intro y. apply drawWM_ends. }
  destruct G as [n G]. exists n. intros fuel Hf. specialize (G fuel Hf).
  destruct (compose fuel w img config) as [t [[]| |]]; simpl in *;
    try congruence.
  destruct (toBlob w t (format config) (quality config)); discriminate.
Qed.

(** The tiled mode, when the two loops end. *)
Lemma processImage_tiled (fuel : nat) (w : World) (f : UploadedFile)
  (config : ProcessingConfig) (img : Image) (url : string) (wmImg : Image)
  (nx ny : nat) :
  loadImage w (file f) = Some img -> getContext w = true ->
  watermarkSource config = Some url ->
  loadWatermarkImage w url = Some wmImg ->
  watermarkMode config = Tiled ->
  (forall x y, drawFails w x y = false) ->
  turns fuel (- stepX (canvasWidth img config) config)
    (fl (canvasWidth img config + stepX (canvasWidth img config) config))
    (stepX (canvasWidth img config) config) = Some nx ->
  turns fuel (- stepY (canvasWidth img config) config wmImg)
    (fl (canvasHeight img config + stepY (canvasWidth img config) config wmImg))
    (stepY (canvasWidth img config) config wmImg) = Some ny ->
  fst (processImage fuel w f config)
    = (fst (drawBase img config) ++ opening config
       ++ flat_map (stamp config wmImg
                      (targetWmWidth (canvasWidth img config) config)
                      (targetWmHeight (canvasWidth img config) config wmImg))
            (tiledGrid (stepX (canvasWidth img config) config)
               (stepY (canvasWidth img config) config wmImg) nx ny)
       ++ [Restore])%list /\
  snd (processImage fuel w f config) <> Diverged.
Proof.
  intros D C Src DW M F Tx Ty.
  set (cw := canvasWidth img config) in *.
  set (ch := canvasHeight img config) in *.
  pose proof (drawTiled_grid fuel w config wmImg cw ch _ _
                (targetWmWidth cw config) (targetWmHeight cw config wmImg)
                nx ny F Tx Ty) as G.
  assert (W : drawWatermark fuel w config cw ch url
              = ((opening config
                  ++ flat_map (stamp config wmImg (targetWmWidth cw config)
                                 (targetWmHeight cw config wmImg))
                       (tiledGrid (stepX cw config) (stepY cw config wmImg)
                          nx ny)
                  ++ [Restore])%list, Returned tt)).
  { unfold drawWatermark. rewrite DW, M, G. unfold opening.
    destruct (watermarkColorMode config); reflexivity. }
  split.
  - rewrite (processImage_trace fuel w f config img D C), compose_trace.
    unfold overlay. rewrite Src, tryCatch_trace. fold cw ch.
    rewrite W. reflexivity.
  - rewrite (processImage_outcome fuel w f config img D C).
    rewrite compose_outcome. unfold overlay. rewrite Src. fold cw ch.
    rewrite W. simpl.
    destruct (toBlob w _ (format config) (quality config)); discriminate.
Qed.

(** X8: when no draw throws, the tiled mode draws a full grid and nothing
    else.  With steps that are positive and a canvas less than [2 ^ 51]
    steps wide and high, the two loops end: the test of the columns passes
    [nx] times and the test of the rows [ny] times, two times at least each,
    and the watermark is drawn [nx * ny] times, column after column, each
    time at the place of its column and of its row; these are all the calls
    made after the base draw, between the opening of the block and its
    [restore].  The counters are sums of rounded steps, as in the machine,
    so that [nx] and [ny] are the counts of the machine. *)
Theorem processImage_tiled_grid (w : World) (f : UploadedFile)
  (config : ProcessingConfig) (img : Image) (url : string) (wmImg : Image) :
  loadImage w (file f) = Some img -> getContext w = true ->
  watermarkSource config = Some url ->
  loadWatermarkImage w url = Some wmImg ->
  watermarkMode config = Tiled ->
  (forall x y, drawFails w x y = false) ->
  let cw := canvasWidth img config in
  let ch := canvasHeight img config in
  let stepX := stepX cw config in
  let stepY := stepY cw config wmImg in
  let tw := targetWmWidth cw config in
  let th := targetWmHeight cw config wmImg in
  0 <= cw -> 0 <= ch -> 0 < stepX -> 0 < stepY ->
  cw <= 2 ^ 51 * stepX -> ch <= 2 ^ 51 * stepY ->
  exists nx ny : nat,
    (2 <= nx)%nat /\ (2 <= ny)%nat /\
    forall fuel, (Nat.max nx ny < fuel)%nat ->
      turns fuel (- stepX) (fl (cw + stepX)) stepX = Some nx /\
      turns fuel (- stepY) (fl (ch + stepY)) stepY = Some ny /\
      fst (processImage fuel w f config)
        = (fst (drawBase img config) ++ opening config
           ++ flat_map (stamp config wmImg tw th)
                (tiledGrid stepX stepY nx ny)
           ++ [Restore])%list /\
      centers (fst (processImage fuel w f config))
        = tiledGrid stepX stepY nx ny /\
      List.length (centers (fst (processImage fuel w f config)))
        = (nx * ny)%nat /\
      snd (processImage fuel w f config) <> Diverged.
Proof.
  intros D C Src DW M F. cbv zeta. intros Hcw Hch Hx Hy Bx By.
  set (cw := canvasWidth img config) in *.
  set (ch := canvasHeight img config) in *.
  assert (Fx : fl (stepX cw config) == stepX cw config)
    by (rewrite stepX_binary64; reflexivity).
  assert (Fy : fl (stepY cw config wmImg) == stepY cw config wmImg)
    by (rewrite stepY_binary64; reflexivity).
  destruct (turns_total cw _ Hx Fx Hcw Bx) as [nx Tx].
  destruct (turns_total ch _ Hy Fy Hch By) as [ny Ty].
  exists nx, ny.
  split; [apply (turns_two (S nx) cw _ nx Hx Hcw Fx); apply Tx; lia|].
  split; [apply (turns_two (S ny) ch _ ny Hy Hch Fy); apply Ty; lia|].
  intros fuel Hf.
  assert (Tx' := Tx fuel ltac:(lia)). assert (Ty' := Ty fuel ltac:(lia)).
  destruct (processImage_tiled fuel w f config img url wmImg nx ny
              D C Src DW M F Tx' Ty') as [E O].
  fold cw ch in E.
  assert (Cn : centers (fst (processImage fuel w f config))
               = tiledGrid (stepX cw config) (stepY cw config wmImg) nx ny).
  { rewrite E, !centers_app, drawBase_centers, centers_stamps.
    unfold opening. destruct (watermarkColorMode config); simpl;
      apply app_nil_r. }
  split; [exact Tx'|]. split; [exact Ty'|]. split; [exact E|].
  split; [exact Cn|]. split; [|exact O].
  rewrite Cn. apply tiledGrid_length.
Qed.

(** A watermark of 5 percent tiled on a canvas of 1024 x 768: the step down
    is 38.4, and the counter of the rows, a sum of rounded steps, is still
    below 768 + 38.4 in its turn of rank 22, where twenty-two exact steps
    would have reached it.  The machine draws 23 rows, not 22, in each of
    the 16 columns. *)
Lemma processImage_tiled_grid_witness :
  List.length
    (centers (fst (processImage 30 sampleWorld (queued "photo.jpg") scenarioE)))
    = (16 * 23)%nat /\
  - (384 # 10) + inject_Z (Z.of_nat 22) * (384 # 10) == 768 + (384 # 10) /\
  loopValue (- stepY 1024 scenarioE {| imgWidth := 100; imgHeight := 50 |})
    (stepY 1024 scenarioE {| imgWidth := 100; imgHeight := 50 |}) 22
    < fl (768 + stepY 1024 scenarioE {| imgWidth := 100; imgHeight := 50 |}).
Proof.
  destruct (processImage_tiled_grid sampleWorld (queued "photo.jpg")
              scenarioE
              {| imgWidth := 1600; imgHeight := 900 |}
              "data:image/png;base64,AAAA"%string
              {| imgWidth := 100; imgHeight := 50 |}
              eq_refl eq_refl eq_refl eq_refl eq_refl (fun _ _ => eq_refl))
    as (nx & ny & _ & _ & H).
  - discriminate.
  - discriminate.
  - vm_compute. reflexivity.
  - vm_compute. reflexivity.
  - vm_compute. discriminate.
  - vm_compute. discriminate.
  - destruct (H (S (Nat.max (Nat.max nx ny) 30))) as (Tx & Ty & _);
      [lia|].
    assert (Ex : nx = 16%nat).
    { assert (T : turns 30 (- stepX 1024 scenarioE)
                    (fl (1024 + stepX 1024 scenarioE)) (stepX 1024 scenarioE)
                  = Some 16%nat) by (vm_compute; reflexivity).
      pose proof (turns_enough _ _ _ _ _ T (S (Nat.max (Nat.max nx ny) 30))
                    ltac:(lia)) as T'.
      pose proof (eq_trans (eq_sym Tx) T') as Q. injection Q as ->.
      reflexivity. }
    assert (Ey : ny = 23%nat).
    { assert (T : turns 30
                    (- stepY 1024 scenarioE {| imgWidth := 100; imgHeight := 50 |})
                    (fl (768 + stepY 1024 scenarioE
                                 {| imgWidth := 100; imgHeight := 50 |}))
                    (stepY 1024 scenarioE {| imgWidth := 100; imgHeight := 50 |})
                  = Some 23%nat) by (vm_compute; reflexivity).
      pose proof (turns_enough _ _ _ _ _ T (S (Nat.max (Nat.max nx ny) 30))
                    ltac:(lia)) as T'.
      pose proof (eq_trans (eq_sym Ty) T') as Q. injection Q as ->.
      reflexivity. }
    subst nx ny. destruct (H 30%nat) as (_ & _ & _ & _ & L & _); [simpl; lia|].
    split; [exact L|]. split; [reflexivity|].
    vm_compute. reflexivity.
Defined.

(** ** The run, beyond its summary *)

Lemma processLoop_ext (fuel : nat) (w : World) (c1 c2 : ProcessingConfig) :
  (forall f, snd (processImage fuel w f c1) = snd (processImage fuel w f c2)) ->
  forall n i s, processLoop fuel w c1 n i s = processLoop fuel w c2 n i s.
Proof.
  intro H. induction n as [|n IH]; intros i s; simpl; [reflexivity|].
  destruct (nth_error _ i) as [current|]; [|reflexivity].
  rewrite H. destruct (snd (processImage fuel w current c2));
    try rewrite IH; reflexivity.
Qed.

Lemma packagedEntries_ext (c1 c2 : ProcessingConfig) :
  (forall name, convertedName name c1 = convertedName name c2) ->
  forall fs, packagedEntries fs c1 = packagedEntries fs c2.
Proof.
  intros H fs. induction fs as [|f fs IH]; simpl; [reflexivity|].
  rewrite IH, H. reflexivity.
Qed.

(** X2: when the original size is kept, the width and the height of the
    configuration have no part in anything: the calls a conversion makes on
    the canvas and its result, and with them the whole run (the states shown,
    the names of the downloads, the archive), are the same whatever they
    are. *)
Theorem original_size_ignores_target (fuel : nat) (w : World)
  (config : ProcessingConfig) (w1 h1 w2 h2 : Z) :
  (forall f,
     processImage fuel w f (withTarget true w1 h1 (format config) config)
     = processImage fuel w f (withTarget true w2 h2 (format config) config)) /\
  (forall st,
     startProcessing fuel w (withTarget true w1 h1 (format config) config) st
     = startProcessing fuel w (withTarget true w2 h2 (format config) config) st).
Proof.
  split; [reflexivity|]. intro st. unfold startProcessing.
  destruct (files st) as [|f fs]; [reflexivity|].
  rewrite (processLoop_ext fuel w
             (withTarget true w1 h1 (format config) config)
             (withTarget true w2 h2 (format config) config));
    [|reflexivity].
  destruct (processLoop fuel w _ _ _ _) as [es [s|]]; [|reflexivity].
  f_equal. f_equal. f_equal. unfold finish, packageZip, packageArchive.
  rewrite (packagedEntries_ext
             (withTarget true w1 h1 (format config) config)
             (withTarget true w2 h2 (format config) config));
    reflexivity.
Qed.

Lemma settle_fields (fuel : nat) (w : World) (config : ProcessingConfig)
  (f : UploadedFile) :
  id (settle fuel w config f) = id f /\
  file (settle fuel w config f) = file f /\
  previewUrl (settle fuel w config f) = previewUrl f /\
  originalName (settle fuel w config f) = originalName f.
Proof.
  unfold settle. destruct (snd (processImage fuel w f config)); auto.
Qed.

Lemma startProcessing_final_files (fuel : nat) (w : World)
  (config : ProcessingConfig) (st : AppState) :
  files st <> [] ->
  Forall (ends fuel w config) (files st) ->
  files (applyEffects st (fst (startProcessing fuel w config st)))
    = map (settle fuel w config) (files st) /\
  isProcessing (applyEffects st (fst (startProcessing fuel w config st)))
    = false /\
  snd (startProcessing fuel w config st) = true.
Proof.
  intros N E.
  destruct (startProcessing_run fuel w config st N E)
    as (loop & R & _ & _ & St).
  rewrite R. cbn [fst snd]. rewrite !applyEffects_app.
  match goal with |- context [finish w config ?s] =>
    destruct (finish_state w config s
                (applyEffects
                   (applyEffects st
                      [SetIsProcessing true; SetProgress 0; SetSummary None])
                   loop)) as (F1 & F2 & _) end.
  rewrite F1, F2. split; [apply St|]. split; reflexivity.
Qed.

(** X9: a run that ends leaves the queue as long as it was, with the same
    items in the same order (their identifiers, files, names and previews
    untouched), each of them in [success] or in [error], none pending or in
    progress; and the processing flag is down again. *)
Theorem startProcessing_keeps_the_queue (fuel : nat) (w : World)
  (config : ProcessingConfig) (st : AppState) :
  files st <> [] ->
  Forall (ends fuel w config) (files st) ->
  let final := applyEffects st (fst (startProcessing fuel w config st)) in
  map id (files final) = map id (files st) /\
  map file (files final) = map file (files st) /\
  map originalName (files final) = map originalName (files st) /\
  map previewUrl (files final) = map previewUrl (files st) /\
  Forall (fun f => status f = Status.success \/ status f = Status.error)
    (files final) /\
  isProcessing final = false.
Proof.
  intros N E. cbv zeta.
  destruct (startProcessing_final_files fuel w config st N E) as (F & P & _).
  rewrite F, P, !map_map.
  repeat (split; [apply map_ext; intro f; apply settle_fields|]).
  split; [|reflexivity].
  apply Forall_map. eapply Forall_impl; [|exact E].
  intros f Hf. unfold ends in Hf. unfold settle.
  destruct (snd (processImage fuel w f config)); simpl; auto. congruence.
Qed.

(** Scenario C again: the three items are still there, in their order. *)
Lemma startProcessing_keeps_the_queue_witness :
  map originalName
    (files (applyEffects threeImages
              (fst (startProcessing 0 sampleWorld defaultConfig threeImages))))
    = ["first.png"; "broken.png"; "third.png"]%string.
Proof.
  destruct (startProcessing_keeps_the_queue 0 sampleWorld defaultConfig
              threeImages) as (_ & _ & H & _).
  - discriminate.
  - repeat constructor; discriminate.
  - exact H.
Defined.

(** ** The progress of the run *)

Lemma progressReports_app (es1 es2 : list Effect) :
  progressReports (es1 ++ es2)
    = (progressReports es1 ++ progressReports es2)%list.
Proof. apply flat_map_app. Qed.

Lemma last_cons_default {A : Type} (a d : A) (l : list A) :
  last (a :: l) d = last l a.
Proof.
  revert a d. induction l as [|b l IH]; intros a d; [reflexivity|].
  change (last (a :: b :: l) d) with (last (b :: l) d).
  rewrite IH. symmetry. apply IH.
Qed.

Lemma progress_last (es : list Effect) (st : AppState) :
  progress (applyEffects st es) = last (progressReports es) (progress st).
Proof.
  revert st. induction es as [|e es IH]; intro st; [reflexivity|].
  change (applyEffects st (e :: es)) with (applyEffects (applyEffect st e) es).
  rewrite IH. destruct e; try reflexivity.
  change (progressReports (SetProgress p :: es))
    with (p :: progressReports es).
  rewrite last_cons_default. reflexivity.
Qed.

Lemma finish_progress (w : World) (config : ProcessingConfig)
  (s : LoopState) : progressReports (finish w config s) = [].
Proof.
  unfold finish. rewrite progressReports_app, app_nil_r.
  destruct (0 <? successCount s)%Z; [|reflexivity].
  destruct (filter isPackaged (updatedFiles s)) as [|f [|g l]].
  - destruct (packageZip w (updatedFiles s) config); reflexivity.
  - destruct (processedBlob f); reflexivity.
  - destruct (packageZip w (updatedFiles s) config); reflexivity.
Qed.

(** The figure reported after the item of rank [k] of a queue of [n]. *)
Lemma processLoop_progress (fuel : nat) (w : World)
  (config : ProcessingConfig) (todo : list UploadedFile) :
  Forall (ends fuel w config) todo ->
  forall (done : list UploadedFile) (sc fc : Z),
    progressReports
      (fst (processLoop fuel w config (List.length todo) (List.length done)
              {| updatedFiles := done ++ todo;
                 successCount := sc; failCount := fc |}))
    = map (fun k => jsRound (fl (fl (inject_Z (Z.of_nat k + 1)
                                     / inject_Z (Z.of_nat (List.length done
                                                           + List.length todo)))
                                 * 100)))
        (seq (List.length done) (List.length todo)).
Proof.
  induction 1 as [|x todo Hx _ IH]; intros done sc fc; [reflexivity|].
  simpl List.length. cbn [processLoop updatedFiles successCount failCount].
  rewrite updateAt_app, nth_error_middle.
  rewrite (processImage_file_only fuel w (withStatus Status.processing x) x
             config eq_refl).
  unfold ends in Hx.
  destruct (snd (processImage fuel w x config)) as [blob| |] eqn:O;
    [| |congruence]; cbn [updatedFiles successCount failCount];
    rewrite updateAt_app.
  - specialize (IH (done ++ [withSuccess blob (withStatus Status.processing x)])%list
                   (sc + 1)%Z fc).
    rewrite <- !app_assoc, !length_app in IH. simpl in IH.
    rewrite Nat.add_1_r in IH.
    destruct (processLoop fuel w config (List.length todo)
                (S (List.length done)) _) as [es r].
    cbn [fst] in *. cbn [progressReports flat_map app]. cbn [seq map].
    f_equal.
    + rewrite length_app. reflexivity.
    + fold (progressReports es). rewrite IH.
      apply map_ext. intro k.
      replace (S (List.length done) + List.length todo)%nat
        with (List.length done + S (List.length todo))%nat by lia.
      reflexivity.
  - specialize (IH (done ++ [withError "Conversion failed"
                               (withStatus Status.processing x)])%list
                   sc (fc + 1)%Z).
    rewrite <- !app_assoc, !length_app in IH. simpl in IH.
    rewrite Nat.add_1_r in IH.
    destruct (processLoop fuel w config (List.length todo)
                (S (List.length done)) _) as [es r].
    cbn [fst] in *. cbn [progressReports flat_map app]. cbn [seq map].
    f_equal.
    + rewrite length_app. reflexivity.
    + fold (progressReports es). rewrite IH.
      apply map_ext. intro k.
      replace (S (List.length done) + List.length todo)%nat
        with (List.length done + S (List.length todo))%nat by lia.
      reflexivity.
Qed.

Lemma jsRound_mono (x y : Q) : x <= y -> (jsRound x <= jsRound y)%Z.
Proof. intro H. unfold jsRound. apply Qfloor_resp_le. lra. Qed.

Lemma jsRound_Z (z : Z) : jsRound (inject_Z z) = z.
Proof.
  unfold jsRound.
  assert (L : (z <= Qfloor (inject_Z z + (1 # 2)))%Z).
  { rewrite <- (Qfloor_Z z) at 1. apply Qfloor_resp_le. lra. }
  assert (U : (Qfloor (inject_Z z + (1 # 2)) < z + 1)%Z).
  { pose proof (Qfloor_le (inject_Z z + (1 # 2))) as F.
    rewrite Zlt_Qlt, inject_Z_plus.
    change (inject_Z 1) with 1. lra. }
  lia.
Qed.

(** The share of the queue that is done, in percent, as the machine has
    it. *)
Lemma fl_1 : fl 1 = 1.
Proof. vm_compute. reflexivity. Qed.

Lemma fl_100 : fl 100 = 100.
Proof. vm_compute. reflexivity. Qed.

Lemma share_bounds (k n : nat) :
  (k < n)%nat ->
  0 <= fl (fl (inject_Z (Z.of_nat k + 1) / inject_Z (Z.of_nat n)) * 100) /\
  fl (fl (inject_Z (Z.of_nat k + 1) / inject_Z (Z.of_nat n)) * 100) <= 100.
Proof.
  intro H.
  assert (Hn : 0 < inject_Z (Z.of_nat n))
    by (apply inject_Z_pos; lia).
  assert (Hk : 0 <= inject_Z (Z.of_nat k + 1))
    by (change 0 with (inject_Z 0); rewrite <- Zle_Qle; lia).
  assert (Hkn : inject_Z (Z.of_nat k + 1) <= inject_Z (Z.of_nat n))
    by (rewrite <- Zle_Qle; lia).
  set (a := inject_Z (Z.of_nat k + 1)) in *.
  set (b := inject_Z (Z.of_nat n)) in *. clearbody a b.
  assert (I : 0 < / b) by (apply Qinv_lt_0_compat; exact Hn).
  assert (Q0 : 0 <= a / b) by (apply Qmult_le_0_compat; lra).
  assert (Q1 : a / b <= 1).
  { apply (Qmult_le_r _ _ b); [exact Hn|].
    assert (E : a / b * b == a) by (field; lra). rewrite E. lra. }
  pose proof (fl_nonneg _ Q0) as F0.
  pose proof (fl_le _ _ Q1) as F1. rewrite fl_1 in F1.
  set (q := fl (a / b)) in *. clearbody q. split.
  - apply fl_nonneg. lra.
  - rewrite <- fl_100 at 2. apply fl_le. lra.
Qed.

(** X10: the run reports 0, then after each item the share of the queue
    that is done, in percent, as the machine computes and rounds it: figures
    between 0 and 100 that never go down; the last of them is 100, and it is
    the progress the run ends with. *)
Theorem startProcessing_progress (fuel : nat) (w : World)
  (config : ProcessingConfig) (st : AppState) :
  files st <> [] ->
  Forall (ends fuel w config) (files st) ->
  let n := List.length (files st) in
  let share := fun k : nat =>
    jsRound (fl (fl (inject_Z (Z.of_nat k + 1) / inject_Z (Z.of_nat n))
                 * 100)) in
  progressReports (fst (startProcessing fuel w config st))
    = (0%Z :: map share (seq 0 n)) /\
  (forall k, (k < n)%nat -> (0 <= share k <= 100)%Z) /\
  (forall j k, (j <= k)%nat -> (k < n)%nat -> (share j <= share k)%Z) /\
  share (n - 1)%nat = 100%Z /\
  progress (applyEffects st (fst (startProcessing fuel w config st))) = 100%Z.
Proof.
  intros N E. cbv zeta.
  set (n := List.length (files st)).
  set (share := fun k : nat =>
    jsRound (fl (fl (inject_Z (Z.of_nat k + 1) / inject_Z (Z.of_nat n))
                 * 100))).
  assert (Hn : (0 < n)%nat).
  { unfold n. destruct (files st); [congruence | simpl; lia]. }
  assert (R : progressReports (fst (startProcessing fuel w config st))
              = 0%Z :: map share (seq 0 n)).
  { unfold startProcessing. subst share n.
    destruct (files st) as [|f fs]; [congruence|].
    pose proof (processLoop_progress fuel w config (f :: fs) E [] 0%Z 0%Z)
      as P.
    destruct (processLoop_zip fuel w config (f :: fs) E [] 0%Z 0%Z)
      as (loop & L & _).
    change (@List.length UploadedFile []) with O in P, L.
    change ([] ++ f :: fs)%list with (f :: fs) in P, L.
    rewrite L in P |- *. cbn [fst] in *.
    rewrite !progressReports_app, finish_progress, app_nil_r, P.
    reflexivity. }
  assert (Top : share (n - 1)%nat = 100%Z).
  { unfold share. replace (Z.of_nat (n - 1) + 1)%Z with (Z.of_nat n) by lia.
    assert (H1 : inject_Z (Z.of_nat n) / inject_Z (Z.of_nat n) == 1).
    { assert (0 < inject_Z (Z.of_nat n)) by (apply inject_Z_pos; lia).
      field. lra. }
    rewrite (fl_comp _ _ H1), fl_1.
    assert (H2 : 1 * 100 == 100) by ring.
    rewrite (fl_comp _ _ H2), fl_100. apply (jsRound_Z 100). }
  split; [exact R|]. split; [|split; [|split; [exact Top|]]].
  - intros k Hk. destruct (share_bounds k n Hk) as [L U].
    unfold share. split.
    + change 0%Z with (jsRound 0). apply jsRound_mono. exact L.
    + rewrite <- (jsRound_Z 100). apply jsRound_mono. exact U.
  - intros j k Hjk Hk. unfold share. apply jsRound_mono.
    assert (Pn : 0 < inject_Z (Z.of_nat n)) by (apply inject_Z_pos; lia).
    apply fl_le. apply Qmult_le_compat_r; [|lra]. apply fl_le.
    apply Qmult_le_compat_r; [rewrite <- Zle_Qle; lia|].
    apply Qlt_le_weak, Qinv_lt_0_compat. exact Pn.
  - rewrite progress_last, R.
    replace (seq 0 n) with (seq 0 (n - 1) ++ [(n - 1)%nat])%list.
    + rewrite map_app. simpl map.
      change (0%Z :: map share (seq 0 (n - 1)) ++ [share (n - 1)%nat])%list
        with ((0%Z :: map share (seq 0 (n - 1))) ++ [share (n - 1)%nat])%list.
      rewrite last_last. exact Top.
    + replace n with (S (n - 1)) at 3 by lia.
      rewrite seq_S. reflexivity.
Qed.

(** Scenario C: 0, then 33, 67 and 100.  And a queue of forty images: after
    the item of rank 23 the machine has [(23 / 40) * 100] a little below
    57.5 and reports 57, where the exact share, 57.5, would be rounded to
    58. *)
Lemma startProcessing_progress_witness :
  progressReports (fst (startProcessing 0 sampleWorld defaultConfig threeImages))
    = [0; 33; 67; 100]%Z /\
  nth 23 (progressReports
            (fst (startProcessing 0 sampleWorld defaultConfig fortyImages)))
      0%Z = 57%Z /\
  jsRound (inject_Z 23 / inject_Z 40 * 100) = 58%Z.
Proof.
  destruct (startProcessing_progress 0 sampleWorld defaultConfig threeImages)
    as (H & _).
  - discriminate.
  - repeat constructor; discriminate.
  - destruct (startProcessing_progress 0 sampleWorld defaultConfig fortyImages)
      as (H40 & _).
    + discriminate.
    + repeat constructor; discriminate.
    + rewrite H, H40. split; [reflexivity|]. split; vm_compute; reflexivity.
Defined.

(** ** The end of the run: no blob, several blobs, no archive *)

(** X11: when no item of the queue can be converted, the run offers no
    download and writes no archive; its summary counts every item as failed,
    none as converted, and names no output. *)
Theorem startProcessing_no_success (fuel : nat) (w : World)
  (config : ProcessingConfig) (st : AppState) :
  files st <> [] ->
  Forall (fun f => snd (processImage fuel w f config) = Thrown) (files st) ->
  downloads (fst (startProcessing fuel w config st)) = [] /\
  summary (applyEffects st (fst (startProcessing fuel w config st)))
    = Some {| total := Z.of_nat (List.length (files st));
              success := 0;
              failed := Z.of_nat (List.length (files st));
              outputZipName := EmptyString |} /\
  Forall (fun f => status f = Status.error)
    (files (applyEffects st (fst (startProcessing fuel w config st)))).
Proof.
  intros N T.
  assert (E : Forall (ends fuel w config) (files st)).
  { eapply Forall_impl; [|exact T]. intros f H. unfold ends. congruence. }
  assert (Z0 : filter (converted fuel w config) (files st) = []).
  { clear - T. induction T as [|f fs Hf _ IH]; [reflexivity|].
    simpl. unfold converted at 1. rewrite Hf. exact IH. }
  pose proof (converted_or_rejected fuel w config (files st) E) as Sum.
  rewrite Z0 in Sum. simpl in Sum.
  destruct (startProcessing_final_files fuel w config st N E) as (F & _).
  split; [|split].
  - destruct (startProcessing_run fuel w config st N E)
      as (loop & R & _ & Dl & _).
    rewrite R. cbn [fst]. rewrite !downloads_app, Dl, Z0. reflexivity.
  - destruct (startProcessing_run fuel w config st N E)
      as (loop & R & _ & _ & _).
    rewrite R. cbn [fst]. rewrite !applyEffects_app, Z0, Sum.
    unfold finish. simpl. rewrite length_map. reflexivity.
  - rewrite F. apply Forall_map. eapply Forall_impl; [|exact T].
    intros f H. unfold settle. rewrite H. reflexivity.
Qed.

(** Three images, none of which can be decoded. *)
Lemma startProcessing_no_success_witness :
  downloads (fst (startProcessing 0 sampleWorld defaultConfig threeBroken))
    = [] /\
  summary (applyEffects threeBroken
             (fst (startProcessing 0 sampleWorld defaultConfig threeBroken)))
    = Some {| total := 3; success := 0; failed := 3;
              outputZipName := EmptyString |}.
Proof.
  destruct (startProcessing_no_success 0 sampleWorld defaultConfig threeBroken)
    as (D & S & _).
  - discriminate.
  - repeat constructor.
  - split; [exact D | exact S].
Defined.

(** X12: when two or more items are converted and the archive library
    writes the archive, the run offers one download and one only: that
    archive, under [converted_images_] followed by the time and [.zip].  The
    archive was asked for with one folder, named after the target size (or
    [converted_original_size]), and in it one entry for each converted item,
    in the order of the queue, under its converted name; the items that
    failed are not in it. *)
Theorem startProcessing_archive_download (fuel : nat) (w : World)
  (config : ProcessingConfig) (st : AppState) (zipBlob : Blob) :
  Forall (ends fuel w config) (files st) ->
  (2 <= List.length (filter (converted fuel w config) (files st)))%nat ->
  generateAsync w (outputArchive fuel w config (files st)) = Some zipBlob ->
  let zipName := ("converted_images_" ++ decimal (now w) ++ ".zip")%string in
  downloads (fst (startProcessing fuel w config st)) = [(zipBlob, zipName)] /\
  summary (applyEffects st (fst (startProcessing fuel w config st)))
    = Some {| total := Z.of_nat (List.length (files st));
              success :=
                Z.of_nat (List.length
                            (filter (converted fuel w config) (files st)));
              failed :=
                Z.of_nat (List.length
                            (filter (rejected fuel w config) (files st)));
              outputZipName := zipName |} /\
  packageArchive
    (files (applyEffects st (fst (startProcessing fuel w config st)))) config
    = outputArchive fuel w config (files st) /\
  List.length (entries (outputArchive fuel w config (files st)))
    = List.length (filter (converted fuel w config) (files st)).
Proof.
  intros E Two G. cbv zeta.
  assert (N : files st <> []).
  { intro H. rewrite H in Two. simpl in Two. lia. }
  destruct (startProcessing_final_files fuel w config st N E) as (F & _).
  destruct (startProcessing_run fuel w config st N E)
    as (loop & R & _ & Dl & _).
  rewrite (finish_several fuel w config (files st) _ Two), G in R.
  split; [|split; [|split]].
  - rewrite R. cbn [fst]. rewrite !downloads_app, Dl. reflexivity.
  - rewrite R. cbn [fst]. rewrite !applyEffects_app. reflexivity.
  - rewrite F. apply packageArchive_settled.
  - rewrite <- packageArchive_settled. unfold packageArchive. simpl entries.
    rewrite packagedEntries_length, filter_isPackaged_settled.
    apply length_map.
Qed.

(** Scenario C: the archive holds the first and the third image, in a folder
    named after the 800 x 600 target. *)
Lemma startProcessing_archive_download_witness :
  downloads (fst (startProcessing 0 sampleWorld defaultConfig threeImages))
    = [({| blobBytes := "converted_800x600";
           blobType := "application/zip" |},
        "converted_images_1700000000000.zip"%string)] /\
  map fst (entries (outputArchive 0 sampleWorld defaultConfig
                      (files threeImages)))
    = ["first_800x600_converted.jpeg"; "third_800x600_converted.jpeg"]%string.
Proof.
  destruct (startProcessing_archive_download 0 sampleWorld defaultConfig
              threeImages
              {| blobBytes := "converted_800x600";
                 blobType := "application/zip" |})
    as (D & _).
  - repeat constructor; discriminate.
  - simpl. apply le_n.
  - reflexivity.
  - split; [exact D | reflexivity].
Defined.

(** X13: when two or more items are converted but the archive cannot be
    written, the error is logged and goes no further: the run offers no
    download and leaves no summary, yet it ends, with the processing flag
    down and every item in the state its conversion left it in. *)
Theorem startProcessing_archive_failure (fuel : nat) (w : World)
  (config : ProcessingConfig) (st : AppState) :
  Forall (ends fuel w config) (files st) ->
  (2 <= List.length (filter (converted fuel w config) (files st)))%nat ->
  generateAsync w (outputArchive fuel w config (files st)) = None ->
  snd (startProcessing fuel w config st) = true /\
  downloads (fst (startProcessing fuel w config st)) = [] /\
  In ConsoleError (fst (startProcessing fuel w config st)) /\
  summary (applyEffects st (fst (startProcessing fuel w config st))) = None /\
  isProcessing (applyEffects st (fst (startProcessing fuel w config st)))
    = false /\
  files (applyEffects st (fst (startProcessing fuel w config st)))
    = map (settle fuel w config) (files st).
Proof.
  intros E Two G.
  assert (N : files st <> []).
  { intro H. rewrite H in Two. simpl in Two. lia. }
  destruct (startProcessing_final_files fuel w config st N E) as (F & P & T).
  destruct (startProcessing_run fuel w config st N E)
    as (loop & R & _ & Dl & St).
  rewrite (finish_several fuel w config (files st) _ Two), G in R.
  split; [exact T|]. split; [|split; [|split; [|split; [exact P | exact F]]]].
  - rewrite R. cbn [fst]. rewrite !downloads_app, Dl. reflexivity.
  - rewrite R. cbn [fst]. apply in_or_app. right.
    apply in_or_app. right. left. reflexivity.
  - rewrite R. cbn [fst]. rewrite !applyEffects_app.
    destruct (St (applyEffects st
                    [SetIsProcessing true; SetProgress 0; SetSummary None]))
      as [S1 _].
    change (summary
              (applyEffects
                 (applyEffects st
                    [SetIsProcessing true; SetProgress 0; SetSummary None])
                 loop) = None).
    rewrite S1. reflexivity.
Qed.

(** Scenario C in a browser that cannot write archives. *)
Lemma startProcessing_archive_failure_witness :
  downloads (fst (startProcessing 0 noArchiveWorld defaultConfig threeImages))
    = [] /\
  summary (applyEffects threeImages
             (fst (startProcessing 0 noArchiveWorld defaultConfig threeImages)))
    = None.
Proof.
  destruct (startProcessing_archive_failure 0 noArchiveWorld defaultConfig
              threeImages) as (_ & D & _ & S & _).
  - repeat constructor; discriminate.
  - simpl. apply le_n.
  - reflexivity.
  - split; [exact D | exact S].
Defined.

(** ** Intake *)

Lemma alerts_app (es1 es2 : list Effect) :
  alerts (es1 ++ es2) = (alerts es1 ++ alerts es2)%list.
Proof. apply flat_map_app. Qed.

Lemma pushAll_new (w : World) (extracted : list File) :
  forall newFiles : list UploadedFile,
  exists items,
    pushAll w newFiles extracted = (newFiles ++ items)%list /\
    map file items = extracted /\
    map originalName items = map fileName extracted /\
    Forall (fun f => status f = Status.pending /\ processedBlob f = None)
      items.
Proof.
  induction extracted as [|img rest IH]; intro newFiles.
  - exists []. simpl. rewrite app_nil_r. repeat split. constructor.
  - simpl.
    destruct (IH (newFiles ++ [newItem w (List.length newFiles) img])%list)
      as (items & E & Hf & Hn & Hs).
    exists (newItem w (List.length newFiles) img :: items).
    rewrite E, <- app_assoc. simpl. rewrite Hf, Hn.
    repeat split. constructor; [split; reflexivity | exact Hs].
Qed.

Lemma intake_items (w : World) (fileList : list File) :
  forall newFiles : list UploadedFile,
  exists items,
    fst (intake w fileList newFiles) = (newFiles ++ items)%list /\
    map file items = flat_map (accepted w) fileList /\
    map originalName items = map fileName (flat_map (accepted w) fileList) /\
    Forall (fun f => status f = Status.pending /\ processedBlob f = None)
      items /\
    snd (intake w fileList newFiles)
      = map (fun f => Alert ("Failed to parse ZIP: " ++ fileName f)%string)
          (filter (refused w) fileList).
Proof.
  induction fileList as [|f rest IH]; intro newFiles.
  - exists []. simpl. rewrite app_nil_r. repeat split. constructor.
  - simpl intake. simpl flat_map. simpl filter.
    unfold accepted at 1 3, refused at 1.
    destruct (isZip f) eqn:Z; simpl andb.
    + destruct (extractImagesFromZip w f) as [extracted|] eqn:X.
      * destruct (pushAll_new w extracted newFiles)
          as (new & Ep & Hf & Hn & Hs).
        destruct (IH (pushAll w newFiles extracted))
          as (items & E & Hf' & Hn' & Hs' & Ha).
        exists (new ++ items)%list.
        split; [rewrite E, Ep, <- app_assoc; reflexivity|].
        split; [rewrite map_app, Hf, Hf'; reflexivity|].
        split; [rewrite !map_app, Hn, Hn'; reflexivity|].
        split; [apply Forall_app; split; assumption | exact Ha].
      * destruct (IH newFiles) as (items & E & Hf' & Hn' & Hs' & Ha).
        exists items. destruct (intake w rest newFiles) as [out al].
        simpl in *. rewrite E, Ha. repeat split; assumption.
    + destruct (startsWith "image/" (fileType f)).
      * destruct (IH (newFiles ++ [newItem w (List.length newFiles) f])%list)
          as (items & E & Hf' & Hn' & Hs' & Ha).
        exists (newItem w (List.length newFiles) f :: items).
        split; [rewrite E, <- app_assoc; reflexivity|].
        split; [simpl; rewrite Hf'; reflexivity|].
        split; [simpl; rewrite Hn'; reflexivity|].
        split; [constructor; [split; reflexivity | exact Hs'] | exact Ha].
      * destruct (IH newFiles) as (items & E & Hf' & Hn' & Hs' & Ha).
        exists items. repeat split; assumption.
Qed.

Lemma readEntries_none (es : list ZipEntry) :
  readEntries es = None <-> exists e, In e es /\ entryBlob e = None.
Proof.
  induction es as [|e es IH]; simpl.
  - split; [discriminate | intros (e & [] & _)].
  - destruct (entryBlob e) as [b|] eqn:B.
    + destruct (readEntries es) as [fs|].
      * split; [discriminate|]. intros (e' & [<-|Hin] & He'); [congruence|].
        assert (H : Some fs = None) by (apply IH; exists e'; auto).
        discriminate.
      * split; [|reflexivity]. intros _.
        destruct (proj1 IH eq_refl) as (e' & Hin & He'). exists e'. auto.
    + split; [|reflexivity]. intros _. exists e. auto.
Qed.

(** X14: the files of a selection are taken in their order: each image file
    becomes one item, each archive that can be read becomes its images, in
    the order of the archive, and every other file is passed over in
    silence.  The new items go behind the queue as it was, pending and
    without a blob, under the names of their files; the summary of an
    earlier run is dropped, and nothing else of the state changes.  One alert
    is shown for each archive that cannot be read, with its name. *)
Theorem processFiles_takes_in_order (w : World) (fileList : list File)
  (st : AppState) :
  exists items,
    files (applyEffects st (processFiles w fileList))
      = (files st ++ items)%list /\
    map file items = flat_map (accepted w) fileList /\
    map originalName items = map fileName (flat_map (accepted w) fileList) /\
    Forall (fun f => status f = Status.pending /\ processedBlob f = None)
      items /\
    summary (applyEffects st (processFiles w fileList)) = None /\
    isProcessing (applyEffects st (processFiles w fileList))
      = isProcessing st /\
    progress (applyEffects st (processFiles w fileList)) = progress st /\
    alerts (processFiles w fileList)
      = map (fun f => ("Failed to parse ZIP: " ++ fileName f)%string)
          (filter (refused w) fileList).
Proof.
  destruct (intake_items w fileList []) as (items & E & Hf & Hn & Hs & Ha).
  exists items. unfold processFiles.
  destruct (intake w fileList []) as [newFiles al]. simpl in E, Ha.
  subst newFiles al.
  assert (St : forall l s,
            applyEffects s
              (map (fun f => Alert ("Failed to parse ZIP: " ++ fileName f)%string)
                 l) = s).
  { induction l as [|a l IHl]; intro s; [reflexivity | apply IHl]. }
  rewrite applyEffects_app, St. simpl.
  repeat (split; [assumption || reflexivity|]).
  rewrite alerts_app. simpl. rewrite app_nil_r.
  generalize (filter (refused w) fileList). clear.
  induction l as [|a l IH]; simpl; congruence.
Qed.

(** X15: an archive is taken whole or not at all.  It is refused when it
    cannot be loaded, and also when one single entry that counts as an image
    cannot be read, whatever the other entries; entries that do not count as
    images are never read. *)
Theorem extractImagesFromZip_fails_iff (w : World) (zipFile : File) :
  extractImagesFromZip w zipFile = None <->
  loadAsync w zipFile = None \/
  exists archive e,
    loadAsync w zipFile = Some archive /\ In e archive /\
    isImageEntry e = true /\ entryBlob e = None.
Proof.
  unfold extractImagesFromZip.
  destruct (loadAsync w zipFile) as [archive|].
  - rewrite readEntries_none. split.
    + intros (e & Hin & He). right. apply filter_In in Hin.
      exists archive, e. tauto.
    + intros [H|(a & e & Ha & Hin & Hq & He)]; [discriminate|].
      injection Ha as <-. exists e. split; [|exact He].
      apply filter_In. auto.
  - split; [auto | reflexivity].
Qed.

(** ** The target size *)

Lemma findRatio_some (value : string) (r : string * Q) :
  findRatio value = Some r -> fst r = value /\ In r aspectRatios.
Proof.
  intro H. apply find_some in H. destruct H as [Hin He].
  apply String.eqb_eq in He. auto.
Qed.

(** The ratios of the list, but for the first entry, are between a half and
    two. *)
Lemma ratio_range (r : string * Q) :
  In r aspectRatios -> fst r <> "custom"%string ->
  (1 # 2) <= snd r /\ snd r <= 2.
Proof.
  intros Hin Hc. simpl in Hin.
  repeat (destruct Hin as [<-|Hin]; [simpl in *; try congruence;
                                     split; discriminate|]).
  destruct Hin.
Qed.

Lemma jsRound_bounds (x : Q) :
  x - (1 # 2) < inject_Z (jsRound x) /\ inject_Z (jsRound x) <= x + (1 # 2).
Proof.
  unfold jsRound. split.
  - pose proof (Qlt_floor (x + (1 # 2))) as H.
    rewrite inject_Z_plus in H. change (inject_Z 1) with 1 in H. lra.
  - apply Qfloor_le.
Qed.

Lemma jsRound_ge_1 (x : Q) : (1 # 2) <= x -> (1 <= jsRound x)%Z.
Proof.
  intro H. change 1%Z with (jsRound (1 # 2)). apply jsRound_mono. exact H.
Qed.

Lemma scaled_down_ge_half (s : Z) (r : Q) :
  (1 <= s)%Z -> 0 < r -> r <= 2 -> (1 # 2) <= inject_Z s / r.
Proof.
  intros Hs H0 H2.
  assert (S1 : 1 <= inject_Z s)
    by (change 1 with (inject_Z 1); rewrite <- Zle_Qle; exact Hs).
  apply (Qmult_le_r _ _ r); [exact H0|].
  assert (E : inject_Z s / r * r == inject_Z s) by (field; lra).
  rewrite E. lra.
Qed.

Lemma scaled_up_ge_half (s : Z) (r : Q) :
  (1 <= s)%Z -> (1 # 2) <= r -> (1 # 2) <= inject_Z s * r.
Proof.
  intros Hs H.
  assert (S1 : 1 <= inject_Z s)
    by (change 1 with (inject_Z 1); rewrite <- Zle_Qle; exact Hs).
  assert (M : 1 * r <= inject_Z s * r)
    by (apply Qmult_le_compat_r; lra).
  lra.
Qed.

Lemma aspect_in_list (value : string) (r : string * Q) :
  findRatio value = Some r -> In value (map fst aspectRatios).
Proof.
  intro H. apply findRatio_some in H. destruct H as [<- Hin].
  apply in_map. exact Hin.
Qed.

Lemma sizeStep_invariant (config : ProcessingConfig) (e : SizeEvent) :
  sizeInvariant config -> sizeInvariant (sizeStep config e).
Proof.
  intros (Hw & Hh & Ha). unfold sizeInvariant.
  assert (Custom : In "custom"%string (map fst aspectRatios))
    by (left; reflexivity).
  destruct e as [value|val|val]; simpl sizeStep.
  - unfold handleRatioChange.
    destruct (findRatio value) as [r|] eqn:F; [|simpl; auto].
    destruct (String.eqb (fst r) "custom") eqn:C; simpl; [auto|].
    apply String.eqb_neq in C.
    destruct (findRatio_some _ _ F) as [Ev Hin].
    destruct (ratio_range r Hin C) as [L U].
    split; [exact Hw|]. split; [|exact (aspect_in_list _ _ F)].
    apply jsRound_ge_1, scaled_down_ge_half; [exact Hw | lra | exact U].
  - unfold handleWidthChange.
    destruct (String.eqb (aspectRatio config) "custom") eqn:C; simpl negb;
      cbv iota.
    + simpl. repeat split; [lia | exact Hh | exact Ha].
    + destruct (findRatio (aspectRatio config)) as [r|] eqn:F; simpl;
        [|repeat split; [lia | exact Hh | exact Ha]].
      apply String.eqb_neq in C.
      destruct (findRatio_some _ _ F) as [Ev Hin].
      rewrite <- Ev in C. destruct (ratio_range r Hin C) as [L U].
      split; [lia|]. split; [|exact Ha].
      apply jsRound_ge_1, scaled_down_ge_half; [lia | lra | exact U].
  - unfold handleHeightChange.
    destruct (String.eqb (aspectRatio config) "custom") eqn:C; simpl negb;
      cbv iota.
    + simpl. repeat split; [exact Hw | lia | exact Ha].
    + destruct (findRatio (aspectRatio config)) as [r|] eqn:F; simpl;
        [|repeat split; [exact Hw | lia | exact Ha]].
      apply String.eqb_neq in C.
      destruct (findRatio_some _ _ F) as [Ev Hin].
      rewrite <- Ev in C. destruct (ratio_range r Hin C) as [L U].
      split; [|split; [lia | exact Ha]].
      apply jsRound_ge_1, scaled_up_ge_half; [lia | exact L].
Qed.

(** X16: whatever is chosen in the list of ratios and typed in the width
    and height fields (zero, a negative number, a value that is not in the
    list), in any order, the width and the height of the configuration stay
    at one pixel or more, so that the compositor never divides by zero, and
    the ratio stays one of the list. *)
Theorem size_fields_keep_size_usable (config : ProcessingConfig)
  (events : list SizeEvent) :
  sizeInvariant config -> sizeInvariant (fold_left sizeStep events config).
Proof.
  revert config. induction events as [|e events IH]; intros config H.
  - exact H.
  - simpl. apply IH, sizeStep_invariant, H.
Qed.

(** From the starting configuration, through a session of odd entries. *)
Lemma size_fields_keep_size_usable_witness :
  sizeInvariant (fold_left sizeStep sizeSession defaultConfig).
Proof.
  apply (size_fields_keep_size_usable defaultConfig sizeSession).
  split; [discriminate|]. split; [discriminate|]. left. reflexivity.
Defined.

Lemma lockedRatio_some (config : ProcessingConfig) (q : Q) :
  lockedRatio config = Some q ->
  exists r, findRatio (aspectRatio config) = Some r /\ snd r = q /\
            String.eqb (aspectRatio config) "custom" = false.
Proof.
  unfold lockedRatio.
  destruct (String.eqb (aspectRatio config) "custom"); [discriminate|].
  destruct (findRatio (aspectRatio config)) as [r|]; [|discriminate].
  simpl. intro H. injection H as <-. exists r. auto.
Qed.

Lemma sizeStep_ratioKept (config : ProcessingConfig) (e : SizeEvent) :
  ratioKept config -> ratioKept (sizeStep config e).
Proof.
  intro K. unfold ratioKept.
  destruct (lockedRatio (sizeStep config e)) as [q|] eqn:L; [|exact I].
  apply lockedRatio_some in L. destruct L as (r & F & <- & C).
  destruct e as [value|val|val]; simpl sizeStep in *.
  - unfold handleRatioChange in *.
    destruct (findRatio value) as [r'|] eqn:F'; [|simpl in C; discriminate].
    destruct (String.eqb (fst r') "custom") eqn:C'; simpl negb in *;
      cbv iota in *; [simpl in C; discriminate|].
    simpl in F. rewrite F' in F. injection F as <-.
    left. simpl. apply jsRound_bounds.
  - unfold handleWidthChange in *.
    destruct (String.eqb (aspectRatio config) "custom") eqn:C0; simpl negb in *;
      cbv iota in *; [simpl in C; congruence|].
    destruct (findRatio (aspectRatio config)) as [r'|] eqn:F'; simpl in F.
    + rewrite F' in F. injection F as <-. left. simpl. apply jsRound_bounds.
    + rewrite F' in F. discriminate.
  - unfold handleHeightChange in *.
    destruct (String.eqb (aspectRatio config) "custom") eqn:C0; simpl negb in *;
      cbv iota in *; [simpl in C; congruence|].
    destruct (findRatio (aspectRatio config)) as [r'|] eqn:F'; simpl in F.
    + rewrite F' in F. injection F as <-. right. simpl. apply jsRound_bounds.
    + rewrite F' in F. discriminate.
Qed.

(** X17: while a ratio of the list is chosen, the size is kept to it
    through every change of the ratio, the width or the height: one side is
    always the other one scaled by the ratio and rounded to the nearest
    pixel, so that the two differ from the exact ratio by half a pixel at
    most. *)
Theorem size_fields_keep_ratio (config : ProcessingConfig)
  (events : list SizeEvent) :
  ratioKept config -> ratioKept (fold_left sizeStep events config).
Proof.
  revert config. induction events as [|e events IH]; intros config H.
  - exact H.
  - simpl. apply IH, sizeStep_ratioKept, H.
Qed.

(** 16:9 chosen, then a width of 1920: the height is 1080. *)
Lemma size_fields_keep_ratio_witness :
  let config :=
    fold_left sizeStep [RatioChange "16:9"; WidthChange 1920] defaultConfig in
  ratioKept config /\ width config = 1920%Z /\ height config = 1080%Z.
Proof.
  cbv zeta. split; [|split; reflexivity].
  apply (size_fields_keep_ratio defaultConfig
           [RatioChange "16:9"; WidthChange 1920]).
  exact I.
Defined.

(** ** The preview of the watermark *)

(** A loop that is within [n] steps of passing its limit ends in [n] turns
    at most. *)
Lemma forItems_ends {A : Type} (limit step : Q)
  (body : Q -> option (list A)) (m n : nat) :
  0 < step ->
  (forall x, exists l, body x = Some l /\ (List.length l <= m)%nat) ->
  forall (v : Q) (fuel : nat),
    limit - v < inject_Z (Z.of_nat n) * step -> (n < fuel)%nat ->
    exists items,
      forItems fuel v limit step body = Some items /\
      (List.length items <= n * m)%nat.
Proof.
  intros Hs Hb. induction n as [|n IH]; intros v fuel Hv Hf;
    (destruct fuel as [|fuel]; [lia|]); simpl forItems.
  - change (inject_Z (Z.of_nat 0)) with 0 in Hv.
    assert (E : Qle_bool v limit = false).
    { destruct (Qle_bool v limit) eqn:E; [|reflexivity].
      apply Qle_bool_iff in E. lra. }
    rewrite E. exists []. split; [reflexivity | simpl; lia].
  - destruct (Qle_bool v limit); [|exists []; split; [reflexivity | simpl; lia]].
    destruct (Hb v) as (here & -> & Hl).
    destruct (IH (v + step) fuel) as (rest & -> & Hr); [|lia|].
    + rewrite Nat2Z.inj_succ in Hv. unfold Z.succ in Hv.
      rewrite inject_Z_plus in Hv. change (inject_Z 1) with 1 in Hv.
      set (k := inject_Z (Z.of_nat n)) in *. clearbody k.
      assert (D : (k + 1) * step == k * step + step) by ring.
      rewrite D in Hv. lra.
    + exists (here ++ rest)%list. split; [reflexivity|].
      rewrite length_app. simpl. lia.
Qed.

(** X18: the preview of a tiled watermark always ends, whatever the scale
    of the configuration (zero and negative scales included): its step is
    never below 5 percent, so that each of the two loops takes 23 turns at
    most and the preview shows 529 watermarks at most; the other modes show
    one, two or three. *)
Theorem renderPreviewWatermarks_ends (config : ProcessingConfig)
  (fuel : nat) :
  (24 <= fuel)%nat ->
  exists items,
    renderPreviewWatermarks fuel config = Some items /\
    (List.length items <= 529)%nat /\
    (watermarkMode config <> Tiled ->
     (1 <= List.length items <= 3)%nat).
Proof.
  intro Hf. unfold renderPreviewWatermarks.
  destruct (watermarkMode config) eqn:M;
    try (eexists; split; [reflexivity|]; simpl; split; [lia|intros _; lia]).
  set (step := Qmax 5 (watermarkScale config * (3 # 2))).
  assert (H5 : 5 <= step) by apply Q.le_max_l.
  assert (Hv : 100 + step - - step < inject_Z (Z.of_nat 23) * step).
  { change (inject_Z (Z.of_nat 23)) with 23. lra. }
  destruct (forItems_ends (100 + step) step
              (fun x => forItems fuel (- step) (100 + step) step
                          (fun y => Some [(x + rowOffset step step y, y)]))
              (23 * 1) 23) with (v := - step) (fuel := fuel)
    as (items & E & L); [lra| |exact Hv|lia|].
  - intro x.
    apply (forItems_ends (100 + step) step _ 1 23); [lra| |exact Hv|lia].
    intro y. eexists. split; [reflexivity | simpl; lia].
  - exists items. split; [exact E|]. split; [simpl in L; lia|].
    intro H. congruence.
Qed.

(** A tiled preview with a scale of zero. *)
Lemma renderPreviewWatermarks_ends_witness :
  exists items,
    renderPreviewWatermarks 24
      (withWatermark Tiled
         {| keepOriginalSize := false; aspectRatio := "custom";
            width := 800; height := 600; format := JPG; quality := 85 # 100;
            fillBackground := false; watermarkEnabled := true;
            watermarkImageUrl := None; watermarkOpacity := 8 # 10;
            watermarkScale := 0; watermarkRotation := 0;
            watermarkPosition := BottomRight; watermarkMode := Tiled;
            watermarkColorMode := Original; customX := 50; customY := 50 |})
      = Some items /\
    (List.length items <= 529)%nat.
Proof.
  destruct (renderPreviewWatermarks_ends
              (withWatermark Tiled
                 {| keepOriginalSize := false; aspectRatio := "custom";
                    width := 800; height := 600; format := JPG;
                    quality := 85 # 100; fillBackground := false;
                    watermarkEnabled := true; watermarkImageUrl := None;
                    watermarkOpacity := 8 # 10; watermarkScale := 0;
                    watermarkRotation := 0; watermarkPosition := BottomRight;
                    watermarkMode := Tiled; watermarkColorMode := Original;
                    customX := 50; customY := 50 |})
              24 (le_n 24)) as (items & E & L & _).
  exists items. split; [exact E | exact L].
Defined.

(** X19: at the custom position and at the centre position of the single
    mode, the preview shows the watermark where the output has it: the
    centre drawn on the canvas is the place of the preview, taken in percent
    of the width and of the height of the canvas. *)
Theorem preview_agrees_with_output (config : ProcessingConfig) (fuel : nat)
  (cw ch tw th : Q) :
  watermarkMode config = Single ->
  watermarkPosition config = Custom \/ watermarkPosition config = Center ->
  exists px py cx cy,
    renderPreviewWatermarks fuel config = Some [(px, py)] /\
    positions config cw ch tw th = [(cx, cy)] /\
    cx == px / 100 * cw /\ cy == py / 100 * ch.
Proof.
  intros M P. unfold renderPreviewWatermarks, positions. rewrite M.
  destruct P as [P|P]; rewrite P; eexists _, _, _, _;
    (split; [reflexivity|]); (split; [reflexivity|]);
    split; try reflexivity; field.
Qed.

(** Scenario D: the preview at (20, 80), the output at (200, 400). *)
Lemma preview_agrees_with_output_witness :
  exists cx cy,
    renderPreviewWatermarks 0 scenarioD = Some [(20, 80)] /\
    positions scenarioD 1000 500 200 100 = [(cx, cy)] /\
    cx == 200 /\ cy == 400.
Proof.
  destruct (preview_agrees_with_output scenarioD 0 1000 500 200 100 eq_refl
              (or_introl eq_refl))
    as (px & py & cx & cy & Pv & Po & Ex & Ey).
  injection Pv as <- <-. exists cx, cy.
  split; [reflexivity|]. split; [exact Po|].
  split; [rewrite Ex | rewrite Ey]; reflexivity.
Defined.

(** At the corners the preview and the output part: the starting position,
    bottom right, is previewed at 85 percent of both sides, (680, 510) on
    the 800 x 600 canvas, and a watermark of 160 x 80 is drawn with its
    centre at (696, 536). *)
Example preview_corner_differs :
  renderPreviewWatermarks 0 (withWatermark Single defaultConfig)
    = Some [(85, 85)] /\
  exists cx cy,
    positions (withWatermark Single defaultConfig) 800 600 160 80
      = [(cx, cy)] /\
    cx == 696 /\ cy == 536 /\
    ~ cx == 85 / 100 * 800 /\ ~ cy == 85 / 100 * 600.
Proof.
  split; [reflexivity|]. eexists _, _. split; [reflexivity|].
  repeat split; try reflexivity; discriminate.
Qed.

(** ** Dragging the watermark *)

Lemma clamp_range (x : Q) :
  0 <= Qmax 0 (Qmin 100 x) /\ Qmax 0 (Qmin 100 x) <= 100.
Proof.
  split; [apply Q.le_max_l|].
  apply Q.max_lub; [discriminate | apply Q.le_min_l].
Qed.

Lemma previewStep_range (s : ProcessingConfig * bool) (ev : PreviewEvent) :
  customInRange (fst s) -> customInRange (fst (previewStep s ev)).
Proof.
  intro H. destruct ev as [e rect|]; [|exact H]. simpl previewStep.
  unfold handlePreviewDrag.
  destruct (watermarkPosition (fst s)), (watermarkMode (fst s)); try exact H.
  destruct (negb (snd s) && negb match kind e with TouchMove => true | _ => false end
            && match kind e with MouseDown => true | _ => false end);
    [exact H|].
  destruct (snd s || match kind e with TouchMove => true | _ => false end);
    [|exact H].
  destruct rect as [rect|]; [|exact H].
  unfold customInRange. simpl.
  pose proof (clamp_range ((clientX e - rectLeft rect) / rectWidth rect * 100)).
  pose proof (clamp_range ((clientY e - rectTop rect) / rectHeight rect * 100)).
  tauto.
Qed.

Lemma handlePreviewDrag_frame (config : ProcessingConfig) (dragging : bool)
  (e : PointerEvent) (rect : option DOMRect) :
  withCustom (customX (fst (handlePreviewDrag config dragging e rect)))
    (customY (fst (handlePreviewDrag config dragging e rect))) config
  = fst (handlePreviewDrag config dragging e rect).
Proof.
  assert (Same : withCustom (customX config) (customY config) config = config)
    by (destruct config; reflexivity).
  unfold handlePreviewDrag.
  destruct (watermarkPosition config), (watermarkMode config);
    try exact Same.
  destruct (negb dragging && negb match kind e with TouchMove => true | _ => false end
            && match kind e with MouseDown => true | _ => false end);
    [exact Same|].
  destruct (dragging || match kind e with TouchMove => true | _ => false end);
    [|exact Same].
  destruct rect as [rect|]; [reflexivity | exact Same].
Qed.

(** X20: through any sequence of presses, moves, touches and releases over
    a preview box that has a size, the custom place stays a point of the
    picture, both percentages between 0 and 100, however far the pointer
    goes.  The handler changes nothing of the configuration but that place,
    and unless the position is [custom] and the mode [single] it changes
    nothing at all. *)
Theorem preview_drag_stays_in_range (events : list PreviewEvent)
  (config : ProcessingConfig) (dragging : bool) :
  Forall hasExtent events ->
  customInRange config ->
  customInRange (fst (fold_left previewStep events (config, dragging))) /\
  (forall e rect,
     withCustom (customX (fst (handlePreviewDrag config dragging e rect)))
       (customY (fst (handlePreviewDrag config dragging e rect))) config
     = fst (handlePreviewDrag config dragging e rect)) /\
  (forall e rect,
     watermarkPosition config <> Custom \/ watermarkMode config <> Single ->
     handlePreviewDrag config dragging e rect = (config, dragging)).
Proof.
  intros _ H. split; [|split].
  - change config with (fst (config, dragging)) in H.
    generalize dependent (config, dragging). clear.
    induction events as [|ev events IH]; intros s H; [exact H|].
    simpl. apply IH, previewStep_range, H.
  - intros e rect. apply handlePreviewDrag_frame.
  - intros e rect N. unfold handlePreviewDrag.
    destruct (watermarkPosition config), (watermarkMode config);
      try reflexivity.
    destruct N as [N|N]; congruence.
Qed.

(** A press, a move inside the box and a move far out of it: the place ends
    at the corner (100, 100), and a move after the release changes nothing. *)
Lemma preview_drag_stays_in_range_witness :
  let final := fold_left previewStep dragSession (scenarioD, false) in
  customInRange (fst final) /\
  customX (fst final) == 100 /\ customY (fst final) == 100 /\
  snd final = false.
Proof.
  cbv zeta. split; [|repeat split; reflexivity].
  apply (preview_drag_stays_in_range dragSession scenarioD false).
  - repeat constructor.
  - repeat split; discriminate.
Defined.

(** ** Running again *)

Lemma settle_idempotent (fuel : nat) (w : World) (config : ProcessingConfig)
  (f : UploadedFile) :
  settle fuel w config (settle fuel w config f) = settle fuel w config f.
Proof.
  assert (E : processImage fuel w (settle fuel w config f) config
              = processImage fuel w f config).
  { apply processImage_file_only. apply settle_fields. }
  unfold settle at 1. rewrite E. unfold settle.
  destruct (snd (processImage fuel w f config)); reflexivity.
Qed.

Lemma outcome_settled (fuel : nat) (w : World) (config : ProcessingConfig)
  (f : UploadedFile) :
  snd (processImage fuel w (settle fuel w config f) config)
    = snd (processImage fuel w f config).
Proof.
  f_equal. apply processImage_file_only. apply settle_fields.
Qed.

Lemma filter_settled (fuel : nat) (w : World) (config : ProcessingConfig)
  (p : UploadedFile -> bool) (fs : list UploadedFile) :
  (forall f, p (settle fuel w config f) = p f) ->
  List.length (filter p (map (settle fuel w config) fs))
    = List.length (filter p fs).
Proof.
  intro H. induction fs as [|f fs IH]; simpl; [reflexivity|].
  rewrite H. destruct (p f); simpl; congruence.
Qed.

(** X21: running the batch a second time, with the same configuration and
    in a browser that answers as it did (its clock included), changes
    nothing: the queue comes out as the first run left it, and the second run
    offers the same downloads and leaves the same summary as the first. *)
Theorem startProcessing_again (fuel : nat) (w : World)
  (config : ProcessingConfig) (st : AppState) :
  files st <> [] ->
  Forall (ends fuel w config) (files st) ->
  let first := fst (startProcessing fuel w config st) in
  let st1 := applyEffects st first in
  let second := fst (startProcessing fuel w config st1) in
  snd (startProcessing fuel w config st1) = true /\
  files (applyEffects st1 second) = files st1 /\
  downloads second = downloads first /\
  summary (applyEffects st1 second) = summary st1.
Proof.
  intros N E. cbv zeta.
  destruct (startProcessing_final_files fuel w config st N E) as (F & _).
  set (st1 := applyEffects st (fst (startProcessing fuel w config st))) in *.
  assert (N1 : files st1 <> []).
  { rewrite F. destruct (files st); [congruence | discriminate]. }
  assert (E1 : Forall (ends fuel w config) (files st1)).
  { rewrite F. apply Forall_map. eapply Forall_impl; [|exact E].
    intros f H. unfold ends. rewrite outcome_settled. exact H. }
  destruct (startProcessing_final_files fuel w config st1 N1 E1)
    as (F1 & _ & T1).
  split; [exact T1|]. split.
  { rewrite F1, F, map_map. apply map_ext. intro f. apply settle_idempotent. }
  destruct (startProcessing_run fuel w config st N E)
    as (loop & R & _ & Dl & St).
  destruct (startProcessing_run fuel w config st1 N1 E1)
    as (loop1 & R1 & _ & Dl1 & St1).
  assert (Same : forall p : UploadedFile -> bool,
            (forall f, p (settle fuel w config f) = p f) ->
            List.length (filter p (files st1)) = List.length (filter p (files st))).
  { intros p Hp. rewrite F. apply filter_settled. exact Hp. }
  rewrite (Same (converted fuel w config)) in R1
    by (intro f; unfold converted; rewrite outcome_settled; reflexivity).
  rewrite (Same (rejected fuel w config)) in R1
    by (intro f; unfold rejected; rewrite outcome_settled; reflexivity).
  assert (M : map (settle fuel w config) (files st1)
              = map (settle fuel w config) (files st)).
  { rewrite F, map_map. apply map_ext. intro f. apply settle_idempotent. }
  rewrite M in R1.
  split.
  - rewrite R1, R. cbn [fst]. rewrite !downloads_app, Dl, Dl1. reflexivity.
  - unfold st1 at 3. rewrite R1, R. cbn [fst]. rewrite !applyEffects_app.
    apply summary_congruence.
    destruct (St1 (applyEffects st1
                     [SetIsProcessing true; SetProgress 0; SetSummary None]))
      as [S1 _].
    destruct (St (applyEffects st
                    [SetIsProcessing true; SetProgress 0; SetSummary None]))
      as [S0 _].
    rewrite S1, S0. reflexivity.
Qed.

(** Scenario C, run twice: the same archive is offered again. *)
Lemma startProcessing_again_witness :
  let first := fst (startProcessing 0 sampleWorld defaultConfig threeImages) in
  let st1 := applyEffects threeImages first in
  downloads (fst (startProcessing 0 sampleWorld defaultConfig st1))
    = downloads first /\
  List.length (downloads first) = 1%nat.
Proof.
  cbv zeta. split; [|reflexivity].
  destruct (startProcessing_again 0 sampleWorld defaultConfig threeImages)
    as (_ & _ & D & _).
  - discriminate.
  - repeat constructor; discriminate.
  - exact D.
Defined.

(** A drop of a text file, an image and an archive: the text file is passed
    over, the image and the two images of the archive are queued; where the
    archive cannot be read, an alert names it and the image alone is
    queued. *)
Example mixed_drop :
  map originalName
    (files (applyEffects emptyState (processFiles archiveWorld mixedDrop)))
    = ["logo.png"; "photo.PNG"; "photo.PNG"]%string /\
  map originalName
    (files (applyEffects emptyState (processFiles sampleWorld mixedDrop)))
    = ["logo.png"]%string /\
  alerts (processFiles sampleWorld mixedDrop)
    = ["Failed to parse ZIP: photos.zip"]%string.
Proof. repeat split. Qed.
